(** * Layered layout of the quest graph (js/app.js, [calculateLayout])

    A shallow embedding of the layout engine of the quest viewer: the
    level assignment by recursive propagation from the roots
    ([assignLevel]), the bounded fallback sweep, the grouping by level
    and the placement of every level's row.

    JavaScript values are modelled as follows.
    - Quest ids are strings.
    - A [Map] is an association list in insertion order whose keys are
      pairwise distinct; [Map_set] on a present key replaces the value in
      place, as the JavaScript [Map] does.  A [Set] is a duplicate-free
      list in insertion order.
    - A level is a JavaScript number that is either an integer or
      [-Infinity] (the value of [Math.max()] on no arguments): type
      [num].  All arithmetic done on levels ([+ 1], [>=], [Math.max],
      [* nodeSpacingY]) is closed on this type, and exact on doubles for
      integers below 2^53.
    - [assignLevel] is recursive without a structural argument; the
      model carries a bound [fuel] on the depth of the call stack and
      answers [None] when that depth is exceeded. *)

From Stdlib Require Import String.
From Stdlib Require Import List ZArith Bool Lia Arith PeanoNat Permutation.
Import ListNotations.
Local Open Scope Z_scope.

Set Implicit Arguments.

(* ================================================================== *)
(** ** Numbers: integers and [-Infinity] *)

Inductive num : Type :=
| NegInfinity : num
| Num : Z -> num.

Definition num_eqb (a b : num) : bool :=
  match a, b with
  | NegInfinity, NegInfinity => true
  | Num x, Num y => x =? y
  | _, _ => false
  end.

(** [a >= b] *)
Definition num_geb (a b : num) : bool :=
  match a, b with
  | _, NegInfinity => true
  | NegInfinity, Num _ => false
  | Num x, Num y => y <=? x
  end.

Definition num_max (a b : num) : num :=
  match a, b with
  | NegInfinity, _ => b
  | _, NegInfinity => a
  | Num x, Num y => Num (Z.max x y)
  end.

(** [Math.max(...l)]; [Math.max()] is [-Infinity]. *)
Definition Math_max (l : list num) : num := fold_right num_max NegInfinity l.

(** [a + 1] *)
Definition num_succ (a : num) : num :=
  match a with
  | NegInfinity => NegInfinity
  | Num x => Num (x + 1)
  end.

(** [a * k] for a positive integer constant [k]. *)
Definition num_scale (a : num) (k : Z) : num :=
  match a with
  | NegInfinity => NegInfinity
  | Num x => Num (x * k)
  end.

Definition num_le (a b : num) : Prop :=
  match a, b with
  | NegInfinity, _ => True
  | Num _, NegInfinity => False
  | Num x, Num y => x <= y
  end.

Definition num_lt (a b : num) : Prop :=
  match a, b with
  | _, NegInfinity => False
  | NegInfinity, Num _ => True
  | Num x, Num y => x < y
  end.

(** A level that the engine may store: a non-negative integer. *)
Definition is_level (a : num) : Prop := exists z, a = Num z /\ 0 <= z.

(* ================================================================== *)
(** ** JavaScript [Map] and [Set] in insertion order *)

Section JsMap.
Variables K V : Type.
Variable eqb : K -> K -> bool.

Definition JsMap := list (K * V).

Fixpoint Map_get (m : JsMap) (k : K) : option V :=
  match m with
  | [] => None
  | (k', v) :: r => if eqb k' k then Some v else Map_get r k
  end.

Definition Map_has (m : JsMap) (k : K) : bool :=
  match Map_get m k with Some _ => true | None => false end.

Fixpoint Map_set (m : JsMap) (k : K) (v : V) : JsMap :=
  match m with
  | [] => [(k, v)]
  | (k', v') :: r =>
      if eqb k' k then (k', v) :: r else (k', v') :: Map_set r k v
  end.

Definition Map_keys (m : JsMap) : list K := map fst m.
End JsMap.

Arguments JsMap : clear implicits.

Fixpoint Set_has (s : list string) (k : string) : bool :=
  match s with
  | [] => false
  | k' :: r => if String.eqb k' k then true else Set_has r k
  end.

Definition Set_add (s : list string) (k : string) : list string :=
  if Set_has s k then s else s ++ [k].

(** [arr.includes(k)] on an array of ids. *)
Definition includes (arr : list string) (k : string) : bool :=
  existsb (fun p => String.eqb p k) arr.

(** [arr.filter(l => l !== undefined)] *)
Fixpoint filter_defined (A : Type) (arr : list (option A)) : list A :=
  match arr with
  | [] => []
  | Some a :: r => a :: filter_defined r
  | None :: r => filter_defined r
  end.

(** [arr.forEach(f)] where [f] updates a state and may exhaust the
    stack. *)
Fixpoint forEachM (A S : Type) (arr : list A) (f : A -> S -> option S)
  (s : S) : option S :=
  match arr with
  | [] => Some s
  | a :: r =>
      match f a s with
      | Some s' => forEachM r f s'
      | None => None
      end
  end.

(* ================================================================== *)
(** ** Data model *)

(** The fields of a quest record that the layout reads. *)
Record Quest : Type := mkQuest {
  id : string;
  unlockMilestone : bool;
  prerequisites : list string
}.

Record Config : Type := { nodeSpacingX : Z; nodeSpacingY : Z }.

Definition CONFIG : Config := {| nodeSpacingX := 160; nodeSpacingY := 80 |}.

Record Position : Type := mkPos { x : Z; y : num }.

(** The two local collections of [calculateLayout] that [assignLevel]
    mutates. *)
Record LState : Type := mkState {
  levels : JsMap string num;
  processed : list string
}.

Record LayoutResult : Type := mkResult {
  maxLevel : num;
  levelGroups : JsMap num (list string)
}.

Definition levels_get (st : LState) (k : string) : option num :=
  Map_get String.eqb (levels st) k.

(* ================================================================== *)
(** ** Level assignment *)

(** [quest.prerequisites.map(p => levels.get(p)).filter(l => l !== undefined)] *)
Definition prereqLevels (st : LState) (q : Quest) : list num :=
  filter_defined (map (levels_get st) (prerequisites q)).

(** The guard at the head of [assignLevel]: the quest is processed and
    its stored level is at least the proposed one. *)
Definition already_at_least (st : LState) (quest : Quest) (level : num) : bool :=
  Set_has (processed st) (id quest) &&
  match levels_get st (id quest) with
  | Some existing => num_geb existing level
  | None => false
  end.

(** [levels.set(quest.id, level); processed.add(quest.id)] *)
Definition record_level (st : LState) (quest : Quest) (level : num) : LState :=
  {| levels := Map_set String.eqb (levels st) (id quest) level;
     processed := Set_add (processed st) (id quest) |}.

Definition childrenOf (data : list Quest) (quest : Quest) : list Quest :=
  filter (fun q => includes (prerequisites q) (id quest)) data.

Fixpoint assignLevel (fuel : nat) (data : list Quest) (quest : Quest)
  (level : num) (st : LState) : option LState :=
  match fuel with
  | O => None
  | S fuel' =>
      if already_at_least st quest level then Some st
      else
        forEachM (childrenOf data quest)
          (fun child st' =>
             let pl := prereqLevels st' child in
             if Nat.eqb (length pl) (length (prerequisites child)) then
               assignLevel fuel' data child (num_succ (Math_max pl)) st'
             else Some st')
          (record_level st quest level)
  end.

Definition roots (data : list Quest) : list Quest :=
  filter (fun q => unlockMilestone q && Nat.eqb (length (prerequisites q)) 0) data.

Definition emptyState : LState := {| levels := []; processed := [] |}.

(** [roots.forEach(root => assignLevel(root, 0))] *)
Definition processRoots (fuel : nat) (data : list Quest) (st : LState)
  : option LState :=
  forEachM (roots data) (fun root st' => assignLevel fuel data root (Num 0) st') st.

(** The body of one iteration of the [while] loop. *)
Definition sweepStep (fuel : nat) (data : list Quest) (q : Quest) (st : LState)
  : option LState :=
  if negb (Set_has (processed st) (id q)) then
    let pl := prereqLevels st q in
    if Nat.ltb 0 (length pl) || Nat.eqb (length (prerequisites q)) 0 then
      let level := if Nat.ltb 0 (length pl) then num_succ (Math_max pl) else Num 0 in
      assignLevel fuel data q level st
    else Some st
  else Some st.

Definition sweepPass (fuel : nat) (data : list Quest) (st : LState)
  : option LState :=
  forEachM data (sweepStep fuel data) st.

(** [while (processed.size < data.quests.length && maxAttempts-- > 0)] *)
Fixpoint fallbackSweep (fuel : nat) (data : list Quest) (maxAttempts : nat)
  (st : LState) : option LState :=
  match maxAttempts with
  | O => Some st
  | S m =>
      if Nat.ltb (length (processed st)) (length data) then
        match sweepPass fuel data st with
        | Some st' => fallbackSweep fuel data m st'
        | None => None
        end
      else Some st
  end.

(** The state of [levels] and [processed] when the grouping starts. *)
Definition computeLevels (fuel : nat) (data : list Quest) : option LState :=
  match processRoots fuel data emptyState with
  | Some st => fallbackSweep fuel data 10 st
  | None => None
  end.

(* ================================================================== *)
(** ** Grouping and placement *)

(** One step of [levels.forEach((level, id) => ...)]: create the group
    when the level is new, then push the id on the group's array. *)
Definition pushGroup (groups : JsMap num (list string)) (entry : string * num)
  : JsMap num (list string) :=
  let '(qid, level) := entry in
  let groups1 :=
    if Map_has num_eqb groups level then groups
    else Map_set num_eqb groups level [] in
  match Map_get num_eqb groups1 level with
  | Some ids => Map_set num_eqb groups1 level (ids ++ [qid])
  | None => groups1
  end.

Definition groupByLevel (lv : JsMap string num) : JsMap num (list string) :=
  fold_left pushGroup lv [].

(** [ids.forEach((id, i) => ...)]: the array with its indices. *)
Definition indexed (A : Type) (arr : list A) : list (nat * A) :=
  combine (seq 0 (length arr)) arr.

Definition placeLevel (np : JsMap string Position) (group : num * list string)
  : JsMap string Position :=
  let '(level, ids) := group in
  let count := Z.of_nat (length ids) in
  let totalWidth := (count - 1) * nodeSpacingX CONFIG in
  let startX := (- totalWidth) / 2 in
  fold_left
    (fun np' (e : nat * string) =>
       Map_set String.eqb np' (snd e)
         {| x := startX + Z.of_nat (fst e) * nodeSpacingX CONFIG;
            y := num_scale level (nodeSpacingY CONFIG) |})
    (indexed ids) np.

(** [calculateLayout]: the global [nodePositions] is an argument and a
    result; it is cleared first. *)
Definition calculateLayout (fuel : nat) (data : list Quest)
  (nodePositions : JsMap string Position)
  : option (JsMap string Position * LayoutResult) :=
  let cleared : JsMap string Position := [] in
  match computeLevels fuel data with
  | None => None
  | Some st =>
      let groups := groupByLevel (levels st) in
      let maxLevel := Math_max (Map_keys groups) in
      Some (fold_left placeLevel groups cleared,
            {| maxLevel := maxLevel; levelGroups := groups |})
  end.

(* ================================================================== *)
(** ** Predicates on the level state and on the result *)

Ltac num_cases :=
  repeat match goal with
         | a : num |- _ => destruct a
         end;
  simpl in *; try tauto; try congruence; try lia.

(** [processed] and the keys of [levels] are updated together and in
    the same order. *)
Definition wf (st : LState) : Prop := processed st = Map_keys (levels st).

(** Every level of [s] is still assigned in [s'] and is not smaller. *)
Definition levels_le (s s' : LState) : Prop :=
  forall k v, levels_get s k = Some v ->
              exists v', levels_get s' k = Some v' /\ num_le v v'.

Definition has_level (st : LState) (k : string) : Prop :=
  exists v, levels_get st k = Some v.

(** All prerequisites of [q] have a level: the test
    [prereqLevels.length === child.prerequisites.length]. *)
Definition all_known (st : LState) (q : Quest) : Prop :=
  length (prereqLevels st q) = length (prerequisites q).

(** A root of the layout: a milestone without prerequisites. *)
Definition is_root (q : Quest) : Prop :=
  unlockMilestone q = true /\ prerequisites q = [].

(** The calls of [assignLevel] that the layout makes: on a quest of the
    dataset, either at level 0 for a quest without prerequisites that is
    eligible as a seed, or one above the highest known level of its
    prerequisites. *)
Inductive call_ok (data : list Quest) (seed : Quest -> Prop) (st : LState)
  (q : Quest) (l : num) : Prop :=
| call_seed :
    In q data -> prerequisites q = [] -> seed q -> l = Num 0 ->
    call_ok data seed st q l
| call_prereq :
    In q data -> prereqLevels st q <> [] ->
    l = num_succ (Math_max (prereqLevels st q)) ->
    call_ok data seed st q l.

Definition base_inv (data : list Quest) (st : LState) : Prop :=
  wf st /\
  (forall k v, levels_get st k = Some v -> is_level v) /\
  (forall k, has_level st k -> In k (map id data)) /\
  NoDup (Map_keys (levels st)).

(** Every stored level is 0 for a seeded quest without prerequisites,
    and otherwise at least 1 and at most one above the highest level
    among the prerequisites known now. *)
Definition class_inv (data : list Quest) (seed : Quest -> Prop) (st : LState) : Prop :=
  forall q v, In q data -> levels_get st (id q) = Some v ->
    (prerequisites q = [] /\ seed q /\ v = Num 0) \/
    (prereqLevels st q <> [] /\ num_le (Num 1) v /\
     num_le v (num_succ (Math_max (prereqLevels st q)))).

(** When the prerequisites of [c] are all known, [c] has a level, at
    least one above theirs. *)
Definition resolved (st : LState) (c : Quest) : Prop :=
  prerequisites c <> [] -> all_known st c ->
  exists v, levels_get st (id c) = Some v /\
            num_le (num_succ (Math_max (prereqLevels st c))) v.

Definition all_resolved (data : list Quest) (st : LState) : Prop :=
  forall c, In c data -> resolved st c.

(** Any stretch of the layout computation: one write of [assignLevel]
    past its guard, one completed call, the propagation from the roots,
    the fallback sweep, and sequences of these. *)
Inductive layout_run (data : list Quest) : LState -> LState -> Prop :=
| run_write st q l :
    already_at_least st q l = false -> layout_run data st (record_level st q l)
| run_call fuel q l st st' :
    assignLevel fuel data q l st = Some st' -> layout_run data st st'
| run_roots fuel st st' :
    processRoots fuel data st = Some st' -> layout_run data st st'
| run_sweep fuel maxAttempts st st' :
    fallbackSweep fuel data maxAttempts st = Some st' -> layout_run data st st'
| run_seq st1 st2 st3 :
    layout_run data st1 st2 -> layout_run data st2 st3 -> layout_run data st1 st3.

(** The prerequisite graph over the quests of the dataset is acyclic:
    some rank strictly increases along every edge between two quests of
    the dataset. *)
Definition acyclic (data : list Quest) : Prop :=
  exists rk : string -> nat,
    forall q p, In q data -> In p (prerequisites q) -> In p (map id data) ->
                (rk p < rk (id q))%nat.

(** The place of [k] in the insertion order of a set, or the place it
    would take if added now. *)
Fixpoint index_of (k : string) (s : list string) : option nat :=
  match s with
  | [] => None
  | a :: r => if String.eqb a k then Some 0%nat else option_map S (index_of k r)
  end.

Definition slot_in (s : list string) (k : string) : nat :=
  match index_of k s with Some i => i | None => length s end.

Definition slot (st : LState) (k : string) : nat := slot_in (processed st) k.

(** Every processed quest was processed after all its prerequisites. *)
Definition ord_inv (data : list Quest) (st : LState) : Prop :=
  forall q, In q data -> In (id q) (processed st) ->
  forall p, In p (prerequisites q) ->
            In p (processed st) /\ (slot st p < slot st (id q))%nat.

(** The calls of the propagation from the roots: on a quest of the
    dataset whose prerequisites all have a level. *)
Definition primary_call (data : list Quest) (st : LState) (q : Quest) (l : num) : Prop :=
  all_known st q /\ call_ok data is_root st q l.

Definition primary_inv (data : list Quest) (st : LState) : Prop :=
  base_inv data st /\ ord_inv data st.

Ltac distinct_ids :=
  repeat (constructor; [simpl; intuition discriminate|]); constructor.

(** The groups partition the ids of [lv], and an id is only in the group
    of its own level. *)
Definition groups_of (lv : JsMap string num) (g : JsMap num (list string)) : Prop :=
  Permutation (concat (map snd g)) (map fst lv) /\
  (forall l ids k, In (l, ids) g -> In k ids -> In (k, l) lv).

(** The position written for the quest at index [i] of a row of [count]
    quests on [level]. *)
Definition rowPosition (level : num) (count i : nat) : Position :=
  {| x := (- ((Z.of_nat count - 1) * nodeSpacingX CONFIG)) / 2
          + Z.of_nat i * nodeSpacingX CONFIG;
     y := num_scale level (nodeSpacingY CONFIG) |}.

Definition setPos (np : JsMap string Position) (w : string * Position)
  : JsMap string Position :=
  Map_set String.eqb np (fst w) (snd w).

(** The [nodePositions.set] calls made for one group, in order. *)
Definition placeWrites (group : num * list string) : list (string * Position) :=
  map (fun e : nat * string =>
         (snd e, rowPosition (fst group) (length (snd group)) (fst e)))
      (indexed (snd group)).

(* ================================================================== *)
(** ** Datasets: the scenarios of the specification and others *)

Open Scope string_scope.

Definition diamond : list Quest :=
  [ mkQuest "R" true [];
    mkQuest "M1" false ["R"];
    mkQuest "M2" false ["R"];
    mkQuest "F" false ["M1"; "M2"] ].

(** A quest [Q] placed early by the sweep and raised when its second
    prerequisite [P] is placed. *)
Definition late_prereq : list Quest :=
  [ mkQuest "R" true [];
    mkQuest "Q" false ["R"; "P"];
    mkQuest "P" false ["R"; "W"];
    mkQuest "W" false [] ].

Definition late_prereq_before : LState :=
  {| levels := [("R", Num 0); ("Q", Num 1)]; processed := ["R"; "Q"] |}.

Definition late_prereq_after : LState :=
  {| levels := [("R", Num 0); ("Q", Num 2); ("P", Num 1)];
     processed := ["R"; "Q"; "P"] |}.

Definition diamond_levels : LState :=
  {| levels := [("R", Num 0); ("M1", Num 1); ("M2", Num 1); ("F", Num 2)];
     processed := ["R"; "M1"; "M2"; "F"] |}.

(** A quest [Q] with an unknown prerequisite is placed by the sweep from
    the one prerequisite known at that moment and is not revisited when
    [P] is placed on the same level. *)
Definition unknown_gap : list Quest :=
  [ mkQuest "R" true [];
    mkQuest "Q" false ["R"; "P"; "U"];
    mkQuest "P" false ["R"; "U"] ].

(** A dataset with one milestone root and one quest without
    prerequisites that is not a milestone. *)
Definition orphan : list Quest :=
  [ mkQuest "N" false [];
    mkQuest "R" true [];
    mkQuest "M" false ["R"] ].

Definition orphan_primary : LState :=
  {| levels := [("R", Num 0); ("M", Num 1)]; processed := ["R"; "M"] |}.

(** [A] requires the root [R] and [B]; [B] requires [A]. *)
Definition rooted_cycle : list Quest :=
  [ mkQuest "R" true [];
    mkQuest "A" false ["R"; "B"];
    mkQuest "B" false ["A"] ].

Definition cycle_state (a b : Z) : LState :=
  {| levels := [("R", Num 0); ("A", Num a); ("B", Num b)];
     processed := ["R"; "A"; "B"] |}.

(** [A] requires [B] and [B] requires [A]; there is no root. *)
Definition pure_cycle : list Quest :=
  [ mkQuest "A" false ["B"]; mkQuest "B" false ["A"] ].

Definition unknown_only : list Quest := [ mkQuest "X" false ["unknown"] ].

Close Scope string_scope.

(* ================================================================== *)
(** ** The quest index ([init]) *)

(** [data.quests.forEach(q => questMap.set(q.id, q))] on the empty
    [questMap]. *)
Definition buildQuestMap (data : list Quest) : JsMap string Quest :=
  fold_left (fun m q => Map_set String.eqb m (id q) q) data [].

Definition known (questMap : JsMap string Quest) (k : string) : Prop :=
  exists quest, Map_get String.eqb questMap k = Some quest.

(* ================================================================== *)
(** ** The ancestors of a quest ([getAncestorPath], [highlightPath]) *)

(** The two local collections of [getAncestorPath] that [walk]
    mutates. *)
Record WalkState : Type := mkWalk {
  path : list string;
  visited : list string
}.

(** [walk] is recursive through [quest.prerequisites.forEach(walk)];
    [fuel] bounds the depth of the call stack. *)
Fixpoint walk (fuel : nat) (questMap : JsMap string Quest) (qid : string)
  (st : WalkState) : option WalkState :=
  match fuel with
  | O => None
  | S fuel' =>
      if Set_has (visited st) qid then Some st
      else
        let st1 := {| path := path st; visited := Set_add (visited st) qid |} in
        match Map_get String.eqb questMap qid with
        | None => Some st1
        | Some quest =>
            match forEachM (prerequisites quest) (walk fuel' questMap) st1 with
            | Some st2 =>
                Some {| path := path st2 ++ [qid]; visited := visited st2 |}
            | None => None
            end
        end
  end.

Definition getAncestorPath (fuel : nat) (questMap : JsMap string Quest)
  (qid : string) : option (list string) :=
  match walk fuel questMap qid {| path := []; visited := [] |} with
  | Some st => Some (path st)
  | None => None
  end.

(** [a] is [k] or reaches [k] along prerequisites, through quests of the
    index only. *)
Inductive ancestor (questMap : JsMap string Quest) : string -> string -> Prop :=
| anc_self k : known questMap k -> ancestor questMap k k
| anc_step a k quest p :
    ancestor questMap a k ->
    Map_get String.eqb questMap k = Some quest ->
    In p (prerequisites quest) -> known questMap p ->
    ancestor questMap a p.

(** What a completed [walk], or a completed [forEach(walk)] over
    [starts], has done: [path] has grown by [fresh], the ids of the
    index visited during the call. *)
Definition walked (questMap : JsMap string Quest) (starts : list string)
  (st st' : WalkState) : Prop :=
  exists fresh,
    path st' = path st ++ fresh /\
    incl (visited st) (visited st') /\
    incl starts (visited st') /\
    NoDup fresh /\
    (forall k, In k fresh ->
       ~ In k (visited st) /\ In k (visited st') /\
       exists s, In s starts /\ ancestor questMap s k) /\
    (forall k, In k (visited st') -> ~ In k (visited st) ->
               known questMap k -> In k fresh) /\
    (forall k quest p, In k fresh -> Map_get String.eqb questMap k = Some quest ->
                       In p (prerequisites quest) -> In p (visited st')).

(** The ids of the index that are not visited yet. *)
Definition unvisited (questMap : JsMap string Quest) (st : WalkState) : list string :=
  filter (fun k => negb (Set_has (visited st) k)) (Map_keys questMap).

(* ================================================================== *)
(** ** The rendered graph ([setupGraph], [updateStats]) *)

Definition nodeRadius : Z := 8.

(** A [path.link] element: its [data-from], its [data-to] and the two
    positions handed to [createCurvedPath]. *)
Record LinkEl : Type := mkLink {
  link_from : string;
  link_to : string;
  link_ends : Position * Position
}.

(** A [g.node] element: its [data-id], the position of its [transform]
    and the radius of its circle. *)
Record NodeEl : Type := mkNode {
  node_id : string;
  node_pos : Position;
  node_r : Z
}.

(** The links appended to [linksG], in order. *)
Definition renderLinks (data : list Quest) (np : JsMap string Position)
  : list LinkEl :=
  flat_map
    (fun quest =>
       flat_map
         (fun prereqId =>
            match Map_get String.eqb np prereqId,
                  Map_get String.eqb np (id quest) with
            | Some from, Some to => [mkLink prereqId (id quest) (from, to)]
            | _, _ => []
            end)
         (prerequisites quest))
    data.

(** The nodes appended to [nodesG], in order. *)
Definition renderNodes (data : list Quest) (np : JsMap string Position)
  : list NodeEl :=
  flat_map
    (fun quest =>
       match Map_get String.eqb np (id quest) with
       | Some pos =>
           [mkNode (id quest) pos (if unlockMilestone quest then 10 else nodeRadius)]
       | None => []
       end)
    data.

(** [setupGraph]: the layout, then the links, then the nodes. *)
Definition setupGraph (fuel : nat) (data : list Quest)
  (nodePositions : JsMap string Position)
  : option (JsMap string Position * list LinkEl * list NodeEl) :=
  match calculateLayout fuel data nodePositions with
  | Some (np, _) => Some (np, renderLinks data np, renderNodes data np)
  | None => None
  end.

(** [updateStats]: the numbers written to [questCount] and
    [linkCount]. *)
Definition updateStats (data : list Quest) : nat * nat :=
  (length data,
   fold_left (fun linkCount q => (linkCount + length (prerequisites q))%nat) data 0%nat).

(** [highlightPath], on a node and on a link: the element is
    highlighted when it lies on the path. *)
Definition nodeHighlighted (pathIds : list string) (n : NodeEl) : bool :=
  includes pathIds (node_id n).

Definition linkHighlighted (pathIds : list string) (l : LinkEl) : bool :=
  includes pathIds (link_from l) && includes pathIds (link_to l).

(* ================================================================== *)
(** ** Label truncation ([truncate]) *)

(** A JavaScript string as its UTF-16 code units. *)
Definition jsString : Type := list N.

(** The one code unit of the ellipsis, U+2026. *)
Definition ellipsis : N := 8230.

(** [str.slice(0, e)]: a negative [e] counts from the end. *)
Definition slice0 (str : jsString) (e : Z) : jsString :=
  let len := Z.of_nat (length str) in
  let to := if e <? 0 then Z.max (len + e) 0 else Z.min e len in
  firstn (Z.to_nat to) str.

Definition truncate (str : jsString) (len : Z) : jsString :=
  if Z.of_nat (length str) >? len then slice0 str (len - 1) ++ [ellipsis]
  else str.

(* ================================================================== *)
(** ** The content of a group *)

(** The ids that [lv] maps to level [l], in the insertion order of
    [lv]. *)
Definition idsAt (lv : JsMap string num) (l : num) : list string :=
  map fst (filter (fun e => num_eqb (snd e) l) lv).

(** The groups have distinct keys, each group holds the ids of its
    level in insertion order and is not empty, and every level of [lv]
    has a group. *)
Definition groups_exact (lv : JsMap string num) (g : JsMap num (list string)) : Prop :=
  NoDup (Map_keys g) /\
  (forall l ids, In (l, ids) g -> ids = idsAt lv l /\ ids <> []) /\
  (forall k l, In (k, l) lv -> In l (Map_keys g)).

(* ================================================================== *)
(** ** Further datasets *)

Open Scope string_scope.

(** The positions of [diamond]. *)
Definition diamond_positions : JsMap string Position :=
  [("R", mkPos 0 (Num 0)); ("M1", mkPos (-80) (Num 80));
   ("M2", mkPos 80 (Num 80)); ("F", mkPos 0 (Num 160))].

(** [rooted_cycle] followed by a quest without prerequisites that is not
    a milestone. *)
Definition orphan_behind_cycle : list Quest :=
  [ mkQuest "R" true [];
    mkQuest "A" false ["R"; "B"];
    mkQuest "B" false ["A"];
    mkQuest "N" false [] ].

(** The state after the propagation from the one root [R]. *)
Definition root_only : LState :=
  {| levels := [("R", Num 0)]; processed := ["R"] |}.

(** The result of the layout of [diamond]. *)
Definition diamond_result : LayoutResult :=
  {| maxLevel := Num 2;
     levelGroups := [(Num 0, ["R"]); (Num 1, ["M1"; "M2"]); (Num 2, ["F"])] |}.

Close Scope string_scope.

(* ================================================================== *)
(** * Proofs *)

Open Scope string_scope.

(** The first scenario of the specification, evaluated. *)
Example diamond_layout :
  calculateLayout 5 diamond [] =
  Some ([("R", mkPos 0 (Num 0));
         ("M1", mkPos (-80) (Num 80));
         ("M2", mkPos 80 (Num 80));
         ("F", mkPos 0 (Num 160))],
        {| maxLevel := Num 2;
           levelGroups := [(Num 0, ["R"]); (Num 1, ["M1"; "M2"]); (Num 2, ["F"])] |}).
Proof. vm_compute. reflexivity. Qed.

Close Scope string_scope.

(* ================================================================== *)
(** ** Facts about numbers *)

Lemma num_le_refl (a : num) : num_le a a.
Proof. num_cases. Qed.

Lemma num_le_trans (a b c : num) : num_le a b -> num_le b c -> num_le a c.
Proof. num_cases. Qed.

Lemma num_le_antisym (a b : num) : num_le a b -> num_le b a -> a = b.
Proof. num_cases; intros; f_equal; lia. Qed.

Lemma num_geb_le (a b : num) : num_geb a b = true <-> num_le b a.
Proof. num_cases; try apply Z.leb_le; split; congruence. Qed.

Lemma num_geb_false (a b : num) : num_geb a b = false -> num_lt a b.
Proof. num_cases; intros H; apply Z.leb_gt in H; exact H. Qed.

Lemma num_lt_le (a b : num) : num_lt a b -> num_le a b.
Proof. num_cases. Qed.

Lemma num_eqb_eq (a b : num) : num_eqb a b = true <-> a = b.
Proof.
  destruct a, b; simpl; split; intros H; try congruence.
  - apply Z.eqb_eq in H. congruence.
  - inversion H. apply Z.eqb_refl.
Qed.

Lemma num_succ_le (a b : num) : num_le a b -> num_le (num_succ a) (num_succ b).
Proof. num_cases. Qed.

Lemma num_lt_succ (a b : num) : is_level a -> num_le a b -> num_lt a (num_succ b).
Proof. intros [z [-> Hz]]. destruct b; simpl; [tauto | lia]. Qed.

Lemma num_max_le_l (a b : num) : num_le a (num_max a b).
Proof. num_cases. Qed.

Lemma num_max_le_r (a b : num) : num_le b (num_max a b).
Proof. num_cases. Qed.

Lemma num_max_lub (a b c : num) : num_le a c -> num_le b c -> num_le (num_max a b) c.
Proof. num_cases. Qed.

Lemma Math_max_ge (l : list num) (a : num) : In a l -> num_le a (Math_max l).
Proof.
  induction l as [|b l IH]; simpl; [tauto|].
  intros [->|H].
  - apply num_max_le_l.
  - eapply num_le_trans; [apply IH, H | apply num_max_le_r].
Qed.

Lemma Math_max_lub (l : list num) (c : num) :
  (forall a, In a l -> num_le a c) -> num_le (Math_max l) c.
Proof.
  induction l as [|b l IH]; simpl; intros H; [exact I|].
  apply num_max_lub; [apply H; now left | apply IH; intros; apply H; now right].
Qed.

Lemma is_level_max (a b : num) : is_level a -> is_level b -> is_level (num_max a b).
Proof.
  intros [x [-> Hx]] [z [-> Hz]]. exists (Z.max x z). simpl. split; [reflexivity | lia].
Qed.

Lemma Math_max_is_level (l : list num) :
  l <> [] -> (forall a, In a l -> is_level a) -> is_level (Math_max l).
Proof.
  induction l as [|b l IH]; [congruence|]. intros _ H. simpl.
  destruct l as [|c l].
  - simpl. destruct (H b (or_introl eq_refl)) as [z [-> Hz]]. exists z. now split.
  - apply is_level_max; [apply H; now left|].
    apply IH; [discriminate | intros; apply H; now right].
Qed.

Lemma is_level_succ (a : num) : is_level a -> is_level (num_succ a) /\ num_le (Num 1) (num_succ a).
Proof.
  intros [z [-> Hz]]. simpl. split; [exists (z + 1); split; [reflexivity | lia] | lia].
Qed.

Lemma num_scale_inj (a b : num) (k : Z) : k <> 0 -> num_scale a k = num_scale b k -> a = b.
Proof.
  intros Hk. destruct a, b; simpl; try congruence.
  intros H. inversion H. f_equal. nia.
Qed.

(* ================================================================== *)
(** ** Facts about maps and sets *)

Section JsMapFacts.
Variables K V : Type.
Variable eqb : K -> K -> bool.
Hypothesis eqb_eq : forall a b, eqb a b = true <-> a = b.

Lemma eqb_same (a : K) : eqb a a = true.
Proof. now apply eqb_eq. Qed.

Lemma eqb_diff (a b : K) : a <> b -> eqb a b = false.
Proof.
  intros H. destruct (eqb a b) eqn:E; [|reflexivity].
  apply eqb_eq in E. contradiction.
Qed.

Lemma Map_get_set_same (m : JsMap K V) k v :
  Map_get eqb (Map_set eqb m k v) k = Some v.
Proof.
  induction m as [|[k' v'] m IH]; simpl.
  - now rewrite eqb_same.
  - destruct (eqb k' k) eqn:E; simpl; rewrite E; [reflexivity | exact IH].
Qed.

Lemma Map_get_set_other (m : JsMap K V) k v k' :
  k <> k' -> Map_get eqb (Map_set eqb m k v) k' = Map_get eqb m k'.
Proof.
  intros Hne. induction m as [|[k0 v0] m IH]; simpl.
  - now rewrite eqb_diff.
  - destruct (eqb k0 k) eqn:E; simpl.
    + apply eqb_eq in E. subst k0. now rewrite eqb_diff.
    + now rewrite IH.
Qed.

Lemma Map_get_Some_In (m : JsMap K V) k v :
  Map_get eqb m k = Some v -> In (k, v) m.
Proof.
  induction m as [|[k0 v0] m IH]; simpl; [discriminate|].
  destruct (eqb k0 k) eqn:E.
  - apply eqb_eq in E. subst. intros H. inversion H. now left.
  - intros H. right. now apply IH.
Qed.

Lemma Map_get_None_keys (m : JsMap K V) k :
  Map_get eqb m k = None <-> ~ In k (Map_keys m).
Proof.
  induction m as [|[k0 v0] m IH]; simpl; [tauto|].
  destruct (eqb k0 k) eqn:E.
  - apply eqb_eq in E. subst. split; [discriminate | tauto].
  - rewrite IH. split; [intros H [H1|H1]; [|tauto] | tauto].
    subst. rewrite eqb_same in E. discriminate.
Qed.

Lemma Map_get_Some_keys (m : JsMap K V) k :
  (exists v, Map_get eqb m k = Some v) <-> In k (Map_keys m).
Proof.
  destruct (Map_get eqb m k) eqn:E.
  - split; [intros _ | intros _; eauto].
    apply Map_get_Some_In in E. apply (in_map fst) in E. exact E.
  - split; [intros [v Hv]; discriminate|].
    intros H. apply Map_get_None_keys in E. contradiction.
Qed.

Lemma In_Map_get (m : JsMap K V) k v :
  NoDup (Map_keys m) -> In (k, v) m -> Map_get eqb m k = Some v.
Proof.
  induction m as [|[k0 v0] m IH]; simpl; [tauto|].
  intros Hnd [H|H].
  - inversion H. subst. now rewrite eqb_same.
  - inversion Hnd as [|? ? Hnin Hnd']. subst.
    destruct (eqb k0 k) eqn:E.
    + apply eqb_eq in E. subst. exfalso. apply Hnin.
      apply (in_map fst) in H. exact H.
    + now apply IH.
Qed.

Lemma Map_keys_set (m : JsMap K V) k v :
  Map_keys (Map_set eqb m k v) =
  if Map_has eqb m k then Map_keys m else Map_keys m ++ [k].
Proof.
  unfold Map_has. induction m as [|[k0 v0] m IH]; simpl; [reflexivity|].
  destruct (eqb k0 k) eqn:E; simpl; [reflexivity|].
  rewrite IH. destruct (Map_get eqb m k); reflexivity.
Qed.

Lemma Map_has_keys (m : JsMap K V) k :
  Map_has eqb m k = true <-> In k (Map_keys m).
Proof.
  unfold Map_has. rewrite <- Map_get_Some_keys.
  destruct (Map_get eqb m k); split; intros H; eauto; try discriminate.
  destruct H; discriminate.
Qed.

Lemma Map_keys_set_In (m : JsMap K V) k v k' :
  In k' (Map_keys (Map_set eqb m k v)) <-> k' = k \/ In k' (Map_keys m).
Proof.
  rewrite Map_keys_set. destruct (Map_has eqb m k) eqn:E.
  - apply Map_has_keys in E. split; [tauto | intros [->|H]; assumption].
  - rewrite in_app_iff. simpl. intuition congruence.
Qed.

Lemma Map_keys_set_NoDup (m : JsMap K V) k v :
  NoDup (Map_keys m) -> NoDup (Map_keys (Map_set eqb m k v)).
Proof.
  intros H. rewrite Map_keys_set. destruct (Map_has eqb m k) eqn:E; [exact H|].
  assert (Hn : ~ In k (Map_keys m)).
  { intros Hin. apply Map_has_keys in Hin. congruence. }
  apply NoDup_rev in H. rewrite <- (rev_involutive (Map_keys m ++ [k])).
  apply NoDup_rev. rewrite rev_app_distr. simpl. constructor; [|exact H].
  now rewrite <- in_rev.
Qed.
End JsMapFacts.

Arguments Map_get_set_same [K V eqb] eqb_eq m k v.
Arguments Map_get_set_other [K V eqb] eqb_eq m k v k' _.
Arguments Map_get_Some_In [K V eqb] eqb_eq m k [v] _.
Arguments Map_get_None_keys [K V eqb] eqb_eq m k.
Arguments Map_get_Some_keys [K V eqb] eqb_eq m k.
Arguments In_Map_get [K V eqb] eqb_eq m k v _ _.
Arguments Map_has_keys [K V eqb] eqb_eq m k.
Arguments Map_keys_set_In [K V eqb] eqb_eq m k v k'.
Arguments Map_keys_set_NoDup [K V eqb] eqb_eq m k v _.

Lemma Set_has_In (s : list string) (k : string) : Set_has s k = true <-> In k s.
Proof.
  induction s as [|k0 s IH]; simpl; [split; [discriminate | tauto]|].
  destruct (String.eqb k0 k) eqn:E.
  - apply String.eqb_eq in E. tauto.
  - apply String.eqb_neq in E. rewrite IH. tauto.
Qed.

Lemma includes_In (arr : list string) (k : string) : includes arr k = true <-> In k arr.
Proof.
  unfold includes. rewrite existsb_exists. split.
  - intros [p [Hp E]]. apply String.eqb_eq in E. now subst.
  - intros H. exists k. split; [exact H | apply String.eqb_refl].
Qed.

Lemma filter_defined_In (A : Type) (arr : list (option A)) (a : A) :
  In a (filter_defined arr) <-> In (Some a) arr.
Proof.
  induction arr as [|[b|] arr IH]; simpl; [tauto | |].
  - rewrite IH. split; intros [H|H]; auto; left; congruence.
  - rewrite IH. split; [tauto | intros [H|H]; [discriminate | exact H]].
Qed.

Lemma filter_defined_length (A : Type) (arr : list (option A)) :
  (length (filter_defined arr) <= length arr)%nat.
Proof. induction arr as [|[b|] arr IH]; simpl; lia. Qed.

Lemma filter_defined_full (A : Type) (arr : list (option A)) :
  length (filter_defined arr) = length arr <->
  (forall o, In o arr -> o <> None).
Proof.
  induction arr as [|[b|] arr IH]; simpl.
  - tauto.
  - split.
    + intros H o [<-|Ho]; [discriminate|]. apply IH; [lia | exact Ho].
    + intros H. f_equal. apply IH. intros o Ho. apply H. now right.
  - split.
    + intros H. pose proof (filter_defined_length arr). lia.
    + intros H. exfalso. apply (H None); [now left | reflexivity].
Qed.

(* ================================================================== *)
(** ** The level state: well-formedness and order *)

Lemma levels_le_refl (s : LState) : levels_le s s.
Proof. intros k v H. exists v. split; [exact H | apply num_le_refl]. Qed.

Lemma levels_le_trans (a b c : LState) : levels_le a b -> levels_le b c -> levels_le a c.
Proof.
  intros Hab Hbc k v H. destruct (Hab k v H) as [v1 [H1 L1]].
  destruct (Hbc k v1 H1) as [v2 [H2 L2]]. exists v2. split; [exact H2|].
  eapply num_le_trans; eassumption.
Qed.

Lemma levels_get_record_same (st : LState) (q : Quest) (l : num) :
  levels_get (record_level st q l) (id q) = Some l.
Proof. unfold levels_get, record_level. simpl. apply Map_get_set_same, String.eqb_eq. Qed.

Lemma levels_get_record_other (st : LState) (q : Quest) (l : num) (k : string) :
  id q <> k -> levels_get (record_level st q l) k = levels_get st k.
Proof.
  intros H. unfold levels_get, record_level. simpl.
  apply Map_get_set_other; [apply String.eqb_eq | exact H].
Qed.

Lemma wf_empty : wf emptyState.
Proof. reflexivity. Qed.

Lemma wf_record_level (st : LState) (q : Quest) (l : num) :
  wf st -> wf (record_level st q l).
Proof.
  unfold wf, record_level. simpl. intros H.
  rewrite Map_keys_set. unfold Set_add. rewrite H.
  destruct (Set_has (Map_keys (levels st)) (id q)) eqn:E1;
    destruct (Map_has String.eqb (levels st) (id q)) eqn:E2; try reflexivity.
  - apply Set_has_In in E1. apply (Map_has_keys String.eqb_eq) in E1. congruence.
  - apply (Map_has_keys String.eqb_eq) in E2. apply Set_has_In in E2. congruence.
Qed.

Lemma wf_processed_has (st : LState) (k : string) :
  wf st -> Set_has (processed st) k = true <-> has_level st k.
Proof.
  intros H. rewrite Set_has_In, H. unfold has_level, levels_get.
  symmetry. apply Map_get_Some_keys, String.eqb_eq.
Qed.

(** The write of [assignLevel], reached past its guard, never lowers a
    level. *)
Lemma record_level_le (st : LState) (q : Quest) (l : num) :
  wf st -> already_at_least st q l = false -> levels_le st (record_level st q l).
Proof.
  intros Hwf Hg k v Hk. destruct (string_dec (id q) k) as [<-|Hne].
  - exists l. split; [apply levels_get_record_same|].
    unfold already_at_least in Hg. rewrite Hk in Hg.
    assert (Hp : Set_has (processed st) (id q) = true).
    { apply wf_processed_has; [exact Hwf | now exists v]. }
    rewrite Hp in Hg. simpl in Hg. apply num_lt_le, num_geb_false, Hg.
  - exists v. rewrite levels_get_record_other by exact Hne.
    split; [exact Hk | apply num_le_refl].
Qed.

Lemma prereqLevels_In (st : LState) (q : Quest) (v : num) :
  In v (prereqLevels st q) <->
  exists p, In p (prerequisites q) /\ levels_get st p = Some v.
Proof.
  unfold prereqLevels. rewrite filter_defined_In, in_map_iff.
  split; intros [p [H1 H2]]; exists p; tauto.
Qed.

Lemma all_known_iff (st : LState) (q : Quest) :
  all_known st q <-> (forall p, In p (prerequisites q) -> has_level st p).
Proof.
  unfold all_known, prereqLevels.
  replace (length (prerequisites q))
    with (length (map (levels_get st) (prerequisites q))) by apply length_map.
  rewrite filter_defined_full. split.
  - intros H p Hp. unfold has_level.
    destruct (levels_get st p) eqn:E; [eauto|].
    exfalso. apply (H None); [|reflexivity].
    apply in_map_iff. exists p. split; assumption.
  - intros H o Ho. apply in_map_iff in Ho. destruct Ho as [p [<- Hp]].
    destruct (H p Hp) as [v Hv]. congruence.
Qed.

Lemma prereqLevels_nonempty (st : LState) (q : Quest) :
  prerequisites q <> [] -> all_known st q -> prereqLevels st q <> [].
Proof.
  unfold all_known. intros Hne Hall Hnil. rewrite Hnil in Hall.
  destruct (prerequisites q); [congruence | discriminate].
Qed.

Lemma prereqLevels_le (s s' : LState) (q : Quest) :
  levels_le s s' -> prereqLevels s q <> [] ->
  prereqLevels s' q <> [] /\
  num_le (Math_max (prereqLevels s q)) (Math_max (prereqLevels s' q)).
Proof.
  intros Hle Hne. split.
  - destruct (prereqLevels s q) as [|v r] eqn:E; [congruence|].
    assert (Hv : In v (prereqLevels s q)) by (rewrite E; now left).
    apply prereqLevels_In in Hv. destruct Hv as [p [Hp Hv]].
    destruct (Hle p v Hv) as [v' [Hv' _]].
    intros Hnil. assert (Hin : In v' (prereqLevels s' q)).
    { apply prereqLevels_In. eauto. }
    rewrite Hnil in Hin. exact Hin.
  - apply Math_max_lub. intros a Ha. apply prereqLevels_In in Ha.
    destruct Ha as [p [Hp Ha]]. destruct (Hle p a Ha) as [a' [Ha' L]].
    eapply num_le_trans; [exact L|]. apply Math_max_ge.
    apply prereqLevels_In. eauto.
Qed.

(* ================================================================== *)
(** ** Invariants of the loops *)

Lemma forEachM_invariant (A S : Type) (P : S -> Prop) (Q : A -> Prop)
  (f : A -> S -> option S) :
  (forall a s s', Q a -> P s -> f a s = Some s' -> P s') ->
  forall arr s s', Forall Q arr -> P s -> forEachM arr f s = Some s' -> P s'.
Proof.
  intros Hstep arr. induction arr as [|a arr IH]; simpl; intros s s' HQ HP H.
  - inversion H. now subst.
  - inversion HQ as [|? ? Ha Harr]. subst.
    destruct (f a s) as [s1|] eqn:E; [|discriminate].
    eapply IH; [exact Harr | | exact H]. eapply Hstep; eassumption.
Qed.

Lemma childrenOf_In (data : list Quest) (quest c : Quest) :
  In c (childrenOf data quest) <-> In c data /\ In (id quest) (prerequisites c).
Proof. unfold childrenOf. rewrite filter_In, includes_In. tauto. Qed.

Section Invariant.
Variable data : list Quest.
(** What is known of the arguments of a call. *)
Variable Pre : LState -> Quest -> num -> Prop.
Variable Inv : LState -> Prop.

Hypothesis Pre_child :
  forall st c, Inv st -> In c data -> prerequisites c <> [] -> all_known st c ->
               Pre st c (num_succ (Math_max (prereqLevels st c))).
Hypothesis Inv_record :
  forall st q l, Inv st -> Pre st q l -> already_at_least st q l = false ->
                 Inv (record_level st q l).

Lemma assignLevel_invariant :
  forall fuel q l st st',
    Inv st -> Pre st q l -> assignLevel fuel data q l st = Some st' -> Inv st'.
Proof.
  induction fuel as [|fuel IH]; simpl; intros q l st st' HI HP H; [discriminate|].
  destruct (already_at_least st q l) eqn:G.
  - inversion H. now subst.
  - revert H. apply forEachM_invariant with
      (Q := fun c => In c data /\ prerequisites c <> []).
    + intros c s s' [Hc Hne] Hs Hstep.
      destruct (Nat.eqb _ _) eqn:E in Hstep.
      * apply Nat.eqb_eq in E. eapply IH; [exact Hs | | exact Hstep].
        now apply Pre_child.
      * inversion Hstep. now subst.
    + apply Forall_forall. intros c Hc. apply childrenOf_In in Hc.
      destruct Hc as [Hc Hin]. split; [exact Hc|].
      intros Hnil. rewrite Hnil in Hin. exact Hin.
    + now apply Inv_record.
Qed.
End Invariant.

Lemma roots_In (data : list Quest) (q : Quest) :
  In q (roots data) <-> In q data /\ is_root q.
Proof.
  unfold roots, is_root. rewrite filter_In, andb_true_iff, Nat.eqb_eq, length_zero_iff_nil.
  tauto.
Qed.

Lemma call_ok_child (data : list Quest) (seed : Quest -> Prop) (st : LState) (c : Quest) :
  In c data -> prerequisites c <> [] -> all_known st c ->
  call_ok data seed st c (num_succ (Math_max (prereqLevels st c))).
Proof.
  intros Hc Hne Hall. apply call_prereq; [exact Hc | | reflexivity].
  now apply prereqLevels_nonempty.
Qed.

Section Phases.
Variable data : list Quest.
Variable seed : Quest -> Prop.
Variable Inv : LState -> Prop.

Hypothesis Inv_call :
  forall fuel q l st st',
    Inv st -> call_ok data seed st q l ->
    assignLevel fuel data q l st = Some st' -> Inv st'.

Lemma processRoots_invariant (fuel : nat) (st st' : LState) :
  (forall q, is_root q -> seed q) ->
  Inv st -> processRoots fuel data st = Some st' -> Inv st'.
Proof.
  intros Hseed HI. unfold processRoots.
  apply forEachM_invariant with (Q := fun q => In q data /\ is_root q).
  - intros q s s' [Hq Hr] Hs H. eapply Inv_call; [exact Hs | | exact H].
    apply call_seed; [exact Hq | apply Hr | now apply Hseed | reflexivity].
  - apply Forall_forall. intros q. apply roots_In.
  - exact HI.
Qed.

Lemma sweepStep_invariant (fuel : nat) (q : Quest) (st st' : LState) :
  (forall q, prerequisites q = [] -> seed q) ->
  In q data -> Inv st -> sweepStep fuel data q st = Some st' -> Inv st'.
Proof.
  intros Hseed Hq HI. unfold sweepStep.
  destruct (negb _); [|intros H; inversion H; now subst].
  destruct (Nat.ltb_spec 0 (length (prereqLevels st q))) as [Hpos|Hzero]; simpl.
  - intros H. eapply Inv_call; [exact HI | | exact H].
    apply call_prereq; [exact Hq | | reflexivity].
    intros Hnil. rewrite Hnil in Hpos. simpl in Hpos. lia.
  - destruct (Nat.eqb_spec (length (prerequisites q)) 0) as [Hnone|Hsome].
    + intros H. eapply Inv_call; [exact HI | | exact H].
      apply length_zero_iff_nil in Hnone.
      apply call_seed; [exact Hq | exact Hnone | now apply Hseed | reflexivity].
    + intros H. inversion H. now subst.
Qed.

Lemma sweepPass_invariant (fuel : nat) (st st' : LState) :
  (forall q, prerequisites q = [] -> seed q) ->
  Inv st -> sweepPass fuel data st = Some st' -> Inv st'.
Proof.
  intros Hseed HI. unfold sweepPass.
  apply forEachM_invariant with (Q := fun q => In q data).
  - intros q s s' Hq Hs H. eapply sweepStep_invariant; eassumption.
  - apply Forall_forall. tauto.
  - exact HI.
Qed.

Lemma fallbackSweep_invariant (fuel : nat) (maxAttempts : nat) :
  (forall q, prerequisites q = [] -> seed q) ->
  forall st st', Inv st -> fallbackSweep fuel data maxAttempts st = Some st' -> Inv st'.
Proof.
  intros Hseed. induction maxAttempts as [|m IH]; simpl; intros st st' HI H.
  - inversion H. now subst.
  - destruct (Nat.ltb _ _); [|inversion H; now subst].
    destruct (sweepPass fuel data st) as [s1|] eqn:E; [|discriminate].
    eapply IH; [|exact H]. eapply sweepPass_invariant; eassumption.
Qed.

Lemma computeLevels_invariant (fuel : nat) (st : LState) :
  (forall q, prerequisites q = [] -> seed q) ->
  Inv emptyState -> computeLevels fuel data = Some st -> Inv st.
Proof.
  intros Hseed HI. unfold computeLevels.
  destruct (processRoots fuel data emptyState) as [s1|] eqn:E; [|discriminate].
  apply fallbackSweep_invariant; [exact Hseed|].
  eapply processRoots_invariant; [|exact HI | exact E].
  intros q [_ Hq]. now apply Hseed.
Qed.
End Phases.

(* ================================================================== *)
(** ** Basic invariant: well-formed state, levels are non-negative
       integers, keys are quest ids *)

Lemma call_ok_level (data : list Quest) (seed : Quest -> Prop) (st : LState)
  (q : Quest) (l : num) :
  base_inv data st -> call_ok data seed st q l ->
  In q data /\ is_level l /\ (prerequisites q <> [] -> num_le (Num 1) l).
Proof.
  intros [_ [Hlev _]] [Hq Hnil _ ->|Hq Hne ->].
  - split; [exact Hq|]. split; [exists 0; split; [reflexivity | lia] | congruence].
  - split; [exact Hq|].
    assert (Hm : is_level (Math_max (prereqLevels st q))).
    { apply Math_max_is_level; [exact Hne|]. intros a Ha.
      apply prereqLevels_In in Ha. destruct Ha as [p [_ Ha]]. eapply Hlev, Ha. }
    apply is_level_succ in Hm. tauto.
Qed.

Lemma base_inv_record (data : list Quest) (seed : Quest -> Prop) (st : LState)
  (q : Quest) (l : num) :
  base_inv data st -> call_ok data seed st q l -> base_inv data (record_level st q l).
Proof.
  intros HB HC. destruct (call_ok_level HB HC) as [Hq [Hl _]].
  destruct HB as [Hwf [Hlev [Hkeys Hnd]]]. split; [now apply wf_record_level|].
  split; [|split].
  - intros k v. destruct (string_dec (id q) k) as [<-|Hne].
    + rewrite levels_get_record_same. intros H. inversion H. now subst.
    + rewrite levels_get_record_other by exact Hne. apply Hlev.
  - intros k [v Hv]. destruct (string_dec (id q) k) as [<-|Hne].
    + now apply in_map.
    + rewrite levels_get_record_other in Hv by exact Hne. apply Hkeys. now exists v.
  - simpl. apply Map_keys_set_NoDup; [apply String.eqb_eq | exact Hnd].
Qed.

Lemma base_inv_empty (data : list Quest) : base_inv data emptyState.
Proof.
  split; [apply wf_empty|]. split; [|split].
  - intros k v H. discriminate.
  - intros k [v H]. discriminate.
  - constructor.
Qed.

Lemma assignLevel_base (data : list Quest) (seed : Quest -> Prop) fuel q l st st' :
  base_inv data st -> call_ok data seed st q l ->
  assignLevel fuel data q l st = Some st' -> base_inv data st'.
Proof.
  apply assignLevel_invariant with (Pre := call_ok data seed) (Inv := base_inv data).
  - intros s c _. apply call_ok_child.
  - intros s c lv HB HC _. eapply base_inv_record; eassumption.
Qed.

Lemma computeLevels_base (data : list Quest) fuel st :
  computeLevels fuel data = Some st -> base_inv data st.
Proof.
  apply computeLevels_invariant with (seed := fun _ => True) (Inv := base_inv data).
  - intros f q l s s'. apply assignLevel_base.
  - trivial.
  - apply base_inv_empty.
Qed.

(** *** Levels never decrease *)

Lemma assignLevel_mono (data : list Quest) fuel q l st st' :
  wf st -> assignLevel fuel data q l st = Some st' -> wf st' /\ levels_le st st'.
Proof.
  intros Hwf H.
  apply assignLevel_invariant
    with (Pre := fun _ _ _ => True) (Inv := fun s => wf s /\ levels_le st s)
         (data := data) (fuel := fuel) (q := q) (l := l) (st := st).
  - trivial.
  - intros s c lv [Hw Hle] _ G. split; [now apply wf_record_level|].
    eapply levels_le_trans; [exact Hle | now apply record_level_le].
  - split; [exact Hwf | apply levels_le_refl].
  - trivial.
  - exact H.
Qed.

Lemma assignLevel_has_level (data : list Quest) fuel q l st st' :
  wf st -> assignLevel fuel data q l st = Some st' -> has_level st' (id q).
Proof.
  intros Hwf H. destruct fuel as [|fuel]; simpl in H; [discriminate|].
  destruct (already_at_least st q l) eqn:G.
  - inversion H. subst. unfold already_at_least in G.
    apply andb_true_iff in G. destruct G as [_ G].
    destruct (levels_get st' (id q)) eqn:E; [now exists n | discriminate].
  - assert (Hm : wf st' /\ levels_le (record_level st q l) st').
    { revert H. apply forEachM_invariant
        with (P := fun s => wf s /\ levels_le (record_level st q l) s)
             (Q := fun _ : Quest => True).
      - intros c s s' _ [Hw Hle] Hstep.
        destruct (Nat.eqb _ _) in Hstep.
        + apply assignLevel_mono in Hstep; [|exact Hw].
          split; [tauto|]. eapply levels_le_trans; [exact Hle | tauto].
        + inversion Hstep. subst. now split.
      - apply Forall_forall. trivial.
      - split; [now apply wf_record_level | apply levels_le_refl]. }
    destruct Hm as [_ Hle].
    destruct (Hle (id q) l (levels_get_record_same st q l)) as [v [Hv _]].
    now exists v.
Qed.

(* ================================================================== *)
(** ** Upper bound: a stored level is justified by the prerequisites *)

Lemma id_inj (data : list Quest) (a b : Quest) :
  NoDup (map id data) -> In a data -> In b data -> id a = id b -> a = b.
Proof.
  induction data as [|c data IH]; simpl; [tauto|].
  intros Hnd Ha Hb E. inversion Hnd as [|? ? Hnin Hnd']. subst.
  destruct Ha as [->|Ha], Hb as [->|Hb]; try reflexivity.
  - exfalso. apply Hnin. rewrite E. now apply in_map.
  - exfalso. apply Hnin. rewrite <- E. now apply in_map.
  - now apply IH.
Qed.

Lemma class_inv_record (data : list Quest) (seed : Quest -> Prop) st q l :
  NoDup (map id data) ->
  base_inv data st /\ class_inv data seed st ->
  call_ok data seed st q l -> already_at_least st q l = false ->
  base_inv data (record_level st q l) /\ class_inv data seed (record_level st q l).
Proof.
  intros Hnd [HB HC] Hcall G. split; [eapply base_inv_record; eassumption|].
  assert (Hle : levels_le st (record_level st q l)).
  { apply record_level_le; [apply HB | exact G]. }
  destruct (call_ok_level HB Hcall) as [Hq [_ H1]].
  intros c v Hc Hv. destruct (string_dec (id q) (id c)) as [E|Hne].
  - assert (c = q) by (symmetry; now apply (id_inj data)). subst c.
    rewrite levels_get_record_same in Hv. inversion Hv. subst v.
    destruct Hcall as [_ Hnil Hs ->|_ Hpl ->].
    + left. tauto.
    + right. destruct (prereqLevels_le q Hle Hpl) as [Hne' Hmax].
      split; [exact Hne'|]. split.
      * apply H1. intros Hnil. unfold prereqLevels in Hpl. rewrite Hnil in Hpl.
        now apply Hpl.
      * now apply num_succ_le.
  - rewrite levels_get_record_other in Hv by exact Hne.
    destruct (HC c v Hc Hv) as [Hl|[Hpl [Hone Hub]]]; [now left | right].
    destruct (prereqLevels_le c Hle Hpl) as [Hne' Hmax].
    split; [exact Hne'|]. split; [exact Hone|].
    eapply num_le_trans; [exact Hub | now apply num_succ_le].
Qed.

Lemma class_inv_empty (data : list Quest) (seed : Quest -> Prop) :
  class_inv data seed emptyState.
Proof. intros q v _ H. discriminate. Qed.

Lemma assignLevel_class (data : list Quest) (seed : Quest -> Prop) fuel q l st st' :
  NoDup (map id data) ->
  base_inv data st /\ class_inv data seed st -> call_ok data seed st q l ->
  assignLevel fuel data q l st = Some st' ->
  base_inv data st' /\ class_inv data seed st'.
Proof.
  intros Hnd.
  apply assignLevel_invariant
    with (Pre := call_ok data seed)
         (Inv := fun s => base_inv data s /\ class_inv data seed s).
  - intros s c _. apply call_ok_child.
  - intros s c lv. now apply class_inv_record.
Qed.

Lemma computeLevels_class (data : list Quest) fuel st :
  NoDup (map id data) -> computeLevels fuel data = Some st ->
  base_inv data st /\ class_inv data (fun _ => True) st.
Proof.
  intros Hnd.
  apply computeLevels_invariant
    with (seed := fun _ : Quest => True)
         (Inv := fun s => base_inv data s /\ class_inv data (fun _ => True) s).
  - intros f q l s s'. now apply assignLevel_class.
  - trivial.
  - split; [apply base_inv_empty | apply class_inv_empty].
Qed.

Lemma processRoots_class (data : list Quest) fuel st :
  NoDup (map id data) -> processRoots fuel data emptyState = Some st ->
  base_inv data st /\ class_inv data is_root st.
Proof.
  intros Hnd.
  apply processRoots_invariant
    with (seed := is_root)
         (Inv := fun s => base_inv data s /\ class_inv data is_root s).
  - intros f q l s s'. now apply assignLevel_class.
  - trivial.
  - split; [apply base_inv_empty | apply class_inv_empty].
Qed.

(* ================================================================== *)
(** ** Lower bound: a quest whose prerequisites are all known lies above
       them *)

Lemma prereqLevels_record_other (st : LState) (q c : Quest) (l : num) :
  ~ In (id q) (prerequisites c) ->
  prereqLevels (record_level st q l) c = prereqLevels st c.
Proof.
  intros Hnin. unfold prereqLevels. f_equal. apply map_ext_in.
  intros p Hp. apply levels_get_record_other. intros E. subst. contradiction.
Qed.

Lemma resolved_record_other (st : LState) (q c : Quest) (l : num) :
  wf st -> already_at_least st q l = false -> ~ In (id q) (prerequisites c) ->
  resolved st c -> resolved (record_level st q l) c.
Proof.
  intros Hwf G Hnin Hok Hne Hall. unfold all_known in Hall.
  rewrite prereqLevels_record_other in * by exact Hnin.
  destruct (Hok Hne Hall) as [v [Hv Hle]].
  destruct (@record_level_le st q l Hwf G _ _ Hv) as [v' [Hv' Hle']].
  exists v'. split; [exact Hv' | eapply num_le_trans; eassumption].
Qed.

Lemma resolved_record_self (st : LState) (c : Quest) :
  ~ In (id c) (prerequisites c) ->
  resolved (record_level st c (num_succ (Math_max (prereqLevels st c)))) c.
Proof.
  intros Hnin _ _. rewrite prereqLevels_record_other by exact Hnin.
  eexists. split; [apply levels_get_record_same | apply num_le_refl].
Qed.

Lemma resolved_guard (st : LState) (c : Quest) :
  already_at_least st c (num_succ (Math_max (prereqLevels st c))) = true ->
  resolved st c.
Proof.
  unfold already_at_least. intros G _ _. apply andb_true_iff in G.
  destruct G as [_ G]. destruct (levels_get st (id c)) as [v|]; [|discriminate].
  exists v. split; [reflexivity | now apply num_geb_le].
Qed.

Lemma assignLevel_resolved (data : list Quest) :
  forall fuel q l st st',
    wf st -> assignLevel fuel data q l st = Some st' ->
    forall c, In c data ->
      (if already_at_least st q l then resolved st c
       else resolved (record_level st q l) c \/ In (id q) (prerequisites c)) ->
      resolved st' c.
Proof.
  induction fuel as [|fuel IH]; simpl; intros q l st st' Hwf H; [discriminate|].
  destruct (already_at_least st q l) eqn:G.
  { inversion H. subst. tauto. }
  set (body := fun (child : Quest) (s : LState) =>
                 if Nat.eqb (length (prereqLevels s child)) (length (prerequisites child))
                 then assignLevel fuel data child
                        (num_succ (Math_max (prereqLevels s child))) s
                 else Some s) in *.
  assert (Hbody : forall c1 s s1, In c1 data -> wf s -> body c1 s = Some s1 ->
            wf s1 /\ resolved s1 c1 /\
            (forall c, In c data -> resolved s c -> resolved s1 c)).
  { intros c1 s s1 Hd1 Hw Hb. unfold body in Hb.
    destruct (Nat.eqb_spec (length (prereqLevels s c1)) (length (prerequisites c1)))
      as [Hall|Hnall].
    - split; [eapply assignLevel_mono; eassumption|]. split.
      + apply (IH _ _ _ _ Hw Hb c1 Hd1).
        destruct (already_at_least s c1 _) eqn:G1; [now apply resolved_guard|].
        destruct (in_dec string_dec (id c1) (prerequisites c1)) as [Hin|Hnin];
          [now right | left]. now apply resolved_record_self.
      + intros c Hc Hres. apply (IH _ _ _ _ Hw Hb c Hc).
        destruct (already_at_least s c1 _) eqn:G1; [exact Hres|].
        destruct (in_dec string_dec (id c1) (prerequisites c)) as [Hin|Hnin];
          [now right | left]. now apply resolved_record_other.
    - inversion Hb. subst. split; [exact Hw|]. split; [|tauto].
      intros _ Hk. contradiction. }
  assert (Hloop : forall cs s s', incl cs data -> wf s ->
            forEachM cs body s = Some s' ->
            forall c, In c data -> resolved s c \/ In c cs -> resolved s' c).
  { induction cs as [|c1 cs IHcs]; simpl; intros s s' Hcs Hw Hf c Hc Hor.
    - inversion Hf. subst. tauto.
    - destruct (body c1 s) as [s1|] eqn:Hb; [|discriminate].
      assert (Hd1 : In c1 data) by (apply Hcs; now left).
      destruct (Hbody c1 s s1 Hd1 Hw Hb) as [Hw1 [Hc1 Hpres]].
      apply (IHcs s1 s'); [intros a Ha; apply Hcs; now right | exact Hw1 | exact Hf
                          | exact Hc |].
      destruct Hor as [Hres|[->|Hin]]; [left; now apply Hpres | now left | now right]. }
  intros c Hc Hor.
  apply (Hloop (childrenOf data q) (record_level st q l) st'); try assumption.
  - intros a Ha. now apply childrenOf_In in Ha.
  - now apply wf_record_level.
  - destruct Hor as [Hres|Hin]; [now left | right].
    apply childrenOf_In. now split.
Qed.

Lemma assignLevel_all_resolved (data : list Quest) fuel q l st st' :
  wf st /\ all_resolved data st -> assignLevel fuel data q l st = Some st' ->
  wf st' /\ all_resolved data st'.
Proof.
  intros [Hwf Hall] H. split; [eapply assignLevel_mono; eassumption|].
  intros c Hc. apply (@assignLevel_resolved data fuel q l st st' Hwf H c Hc).
  destruct (already_at_least st q l) eqn:G; [now apply Hall|].
  destruct (in_dec string_dec (id q) (prerequisites c)) as [Hin|Hnin];
    [now right | left]. apply resolved_record_other; auto.
Qed.

Lemma all_resolved_empty (data : list Quest) : all_resolved data emptyState.
Proof.
  intros c _ Hne Hall. destruct (prerequisites c) as [|p r] eqn:E; [congruence|].
  assert (Hp : has_level emptyState p).
  { apply (proj1 (all_known_iff emptyState c) Hall). rewrite E. now left. }
  destruct Hp as [v Hv]. discriminate.
Qed.

Lemma computeLevels_all_resolved (data : list Quest) fuel st :
  computeLevels fuel data = Some st -> all_resolved data st.
Proof.
  intros H. cut (wf st /\ all_resolved data st); [tauto|]. revert H.
  apply computeLevels_invariant
    with (seed := fun _ : Quest => True)
         (Inv := fun s => wf s /\ all_resolved data s).
  - intros f q l s s' HI _. now apply assignLevel_all_resolved.
  - trivial.
  - split; [apply wf_empty | apply all_resolved_empty].
Qed.

(* ================================================================== *)
(** ** The fallback sweep reaches every quest without prerequisites *)

Lemma sweepStep_mono (data : list Quest) fuel q st st' :
  wf st -> sweepStep fuel data q st = Some st' -> wf st' /\ levels_le st st'.
Proof.
  intros Hwf. unfold sweepStep.
  destruct (negb _); [|intros H; inversion H; subst; split;
                       [exact Hwf | apply levels_le_refl]].
  destruct (_ || _); [now apply assignLevel_mono|].
  intros H; inversion H; subst; split; [exact Hwf | apply levels_le_refl].
Qed.

Lemma sweepStep_no_prereq (data : list Quest) fuel q st st' :
  wf st -> sweepStep fuel data q st = Some st' -> prerequisites q = [] ->
  has_level st' (id q).
Proof.
  intros Hwf H Hnil. unfold sweepStep in H.
  destruct (Set_has (processed st) (id q)) eqn:E; simpl in H.
  - inversion H. subst. now apply wf_processed_has.
  - unfold prereqLevels in H. rewrite Hnil in H. simpl in H.
    eapply assignLevel_has_level; eassumption.
Qed.

Lemma has_level_le (s s' : LState) (k : string) :
  levels_le s s' -> has_level s k -> has_level s' k.
Proof. intros Hle [v Hv]. destruct (Hle k v Hv) as [v' [Hv' _]]. now exists v'. Qed.

Lemma sweep_list_no_prereq (data : list Quest) fuel :
  forall arr st st',
    wf st -> forEachM arr (sweepStep fuel data) st = Some st' ->
    wf st' /\ levels_le st st' /\
    (forall q, In q arr -> prerequisites q = [] -> has_level st' (id q)).
Proof.
  induction arr as [|a arr IH]; simpl; intros st st' Hwf H.
  - inversion H. subst. split; [exact Hwf|]. split; [apply levels_le_refl | tauto].
  - destruct (sweepStep fuel data a st) as [s1|] eqn:E; [|discriminate].
    destruct (sweepStep_mono _ _ _ Hwf E) as [Hw1 Hle1].
    destruct (IH s1 st' Hw1 H) as [Hw' [Hle' Hall]].
    split; [exact Hw'|]. split; [eapply levels_le_trans; eassumption|].
    intros q [->|Hq] Hnil; [|now apply Hall].
    eapply has_level_le; [exact Hle'|].
    eapply sweepStep_no_prereq; [exact Hwf | exact E | exact Hnil].
Qed.

Lemma fallbackSweep_mono (data : list Quest) fuel maxAttempts :
  forall st st', wf st -> fallbackSweep fuel data maxAttempts st = Some st' ->
                 wf st' /\ levels_le st st'.
Proof.
  induction maxAttempts as [|m IH]; simpl; intros st st' Hwf H.
  - inversion H. subst. split; [exact Hwf | apply levels_le_refl].
  - destruct (Nat.ltb _ _).
    + destruct (sweepPass fuel data st) as [s1|] eqn:E; [|discriminate].
      destruct (sweep_list_no_prereq _ _ _ Hwf E) as [Hw1 [Hle1 _]].
      destruct (IH s1 st' Hw1 H) as [Hw' Hle']. split; [exact Hw'|].
      eapply levels_le_trans; eassumption.
    + inversion H. subst. split; [exact Hwf | apply levels_le_refl].
Qed.

Lemma processRoots_mono (data : list Quest) fuel st st' :
  wf st -> processRoots fuel data st = Some st' -> wf st' /\ levels_le st st'.
Proof.
  intros Hwf. unfold processRoots.
  apply forEachM_invariant
    with (P := fun s => wf s /\ levels_le st s) (Q := fun _ : Quest => True).
  - intros a s s' _ [Hw Hle] H. apply assignLevel_mono in H; [|exact Hw].
    split; [tauto|]. eapply levels_le_trans; [exact Hle | tauto].
  - apply Forall_forall. trivial.
  - split; [exact Hwf | apply levels_le_refl].
Qed.

(** When the loop does not run, every quest is already processed. *)
Lemma all_processed (data : list Quest) (st : LState) (q : Quest) :
  base_inv data st -> (length data <= length (processed st))%nat ->
  In q data -> has_level st (id q).
Proof.
  intros [Hwf [_ [Hkeys Hnd]]] Hlen Hq.
  apply wf_processed_has; [exact Hwf|]. apply Set_has_In.
  assert (Hincl : incl (processed st) (map id data)).
  { intros k Hk. apply Hkeys. apply wf_processed_has; [exact Hwf|].
    now apply Set_has_In. }
  apply (NoDup_length_incl (l := processed st) (l' := map id data)).
  - rewrite Hwf. exact Hnd.
  - rewrite length_map. exact Hlen.
  - exact Hincl.
  - now apply in_map.
Qed.

Lemma fallbackSweep_no_prereq (data : list Quest) fuel m st st' q :
  base_inv data st -> fallbackSweep fuel data (S m) st = Some st' ->
  In q data -> prerequisites q = [] -> has_level st' (id q).
Proof.
  intros HB H Hq Hnil. simpl in H.
  destruct (Nat.ltb_spec (length (processed st)) (length data)) as [Hlt|Hge].
  - destruct (sweepPass fuel data st) as [s1|] eqn:E; [|discriminate].
    destruct (sweep_list_no_prereq _ _ _ (proj1 HB) E) as [Hw1 [_ Hall]].
    destruct (@fallbackSweep_mono data fuel m s1 st' Hw1 H) as [_ Hle].
    eapply has_level_le; [exact Hle | now apply Hall].
  - inversion H. subst. eapply all_processed; eassumption.
Qed.

Lemma roots_list_leveled (data : list Quest) fuel :
  forall arr st st',
    wf st ->
    forEachM arr (fun root s => assignLevel fuel data root (Num 0) s) st = Some st' ->
    wf st' /\ levels_le st st' /\ (forall q, In q arr -> has_level st' (id q)).
Proof.
  induction arr as [|a arr IH]; simpl; intros st st' Hwf H.
  - inversion H. subst. split; [exact Hwf|]. split; [apply levels_le_refl | tauto].
  - destruct (assignLevel fuel data a (Num 0) st) as [s1|] eqn:E; [|discriminate].
    destruct (assignLevel_mono _ _ _ _ Hwf E) as [Hw1 Hle1].
    destruct (IH s1 st' Hw1 H) as [Hw' [Hle' Hall]].
    split; [exact Hw'|]. split; [eapply levels_le_trans; eassumption|].
    intros q [->|Hq]; [|now apply Hall].
    eapply has_level_le; [exact Hle'|].
    eapply assignLevel_has_level; [exact Hwf | exact E].
Qed.

Lemma class_inv_weaken (data : list Quest) (seed seed' : Quest -> Prop) st :
  (forall q, seed q -> seed' q) -> class_inv data seed st -> class_inv data seed' st.
Proof.
  intros Hs HC q v Hq Hv. destruct (HC q v Hq Hv) as [[H1 [H2 H3]]|H]; [left | now right].
  split; [exact H1|]. split; [now apply Hs | exact H3].
Qed.

Lemma prereqLevels_nil (st : LState) (q : Quest) :
  prerequisites q = [] -> prereqLevels st q = [].
Proof. intros H. unfold prereqLevels. now rewrite H. Qed.

(* ================================================================== *)
(** ** Level non-regression *)

(** C9. Over any stretch of the layout computation (a write of
    [assignLevel], a completed call, the propagation from the roots, the
    fallback sweep, or a sequence of them) that starts in a state where
    [processed] holds the keys of [levels], every quest that has a level
    keeps one, and the new level is not smaller. *)
Theorem level_never_decreases (data : list Quest) (st st' : LState) :
  wf st -> layout_run data st st' -> wf st' /\ levels_le st st'.
Proof.
  intros Hwf Hrun. induction Hrun as
    [st q l G | fuel q l st st' H | fuel st st' H | fuel m st st' H
    | s1 s2 s3 H12 IH12 H23 IH23].
  - split; [now apply wf_record_level | now apply record_level_le].
  - eapply assignLevel_mono; eassumption.
  - eapply processRoots_mono; eassumption.
  - eapply fallbackSweep_mono; eassumption.
  - destruct (IH12 Hwf) as [Hw2 Hle12]. destruct (IH23 Hw2) as [Hw3 Hle23].
    split; [exact Hw3 | eapply levels_le_trans; eassumption].
Qed.

Open Scope string_scope.

Lemma level_never_decreases_witness :
  wf late_prereq_after /\ levels_le late_prereq_before late_prereq_after.
Proof.
  apply (@level_never_decreases late_prereq late_prereq_before late_prereq_after).
  - reflexivity.
  - apply run_call with (fuel := 3%nat) (q := mkQuest "P" false ["R"; "W"]) (l := Num 1).
    vm_compute. reflexivity.
Defined.

Close Scope string_scope.

(* ================================================================== *)
(** ** Topological soundness *)

(** C4, as amended. When the ids are unique and the layout completes, a
    quest with at least one prerequisite, all of whose prerequisites have
    a level, has level exactly one above the maximum of their levels, and
    so lies strictly below each of them. *)
Theorem level_above_prerequisites (fuel : nat) (data : list Quest) (st : LState)
  (q : Quest) :
  NoDup (map id data) ->
  computeLevels fuel data = Some st ->
  In q data -> prerequisites q <> [] -> all_known st q ->
  exists v, levels_get st (id q) = Some v /\
            v = num_succ (Math_max (prereqLevels st q)) /\
            forall p lp, In p (prerequisites q) -> levels_get st p = Some lp ->
                         num_lt lp v.
Proof.
  intros Hnd Hrun Hq Hne Hall.
  destruct (@computeLevels_all_resolved data fuel st Hrun q Hq Hne Hall)
    as [v [Hv Hge]].
  destruct (@computeLevels_class data fuel st Hnd Hrun) as [HB HC].
  exists v. split; [exact Hv|].
  assert (E : v = num_succ (Math_max (prereqLevels st q))).
  { destruct (HC q v Hq Hv) as [[Hnil _]|[_ [_ Hub]]]; [contradiction|].
    now apply num_le_antisym. }
  split; [exact E|]. intros p lp Hp Hlp. rewrite E.
  apply num_lt_succ.
  - destruct HB as [_ [Hlev _]]. eapply Hlev, Hlp.
  - apply Math_max_ge. apply prereqLevels_In. eauto.
Qed.

Open Scope string_scope.

Lemma level_above_prerequisites_witness :
  exists v, levels_get diamond_levels "F" = Some v /\
            v = num_succ (Math_max [Num 1; Num 1]) /\
            forall p lp, In p ["M1"; "M2"] -> levels_get diamond_levels p = Some lp ->
                         num_lt lp v.
Proof.
  apply (@level_above_prerequisites 5 diamond diamond_levels
           (mkQuest "F" false ["M1"; "M2"])).
  - distinct_ids.
  - vm_compute. reflexivity.
  - simpl. tauto.
  - discriminate.
  - reflexivity.
Defined.

Example unknown_gap_levels :
  computeLevels 5 unknown_gap =
  Some {| levels := [("R", Num 0); ("Q", Num 1); ("P", Num 1)];
          processed := ["R"; "Q"; "P"] |}.
Proof. vm_compute. reflexivity. Qed.

Lemma unknown_gap_acyclic : acyclic unknown_gap.
Proof.
  exists (fun k => if String.eqb k "R" then 0%nat
                   else if String.eqb k "P" then 1%nat else 2%nat).
  intros q p Hq Hp Hin. simpl in Hin.
  simpl in Hq. destruct Hq as [<-|[<-|[<-|[]]]]; simpl in Hp;
    repeat (destruct Hp as [<-|Hp]); try contradiction; simpl; try lia;
    exfalso; intuition discriminate.
Qed.

(** C4 as stated fails: the whole graph of [unknown_gap] is acyclic, the
    edge from [P] to [Q] joins two quests that both receive a level, and
    the two levels are equal. *)
Lemma topological_soundness_counterexample :
  ~ (forall fuel data st q p lq lp,
        acyclic data -> computeLevels fuel data = Some st ->
        In q data -> In p (prerequisites q) ->
        levels_get st p = Some lp -> levels_get st (id q) = Some lq ->
        num_lt lp lq).
Proof.
  intros H.
  specialize (H 5%nat unknown_gap _ (mkQuest "Q" false ["R"; "P"; "U"]) "P"
                (Num 1) (Num 1) unknown_gap_acyclic unknown_gap_levels).
  simpl in H. assert (Hlt : 1 < 1); [|lia].
  apply H; auto.
Qed.

Close Scope string_scope.

(* ================================================================== *)
(** ** The propagation from the roots completes *)

Lemma slot_in_cons (a : string) (s : list string) (k : string) :
  slot_in (a :: s) k = if String.eqb a k then 0%nat else S (slot_in s k).
Proof.
  unfold slot_in. simpl. destruct (String.eqb a k); [reflexivity|].
  destruct (index_of k s); reflexivity.
Qed.

Lemma slot_in_bound (s : list string) (k : string) :
  (slot_in s k <= length s)%nat /\ (In k s <-> (slot_in s k < length s)%nat).
Proof.
  induction s as [|a s [IH1 IH2]].
  - unfold slot_in. simpl. split; [lia|]. split; [tauto | lia].
  - rewrite slot_in_cons. simpl. destruct (String.eqb a k) eqn:E.
    + apply String.eqb_eq in E. split; [lia|]. split; [lia | now left].
    + apply String.eqb_neq in E. split; [lia|]. rewrite IH2. split.
      * intros [H|H]; [contradiction | lia].
      * intros H. right. lia.
Qed.

Lemma slot_in_app (s t : list string) (k : string) :
  In k s -> slot_in (s ++ t) k = slot_in s k.
Proof.
  induction s as [|a s IH]; simpl; [tauto|]. intros H.
  rewrite !slot_in_cons. destruct (String.eqb a k) eqn:E; [reflexivity|].
  apply String.eqb_neq in E. destruct H as [H|H]; [contradiction|]. now rewrite IH.
Qed.

Lemma slot_in_last (s : list string) (k : string) :
  ~ In k s -> slot_in (s ++ [k]) k = slot_in s k.
Proof.
  induction s as [|a s IH]; simpl; intros H.
  - rewrite slot_in_cons, String.eqb_refl. reflexivity.
  - rewrite !slot_in_cons. destruct (String.eqb a k) eqn:E; [reflexivity|].
    rewrite IH; tauto.
Qed.

Lemma Set_add_In (s : list string) (k k' : string) :
  In k' (Set_add s k) <-> k' = k \/ In k' s.
Proof.
  unfold Set_add. destruct (Set_has s k) eqn:E.
  - apply Set_has_In in E. split; [tauto | intros [->|H]; assumption].
  - rewrite in_app_iff. simpl. intuition congruence.
Qed.

Lemma slot_in_add_same (s : list string) (k : string) :
  slot_in (Set_add s k) k = slot_in s k.
Proof.
  unfold Set_add. destruct (Set_has s k) eqn:E; [reflexivity|].
  apply slot_in_last. intros H. apply Set_has_In in H. congruence.
Qed.

Lemma slot_in_add_other (s : list string) (k k' : string) :
  In k' s -> slot_in (Set_add s k) k' = slot_in s k'.
Proof.
  intros H. unfold Set_add. destruct (Set_has s k); [reflexivity|].
  now apply slot_in_app.
Qed.

Lemma slot_lt_length (data : list Quest) (st : LState) (q : Quest) :
  base_inv data st -> In q data -> (slot st (id q) < length data)%nat.
Proof.
  intros [Hwf [_ [Hkeys Hnd]]] Hq. unfold slot.
  assert (Hincl : incl (processed st) (map id data)).
  { intros k Hk. apply Hkeys. apply wf_processed_has; [exact Hwf|].
    now apply Set_has_In. }
  assert (Hnd' : NoDup (processed st)) by (rewrite Hwf; exact Hnd).
  destruct (slot_in_bound (processed st) (id q)) as [Hle Hiff].
  destruct (in_dec string_dec (id q) (processed st)) as [Hin|Hnin].
  - apply Hiff in Hin.
    pose proof (NoDup_incl_length Hnd' Hincl) as Hlen. rewrite length_map in Hlen. lia.
  - assert (Hlen : (length (id q :: processed st) <= length (map id data))%nat).
    { apply NoDup_incl_length; [now constructor|].
      intros k [<-|Hk]; [now apply in_map | now apply Hincl]. }
    rewrite length_map in Hlen. simpl in Hlen. lia.
Qed.

Lemma ord_inv_record (data : list Quest) (st : LState) (q : Quest) (l : num) :
  NoDup (map id data) -> wf st -> ord_inv data st ->
  In q data -> all_known st q -> ord_inv data (record_level st q l).
Proof.
  intros Hnd Hwf Hord Hq Hall c Hc Hin p Hp. unfold slot in *. simpl in *.
  destruct (string_dec (id c) (id q)) as [E|Hne].
  - assert (c = q) by now apply (id_inj data). subst c.
    assert (Hpin : In p (processed st)).
    { apply Set_has_In, wf_processed_has; [exact Hwf|].
      now apply (proj1 (all_known_iff st q) Hall). }
    split; [apply Set_add_In; now right|].
    rewrite slot_in_add_same, slot_in_add_other by exact Hpin.
    destruct (in_dec string_dec (id q) (processed st)) as [Hqin|Hqnin].
    + now apply Hord.
    + destruct (slot_in_bound (processed st) p) as [_ Hiff]. apply Hiff in Hpin.
      assert (slot_in (processed st) (id q) = length (processed st)); [|lia].
      destruct (slot_in_bound (processed st) (id q)) as [Hle Hiff'].
      destruct (Nat.eq_dec (slot_in (processed st) (id q)) (length (processed st)));
        [assumption|]. exfalso. apply Hqnin, Hiff'. lia.
  - apply Set_add_In in Hin. destruct Hin as [Hin|Hin]; [contradiction|].
    destruct (Hord c Hc Hin p Hp) as [Hpin Hlt].
    split; [apply Set_add_In; now right|].
    now rewrite !slot_in_add_other by assumption.
Qed.

Lemma primary_inv_record (data : list Quest) (st : LState) (q : Quest) (l : num) :
  NoDup (map id data) -> primary_inv data st -> primary_call data st q l ->
  primary_inv data (record_level st q l).
Proof.
  intros Hnd [HB Hord] [Hall Hcall]. split.
  - eapply base_inv_record; eassumption.
  - apply ord_inv_record; try assumption; [apply HB|].
    now destruct Hcall.
Qed.

Lemma primary_call_child (data : list Quest) (st : LState) (c : Quest) :
  In c data -> prerequisites c <> [] -> all_known st c ->
  primary_call data st c (num_succ (Math_max (prereqLevels st c))).
Proof. intros Hc Hne Hall. split; [exact Hall | now apply call_ok_child]. Qed.

(** During a call, a processed quest keeps its place. *)
Lemma assignLevel_primary_inv (data : list Quest) (k : string) (i : nat) :
  NoDup (map id data) ->
  forall fuel q l st st',
    primary_inv data st /\ (In k (processed st) /\ slot st k = i) ->
    primary_call data st q l ->
    assignLevel fuel data q l st = Some st' ->
    primary_inv data st' /\ (In k (processed st') /\ slot st' k = i).
Proof.
  intros Hnd.
  apply assignLevel_invariant
    with (Pre := primary_call data)
         (Inv := fun s => primary_inv data s /\ (In k (processed s) /\ slot s k = i)).
  - intros s c _. apply primary_call_child.
  - intros s c lv [HP [Hin Hs]] Hcall _. split; [now apply primary_inv_record|].
    unfold slot in *. simpl. split; [apply Set_add_In; now right|].
    now rewrite slot_in_add_other.
Qed.

Lemma assignLevel_primary_terminates (data : list Quest) :
  NoDup (map id data) ->
  forall fuel q l st,
    primary_inv data st -> primary_call data st q l ->
    (length data <= fuel + slot st (id q))%nat ->
    exists st', assignLevel fuel data q l st = Some st'.
Proof.
  intros Hnd. induction fuel as [|fuel IH]; intros q l st HP Hcall Hfuel.
  - assert (Hq : In q data) by (destruct Hcall as [_ []]; assumption).
    pose proof (@slot_lt_length data st q (proj1 HP) Hq). lia.
  - simpl. destruct (already_at_least st q l) eqn:G; [eauto|].
    set (i := slot st (id q)) in *.
    assert (Hstart : primary_inv data (record_level st q l) /\
                     (In (id q) (processed (record_level st q l)) /\
                      slot (record_level st q l) (id q) = i)).
    { split; [now apply primary_inv_record|]. unfold slot, i. simpl.
      split; [apply Set_add_In; now left | apply slot_in_add_same]. }
    revert Hstart. generalize (record_level st q l).
    assert (Hcs : forall c, In c (childrenOf data q) ->
                            In c data /\ In (id q) (prerequisites c)).
    { intros c. apply childrenOf_In. }
    revert Hcs. generalize (childrenOf data q).
    induction l0 as [|c cs IHcs]; intros Hcs s Hs; simpl; [eauto|].
    destruct (Hcs c (or_introl eq_refl)) as [Hc Hedge].
    assert (Hnext : forall s1, primary_inv data s1 /\ (In (id q) (processed s1) /\
                               slot s1 (id q) = i) ->
              exists s', forEachM cs
                (fun child st' =>
                   if Nat.eqb (length (prereqLevels st' child))
                              (length (prerequisites child))
                   then assignLevel fuel data child
                          (num_succ (Math_max (prereqLevels st' child))) st'
                   else Some st') s1 = Some s').
    { intros s1 Hs1. apply IHcs; [|exact Hs1]. intros a Ha. apply Hcs. now right. }
    destruct (Nat.eqb_spec (length (prereqLevels s c)) (length (prerequisites c)))
      as [Hall|Hnall]; [|now apply Hnext].
    assert (Hne : prerequisites c <> []).
    { intros Hnil. rewrite Hnil in Hedge. exact Hedge. }
    assert (Hpc : primary_call data s c (num_succ (Math_max (prereqLevels s c)))).
    { now apply primary_call_child. }
    destruct Hs as [HPs [Hqin Hqslot]].
    destruct (IH c (num_succ (Math_max (prereqLevels s c))) s HPs Hpc) as [s2 E].
    + assert (i < slot s (id c))%nat; [|lia]. rewrite <- Hqslot.
      destruct (in_dec string_dec (id c) (processed s)) as [Hcin|Hcnin].
      * now apply (proj2 HPs c Hc Hcin (id q) Hedge).
      * unfold slot.
        destruct (slot_in_bound (processed s) (id q)) as [_ Hiff]. apply Hiff in Hqin.
        destruct (slot_in_bound (processed s) (id c)) as [Hle Hiff'].
        destruct (Nat.eq_dec (slot_in (processed s) (id c)) (length (processed s)));
          [lia|]. exfalso. apply Hcnin, Hiff'. lia.
    + rewrite E. apply Hnext.
      apply (@assignLevel_primary_inv data (id q) i Hnd fuel c
               (num_succ (Math_max (prereqLevels s c))) s s2);
        [now split | exact Hpc | exact E].
Qed.

Lemma assignLevel_primary (data : list Quest) :
  NoDup (map id data) ->
  forall fuel q l st st',
    primary_inv data st -> primary_call data st q l ->
    assignLevel fuel data q l st = Some st' -> primary_inv data st'.
Proof.
  intros Hnd.
  apply assignLevel_invariant
    with (Pre := primary_call data) (Inv := primary_inv data).
  - intros s c _. apply primary_call_child.
  - intros s c lv HP Hcall _. now apply primary_inv_record.
Qed.

Lemma primary_inv_empty (data : list Quest) : primary_inv data emptyState.
Proof. split; [apply base_inv_empty | intros q _ []]. Qed.

(** With unique ids the propagation from the roots always completes,
    on a stack no deeper than the number of quests. *)
Lemma processRoots_terminates (data : list Quest) (fuel : nat) :
  NoDup (map id data) -> (length data <= fuel)%nat ->
  exists s1, processRoots fuel data emptyState = Some s1.
Proof.
  intros Hnd Hfuel. unfold processRoots.
  assert (Hroots : forall r, In r (roots data) -> In r data /\ is_root r).
  { intros r. apply roots_In. }
  revert Hroots. generalize (roots data). intros arr.
  generalize (primary_inv_empty data). generalize emptyState.
  induction arr as [|r arr IH]; intros s HP Hroots; simpl; [eauto|].
  destruct (Hroots r (or_introl eq_refl)) as [Hr Hroot].
  assert (Hcall : primary_call data s r (Num 0)).
  { split.
    - unfold all_known. rewrite prereqLevels_nil, (proj2 Hroot); [reflexivity|].
      apply Hroot.
    - apply call_seed; [exact Hr | apply Hroot | exact Hroot | reflexivity]. }
  destruct (@assignLevel_primary_terminates data Hnd fuel r (Num 0) s HP Hcall)
    as [s1 E]; [lia|].
  rewrite E. apply IH.
  - eapply assignLevel_primary; eassumption.
  - intros a Ha. apply Hroots. now right.
Qed.

(* ================================================================== *)
(** ** Root seeding *)

(** What the propagation from the roots leaves, when it completes. *)
Lemma root_seeding_levels (fuel : nat) (data : list Quest) (s1 : LState) :
  NoDup (map id data) ->
  processRoots fuel data emptyState = Some s1 ->
  (forall q, In q data ->
             (levels_get s1 (id q) = Some (Num 0) <-> is_root q)) /\
  (forall q, In q data -> prerequisites q = [] -> unlockMilestone q = false ->
             levels_get s1 (id q) = None /\
             forall st, fallbackSweep fuel data 10 s1 = Some st ->
                        levels_get st (id q) = Some (Num 0)).
Proof.
  intros Hnd Hroots.
  destruct (@processRoots_class data fuel s1 Hnd Hroots) as [HB HC].
  assert (Hzero : forall st q v, class_inv data (fun _ => True) st ->
            In q data -> prerequisites q = [] ->
            levels_get st (id q) = Some v -> v = Num 0).
  { intros st q v HC' Hq Hnil Hv.
    destruct (HC' q v Hq Hv) as [[_ [_ E]]|[Hpl _]]; [exact E|].
    rewrite prereqLevels_nil in Hpl by exact Hnil. congruence. }
  assert (HCany : class_inv data (fun _ => True) s1).
  { eapply class_inv_weaken; [|exact HC]. trivial. }
  split.
  - intros q Hq. split.
    + intros Hv. destruct (HC q _ Hq Hv) as [[Hnil [Hr _]]|[_ [Hone _]]];
        [exact Hr | simpl in Hone; lia].
    + intros Hr. unfold processRoots in Hroots.
      destruct (@roots_list_leveled data fuel (roots data) emptyState s1
                  wf_empty Hroots) as [_ [_ Hall]].
      destruct (Hall q) as [v Hv]; [apply roots_In; now split|].
      rewrite Hv. f_equal. destruct Hr as [_ Hnil]. eapply Hzero; eassumption.
  - intros q Hq Hnil Hms. split.
    + destruct (levels_get s1 (id q)) as [v|] eqn:Hv; [exfalso | reflexivity].
      destruct (HC q v Hq Hv) as [[_ [[Hm _] _]]|[Hpl _]]; [congruence|].
      rewrite prereqLevels_nil in Hpl by exact Hnil. congruence.
    + intros st Hsweep.
      assert (Hfin : base_inv data st /\ class_inv data (fun _ => True) st).
      { revert Hsweep.
        apply fallbackSweep_invariant
          with (seed := fun _ : Quest => True)
               (Inv := fun s => base_inv data s /\ class_inv data (fun _ => True) s).
        - intros f c l s s'. now apply assignLevel_class.
        - trivial.
        - now split. }
      destruct (@fallbackSweep_no_prereq data fuel 9 s1 st q HB Hsweep Hq Hnil)
        as [v Hv].
      rewrite Hv. f_equal. eapply Hzero; [apply Hfin | eassumption..].
Qed.

(** With unique ids and a stack as deep as the number of quests, the
    propagation from the roots completes; after it the quests at level 0
    are exactly the milestones without prerequisites; a quest without
    prerequisites that is not a milestone has no level then, and has
    level 0 whenever the fallback sweep returns. *)
Theorem root_seeding (fuel : nat) (data : list Quest) :
  NoDup (map id data) -> (length data <= fuel)%nat ->
  exists s1,
    processRoots fuel data emptyState = Some s1 /\
    (forall q, In q data ->
               (levels_get s1 (id q) = Some (Num 0) <-> is_root q)) /\
    (forall q, In q data -> prerequisites q = [] -> unlockMilestone q = false ->
               levels_get s1 (id q) = None /\
               forall st, fallbackSweep fuel data 10 s1 = Some st ->
                          levels_get st (id q) = Some (Num 0)).
Proof.
  intros Hnd Hfuel.
  destruct (@processRoots_terminates data fuel Hnd Hfuel) as [s1 E].
  exists s1. split; [exact E|].
  exact (@root_seeding_levels fuel data s1 Hnd E).
Qed.

Lemma root_seeding_witness :
  exists s1,
    processRoots 3 orphan emptyState = Some s1 /\
    (forall q, In q orphan ->
               (levels_get s1 (id q) = Some (Num 0) <-> is_root q)) /\
    (forall q, In q orphan -> prerequisites q = [] -> unlockMilestone q = false ->
               levels_get s1 (id q) = None /\
               forall st, fallbackSweep 3 orphan 10 s1 = Some st ->
                          levels_get st (id q) = Some (Num 0)).
Proof.
  apply (@root_seeding 3 orphan).
  - distinct_ids.
  - simpl. lia.
Defined.

Open Scope string_scope.

Example orphan_levels :
  processRoots 3 orphan emptyState = Some orphan_primary /\
  fallbackSweep 3 orphan 10 orphan_primary =
  Some {| levels := [("R", Num 0); ("M", Num 1); ("N", Num 0)];
          processed := ["R"; "M"; "N"] |}.
Proof. split; vm_compute; reflexivity. Qed.

Close Scope string_scope.

(* ================================================================== *)
(** ** The stack bound: more fuel gives the same result *)

Lemma forEachM_mono (A S : Type) (f g : A -> S -> option S) :
  (forall a s s', f a s = Some s' -> g a s = Some s') ->
  forall arr s s', forEachM arr f s = Some s' -> forEachM arr g s = Some s'.
Proof.
  intros Hfg. induction arr as [|a arr IH]; simpl; intros s s' H; [exact H|].
  destruct (f a s) as [s1|] eqn:E; [|discriminate].
  rewrite (Hfg _ _ _ E). now apply IH.
Qed.

Lemma assignLevel_fuel_mono (data : list Quest) :
  forall f1 f2 q l st st',
    (f1 <= f2)%nat -> assignLevel f1 data q l st = Some st' ->
    assignLevel f2 data q l st = Some st'.
Proof.
  induction f1 as [|f1 IH]; intros f2 q l st st' Hle H; [discriminate|].
  destruct f2 as [|f2]; [lia|]. simpl in *.
  destruct (already_at_least st q l); [exact H|].
  revert H. apply forEachM_mono. intros c s s'.
  destruct (Nat.eqb _ _); [|trivial]. apply IH. lia.
Qed.

Lemma sweepStep_fuel_mono (data : list Quest) f1 f2 q st st' :
  (f1 <= f2)%nat -> sweepStep f1 data q st = Some st' ->
  sweepStep f2 data q st = Some st'.
Proof.
  intros Hle. unfold sweepStep. destruct (negb _); [|trivial].
  destruct (_ || _); [|trivial]. now apply assignLevel_fuel_mono.
Qed.

Lemma fallbackSweep_fuel_mono (data : list Quest) f1 f2 m :
  (f1 <= f2)%nat ->
  forall st st', fallbackSweep f1 data m st = Some st' ->
                 fallbackSweep f2 data m st = Some st'.
Proof.
  intros Hle. induction m as [|m IH]; simpl; intros st st' H; [exact H|].
  destruct (Nat.ltb _ _); [|exact H].
  destruct (sweepPass f1 data st) as [s1|] eqn:E; [|discriminate].
  unfold sweepPass in *.
  rewrite (forEachM_mono (sweepStep f1 data) (sweepStep f2 data)
             (fun a s s' => @sweepStep_fuel_mono data f1 f2 a s s' Hle) _ _ E).
  now apply IH.
Qed.

Lemma computeLevels_fuel_mono (data : list Quest) f1 f2 st :
  (f1 <= f2)%nat -> computeLevels f1 data = Some st -> computeLevels f2 data = Some st.
Proof.
  intros Hle. unfold computeLevels, processRoots.
  destruct (forEachM (roots data) _ emptyState) as [s1|] eqn:E; [|discriminate].
  rewrite (forEachM_mono _ (fun root s => assignLevel f2 data root (Num 0) s)
             (fun a s s' => @assignLevel_fuel_mono data f1 f2 a (Num 0) s s' Hle) _ _ E).
  now apply fallbackSweep_fuel_mono.
Qed.

(** Two completed computations of the levels agree, whatever their
    stack bounds. *)
Lemma computeLevels_deterministic (data : list Quest) f1 f2 st1 st2 :
  computeLevels f1 data = Some st1 -> computeLevels f2 data = Some st2 -> st1 = st2.
Proof.
  intros H1 H2.
  apply (@computeLevels_fuel_mono data f1 (Nat.max f1 f2)) in H1; [|lia].
  apply (@computeLevels_fuel_mono data f2 (Nat.max f1 f2)) in H2; [|lia].
  congruence.
Qed.

(* ================================================================== *)
(** ** Termination on acyclic data *)

Lemma forEachM_total (A S : Type) (f : A -> S -> option S) (arr : list A) :
  (forall a, In a arr -> forall s, exists s', f a s = Some s') ->
  forall s, exists s', forEachM arr f s = Some s'.
Proof.
  induction arr as [|a arr IH]; simpl; intros H s; [eauto|].
  destruct (H a (or_introl eq_refl) s) as [s1 E]. rewrite E.
  apply IH. intros b Hb. apply H. now right.
Qed.

Section Ranked.
Variable data : list Quest.
Variable rk : string -> nat.
Variable bound : nat.
Hypothesis rk_edge :
  forall q p, In q data -> In p (prerequisites q) -> In p (map id data) ->
              (rk p < rk (id q))%nat.
Hypothesis rk_bound : forall q, In q data -> (rk (id q) < bound)%nat.

(** A call on a quest of rank [r] needs a stack of depth at most
    [bound - r]. *)
Lemma assignLevel_terminates :
  forall fuel q l st,
    In q data -> (bound <= rk (id q) + fuel)%nat ->
    exists st', assignLevel fuel data q l st = Some st'.
Proof.
  induction fuel as [|fuel IH]; intros q l st Hq Hb.
  - specialize (rk_bound q Hq). lia.
  - simpl. destruct (already_at_least st q l); [eauto|].
    apply forEachM_total. intros c Hc s. apply childrenOf_In in Hc.
    destruct Hc as [Hc Hin]. destruct (Nat.eqb _ _); [|eauto].
    apply IH; [exact Hc|].
    assert (rk (id q) < rk (id c))%nat; [|lia].
    apply rk_edge; [exact Hc | exact Hin | now apply in_map].
Qed.

Lemma computeLevels_terminates (fuel : nat) :
  (bound <= fuel)%nat -> exists st, computeLevels fuel data = Some st.
Proof.
  intros Hb.
  assert (Hcall : forall q l st, In q data ->
            exists st', assignLevel fuel data q l st = Some st').
  { intros q l st Hq. apply assignLevel_terminates; [exact Hq | lia]. }
  assert (Hpass : forall st, exists st', sweepPass fuel data st = Some st').
  { apply forEachM_total. intros q Hq s. unfold sweepStep.
    destruct (negb _); [|eauto]. destruct (_ || _); [|eauto]. now apply Hcall. }
  assert (Hsweep : forall m st, exists st', fallbackSweep fuel data m st = Some st').
  { induction m as [|m IHm]; simpl; intros st; [eauto|].
    destruct (Nat.ltb _ _); [|eauto].
    destruct (Hpass st) as [s1 E]. rewrite E. apply IHm. }
  unfold computeLevels.
  destruct (forEachM_total (fun root s => assignLevel fuel data root (Num 0) s)
              (roots data)) with (s := emptyState) as [s1 E].
  - intros q Hq s. apply Hcall. now apply roots_In in Hq.
  - unfold processRoots. rewrite E. apply Hsweep.
Qed.

(** On acyclic data in which every prerequisite is a quest of the
    dataset, every quest has a level at the end. *)
Lemma computeLevels_covers (fuel : nat) (st : LState) :
  (forall q p, In q data -> In p (prerequisites q) -> In p (map id data)) ->
  computeLevels fuel data = Some st ->
  forall q, In q data -> has_level st (id q).
Proof.
  intros Hclosed Hrun.
  pose proof (@computeLevels_all_resolved data fuel st Hrun) as Hres.
  assert (Hnone : forall q, In q data -> prerequisites q = [] -> has_level st (id q)).
  { unfold computeLevels in Hrun.
    destruct (processRoots fuel data emptyState) as [s1|] eqn:E; [|discriminate].
    assert (HB : base_inv data s1).
    { revert E. apply processRoots_invariant
        with (seed := fun _ : Quest => True) (Inv := base_inv data).
      - intros f q l s s'. apply assignLevel_base.
      - trivial.
      - apply base_inv_empty. }
    intros q Hq Hnil.
    apply (@fallbackSweep_no_prereq data fuel 9 s1 st q HB Hrun Hq Hnil). }
  assert (Hind : forall n q, In q data -> (rk (id q) < n)%nat -> has_level st (id q)).
  { induction n as [|n IHn]; intros q Hq Hr; [lia|].
    destruct (prerequisites q) as [|p0 ps] eqn:Hp; [now apply Hnone|].
    destruct (Hres q Hq) as [v [Hv _]].
    - rewrite Hp. discriminate.
    - apply all_known_iff. intros p Hin.
      assert (Hknown : In p (map id data)) by (eapply Hclosed; eassumption).
      apply in_map_iff in Hknown. destruct Hknown as [q' [<- Hq']].
      apply IHn; [exact Hq'|].
      assert (rk (id q') < rk (id q))%nat; [|lia].
      apply rk_edge; [exact Hq | exact Hin | now apply in_map].
    - now exists v. }
  intros q Hq. apply (Hind (S (rk (id q)))); [exact Hq | lia].
Qed.
End Ranked.

(* ================================================================== *)
(** ** A cycle entered from a root *)

Lemma assignLevel_S (fuel : nat) (data : list Quest) q l st :
  assignLevel (S fuel) data q l st =
  if already_at_least st q l then Some st
  else forEachM (childrenOf data q)
         (fun child st' =>
            let pl := prereqLevels st' child in
            if Nat.eqb (length pl) (length (prerequisites child)) then
              assignLevel fuel data child (num_succ (Math_max pl)) st'
            else Some st')
         (record_level st q l).
Proof. reflexivity. Qed.

Lemma forEachM_cons (A S : Type) (a : A) (r : list A) (f : A -> S -> option S) (s : S) :
  forEachM (a :: r) f s =
  match f a s with Some s' => forEachM r f s' | None => None end.
Proof. reflexivity. Qed.

Open Scope string_scope.

(** Once [A] and [B] both have a level, each call raises one of them
    above the other and calls the other quest: no stack bound is
    enough. *)
Lemma rooted_cycle_diverges (fuel : nat) :
  (forall a b, 0 <= a < b ->
     assignLevel fuel rooted_cycle (mkQuest "A" false ["R"; "B"]) (Num (b + 1))
       (cycle_state a b) = None) /\
  (forall a b, 0 <= b < a ->
     assignLevel fuel rooted_cycle (mkQuest "B" false ["A"]) (Num (a + 1))
       (cycle_state a b) = None).
Proof.
  induction fuel as [|fuel [IHA IHB]]; [split; reflexivity|].
  split; intros a b Hab; rewrite assignLevel_S.
  - assert (G : already_at_least (cycle_state a b) (mkQuest "A" false ["R"; "B"])
                  (Num (b + 1)) = false).
    { unfold already_at_least. cbn. apply Z.leb_gt. lia. }
    rewrite G.
    change (childrenOf rooted_cycle (mkQuest "A" false ["R"; "B"]))
      with [mkQuest "B" false ["A"]].
    change (record_level (cycle_state a b) (mkQuest "A" false ["R"; "B"]) (Num (b + 1)))
      with (cycle_state (b + 1) b).
    rewrite forEachM_cons.
    change (prereqLevels (cycle_state (b + 1) b) (mkQuest "B" false ["A"]))
      with [Num (b + 1)].
    cbn [length Nat.eqb prerequisites Math_max fold_right num_max num_succ].
    rewrite IHB; [reflexivity | lia].
  - assert (G : already_at_least (cycle_state a b) (mkQuest "B" false ["A"])
                  (Num (a + 1)) = false).
    { unfold already_at_least. cbn. apply Z.leb_gt. lia. }
    rewrite G.
    change (childrenOf rooted_cycle (mkQuest "B" false ["A"]))
      with [mkQuest "A" false ["R"; "B"]].
    change (record_level (cycle_state a b) (mkQuest "B" false ["A"]) (Num (a + 1)))
      with (cycle_state a (a + 1)).
    rewrite forEachM_cons.
    change (prereqLevels (cycle_state a (a + 1)) (mkQuest "A" false ["R"; "B"]))
      with [Num 0; Num (a + 1)].
    cbn [length Nat.eqb prerequisites Math_max fold_right num_max num_succ].
    replace (Z.max 0 (a + 1)) with (a + 1) by lia.
    rewrite IHA; [reflexivity | lia].
Qed.

(** C2 fails on [rooted_cycle]: whatever the stack bound, the sweep
    places [A] from its known prerequisite [R], the call reaches [B],
    [B] calls [A] again one level higher, and so on without end;
    [calculateLayout] returns nothing. *)
Theorem rooted_cycle_never_returns (fuel : nat) (np : JsMap string Position) :
  calculateLayout fuel rooted_cycle np = None.
Proof.
  unfold calculateLayout.
  assert (E : computeLevels fuel rooted_cycle = None); [|now rewrite E].
  destruct fuel as [|[|fuel]]; try reflexivity.
  set (st0 := {| levels := [("R", Num 0)]; processed := ["R"] |}).
  assert (HA : assignLevel (S (S fuel)) rooted_cycle (mkQuest "A" false ["R"; "B"])
                 (Num 1) st0 = None).
  { rewrite assignLevel_S. cbn -[assignLevel].
    rewrite assignLevel_S. cbn -[assignLevel].
    change (record_level _ _ (Num 2)) with (cycle_state 1 2).
    change (Num 3) with (Num (2 + 1)).
    rewrite (proj1 (rooted_cycle_diverges fuel) 1 2); [reflexivity | lia]. }
  assert (HP : sweepPass (S (S fuel)) rooted_cycle st0 = None).
  { unfold sweepPass. unfold rooted_cycle at 1.
    rewrite forEachM_cons.
    change (sweepStep (S (S fuel)) rooted_cycle (mkQuest "R" true []) st0)
      with (Some st0).
    cbv beta iota. rewrite forEachM_cons.
    change (sweepStep (S (S fuel)) rooted_cycle (mkQuest "A" false ["R"; "B"]) st0)
      with (assignLevel (S (S fuel)) rooted_cycle (mkQuest "A" false ["R"; "B"])
              (Num 1) st0).
    now rewrite HA. }
  unfold computeLevels.
  change (processRoots (S (S fuel)) rooted_cycle emptyState) with (Some st0).
  cbv beta iota.
  change (fallbackSweep (S (S fuel)) rooted_cycle 10 st0)
    with (match sweepPass (S (S fuel)) rooted_cycle st0 with
          | Some st' => fallbackSweep (S (S fuel)) rooted_cycle 9 st'
          | None => None
          end).
  now rewrite HP.
Qed.

Close Scope string_scope.

(* ================================================================== *)
(** ** Grouping by level *)

Lemma Map_set_In (K V : Type) (eqb : K -> K -> bool) :
  (forall a b, eqb a b = true <-> a = b) ->
  forall (m : JsMap K V) k v e, In e (Map_set eqb m k v) -> In e m \/ e = (k, v).
Proof.
  intros Heq. induction m as [|[k0 v0] m IH]; simpl; intros k v e H.
  - destruct H as [<-|[]]. now right.
  - destruct (eqb k0 k) eqn:E.
    + apply Heq in E. subst k0. destruct H as [<-|H]; [now right | left; now right].
    + destruct H as [<-|H]; [left; now left|].
      destruct (IH k v e H) as [H1|H1]; [left; now right | now right].
Qed.

Lemma Map_set_absent (K V : Type) (eqb : K -> K -> bool) (m : JsMap K V) k v :
  Map_get eqb m k = None -> Map_set eqb m k v = m ++ [(k, v)].
Proof.
  induction m as [|[k0 v0] m IH]; simpl; [reflexivity|].
  destruct (eqb k0 k); [discriminate|]. intros H. now rewrite IH.
Qed.

Lemma Map_set_push (K : Type) (eqb : K -> K -> bool) (m : JsMap K (list string))
  k ids qid :
  Map_get eqb m k = Some ids ->
  Permutation (concat (map snd (Map_set eqb m k (ids ++ [qid]))))
              (qid :: concat (map snd m)).
Proof.
  revert ids. induction m as [|[k0 v0] m IH]; simpl; intros ids H; [discriminate|].
  destruct (eqb k0 k).
  - inversion H. subst v0. simpl. rewrite <- app_assoc. simpl.
    symmetry. apply Permutation_middle.
  - simpl. eapply Permutation_trans.
    + apply Permutation_app_head. apply IH. exact H.
    + symmetry. apply Permutation_middle.
Qed.

Lemma pushGroup_groups_of lv g qid level :
  groups_of lv g -> groups_of (lv ++ [(qid, level)]) (pushGroup g (qid, level)).
Proof.
  intros [Hperm Hin]. unfold pushGroup, Map_has.
  destruct (Map_get num_eqb g level) as [ids|] eqn:E.
  - rewrite E. split.
    + rewrite map_app. simpl. eapply Permutation_trans.
      * apply Map_set_push. exact E.
      * eapply Permutation_trans; [|apply Permutation_cons_append].
        now apply perm_skip.
    + intros l ids' k He Hk. apply in_or_app.
      apply (@Map_set_In _ _ num_eqb num_eqb_eq) in He. destruct He as [He|He].
      * left. eapply Hin; eassumption.
      * inversion He. subst. apply in_app_or in Hk. destruct Hk as [Hk|[<-|[]]].
        -- left. eapply Hin; [|exact Hk]. eapply Map_get_Some_In; [apply num_eqb_eq|].
           exact E.
        -- right. now left.
  - rewrite (@Map_set_absent _ _ num_eqb g level [] E).
    assert (E1 : Map_get num_eqb (g ++ [(level, [])]) level = Some []).
    { rewrite <- (@Map_set_absent _ _ num_eqb g level [] E).
      apply Map_get_set_same, num_eqb_eq. }
    rewrite E1. split.
    + rewrite map_app. simpl. eapply Permutation_trans.
      * apply (@Map_set_push _ num_eqb (g ++ [(level, [])]) level [] qid E1).
      * eapply Permutation_trans; [|apply Permutation_cons_append].
        apply perm_skip. rewrite map_app, concat_app. simpl. now rewrite app_nil_r.
    + intros l ids' k He Hk. apply in_or_app.
      apply (@Map_set_In _ _ num_eqb num_eqb_eq) in He. destruct He as [He|He].
      * apply in_app_or in He. destruct He as [He|[He|[]]].
        -- left. eapply Hin; eassumption.
        -- inversion He. subst. destruct Hk.
      * inversion He. subst. destruct Hk as [<-|[]]. right. now left.
Qed.

Lemma groupByLevel_groups_of (lv : JsMap string num) : groups_of lv (groupByLevel lv).
Proof.
  unfold groupByLevel.
  assert (H : forall rest done g, groups_of done g ->
            groups_of (done ++ rest) (fold_left pushGroup rest g)).
  { induction rest as [|[qid level] rest IH]; simpl; intros done g Hg.
    - now rewrite app_nil_r.
    - replace (done ++ (qid, level) :: rest) with ((done ++ [(qid, level)]) ++ rest)
        by (rewrite <- app_assoc; reflexivity).
      apply IH. now apply pushGroup_groups_of. }
  apply (H lv [] []). split; [constructor | intros l ids k []].
Qed.

(* ================================================================== *)
(** ** Placement *)

Lemma placeLevel_writes (np : JsMap string Position) (group : num * list string) :
  placeLevel np group = fold_left setPos (placeWrites group) np.
Proof.
  destruct group as [level ids]. unfold placeLevel, placeWrites. simpl.
  generalize (indexed ids). intros es. revert np.
  induction es as [|e es IH]; simpl; intros np; [reflexivity|]. apply IH.
Qed.

Lemma fold_placeLevel_writes (groups : JsMap num (list string)) :
  forall np, fold_left placeLevel groups np =
             fold_left setPos (flat_map placeWrites groups) np.
Proof.
  induction groups as [|g groups IH]; simpl; intros np; [reflexivity|].
  rewrite fold_left_app, IH, placeLevel_writes. reflexivity.
Qed.

Lemma indexed_In (A : Type) (arr : list A) (i : nat) (a : A) :
  In (i, a) (indexed arr) <-> nth_error arr i = Some a.
Proof.
  unfold indexed.
  assert (H : forall l s, In (i, a) (combine (seq s (length l)) l) <->
                          (s <= i)%nat /\ nth_error l (i - s) = Some a).
  { induction l as [|b l IH]; simpl; intros s.
    - split; [tauto|]. intros [_ H]. destruct (i - s)%nat; discriminate.
    - rewrite IH. split.
      + intros [H|[Hle Hn]].
        * inversion H. subst. rewrite Nat.sub_diag. simpl. split; [lia | reflexivity].
        * split; [lia|]. replace (i - s)%nat with (S (i - S s)) by lia. exact Hn.
      + intros [Hle Hn]. destruct (i - s)%nat as [|n] eqn:E.
        * left. simpl in Hn. inversion Hn. f_equal. lia.
        * right. split; [lia|]. simpl in Hn.
          replace (i - S s)%nat with n by lia. exact Hn. }
  rewrite H, Nat.sub_0_r. split; [tauto | intros Hn; split; [lia | exact Hn]].
Qed.

Lemma indexed_snd (A : Type) (arr : list A) : map snd (indexed arr) = arr.
Proof.
  unfold indexed. generalize 0%nat.
  induction arr as [|a arr IH]; simpl; intros s; [reflexivity|]. now rewrite IH.
Qed.

Lemma placeWrites_keys (group : num * list string) :
  map fst (placeWrites group) = snd group.
Proof.
  unfold placeWrites. rewrite map_map. simpl. apply indexed_snd.
Qed.

Lemma flat_placeWrites_keys (groups : JsMap num (list string)) :
  map fst (flat_map placeWrites groups) = concat (map snd groups).
Proof.
  induction groups as [|g groups IH]; simpl; [reflexivity|].
  now rewrite map_app, placeWrites_keys, IH.
Qed.

Lemma fold_setPos_other (ws : list (string * Position)) :
  forall np k, ~ In k (map fst ws) ->
               Map_get String.eqb (fold_left setPos ws np) k = Map_get String.eqb np k.
Proof.
  induction ws as [|w ws IH]; simpl; intros np k Hnin; [reflexivity|].
  rewrite IH by tauto. unfold setPos.
  apply Map_get_set_other; [apply String.eqb_eq | tauto].
Qed.

Lemma fold_setPos_get (ws : list (string * Position)) :
  forall np k v, NoDup (map fst ws) -> In (k, v) ws ->
                 Map_get String.eqb (fold_left setPos ws np) k = Some v.
Proof.
  induction ws as [|w ws IH]; simpl; intros np k v Hnd Hin; [contradiction|].
  inversion Hnd as [|? ? Hnin Hnd']. subst. destruct Hin as [->|Hin].
  - rewrite fold_setPos_other by exact Hnin. unfold setPos. simpl.
    apply Map_get_set_same, String.eqb_eq.
  - now apply IH.
Qed.

Lemma fold_setPos_keys (ws : list (string * Position)) :
  forall np k, In k (Map_keys (fold_left setPos ws np)) <->
               In k (Map_keys np) \/ In k (map fst ws).
Proof.
  induction ws as [|w ws IH]; simpl; intros np k; [tauto|].
  rewrite IH. unfold setPos. rewrite (Map_keys_set_In String.eqb_eq).
  intuition congruence.
Qed.

Lemma fold_setPos_NoDup (ws : list (string * Position)) :
  forall np, NoDup (Map_keys np) -> NoDup (Map_keys (fold_left setPos ws np)).
Proof.
  induction ws as [|w ws IH]; simpl; intros np H; [exact H|].
  apply IH. unfold setPos. apply Map_keys_set_NoDup; [apply String.eqb_eq | exact H].
Qed.

(** What [calculateLayout] returns, in terms of the final levels. *)
Lemma calculateLayout_inv fuel data np0 np r :
  calculateLayout fuel data np0 = Some (np, r) ->
  exists st, computeLevels fuel data = Some st /\
             levelGroups r = groupByLevel (levels st) /\
             maxLevel r = Math_max (Map_keys (levelGroups r)) /\
             np = fold_left placeLevel (levelGroups r) [].
Proof.
  unfold calculateLayout. destruct (computeLevels fuel data) as [st|]; [|discriminate].
  intros H. inversion H. subst. exists st. simpl. tauto.
Qed.

Section Placement.
Variables (fuel : nat) (data : list Quest) (st : LState).
Hypothesis Hrun : computeLevels fuel data = Some st.

Lemma groups_ids_NoDup : NoDup (concat (map snd (groupByLevel (levels st)))).
Proof.
  destruct (groupByLevel_groups_of (levels st)) as [Hperm _].
  eapply Permutation_NoDup; [symmetry; exact Hperm|].
  apply (computeLevels_base _ _ Hrun).
Qed.

Lemma positions_keys (k : string) :
  In k (Map_keys (fold_left placeLevel (groupByLevel (levels st))
                    ([] : JsMap string Position))) <->
  has_level st k.
Proof.
  rewrite fold_placeLevel_writes, fold_setPos_keys, flat_placeWrites_keys.
  destruct (groupByLevel_groups_of (levels st)) as [Hperm _].
  unfold has_level, levels_get. rewrite (Map_get_Some_keys String.eqb_eq).
  simpl. split.
  - intros [[]|H]. eapply Permutation_in; eassumption.
  - intros H. right. eapply Permutation_in; [symmetry|]; eassumption.
Qed.

Lemma positions_NoDup :
  NoDup (Map_keys (fold_left placeLevel (groupByLevel (levels st))
                     ([] : JsMap string Position))).
Proof. rewrite fold_placeLevel_writes. apply fold_setPos_NoDup. constructor. Qed.

Lemma positions_row (level : num) (ids : list string) (i : nat) (k : string) :
  In (level, ids) (groupByLevel (levels st)) -> nth_error ids i = Some k ->
  Map_get String.eqb (fold_left placeLevel (groupByLevel (levels st)) []) k =
  Some (rowPosition level (length ids) i).
Proof.
  intros Hg Hn. rewrite fold_placeLevel_writes.
  apply fold_setPos_get.
  - rewrite flat_placeWrites_keys. apply groups_ids_NoDup.
  - apply in_flat_map. exists (level, ids). split; [exact Hg|].
    unfold placeWrites. simpl. apply in_map_iff. exists (i, k). split; [reflexivity|].
    now apply indexed_In.
Qed.

Lemma positions_level (k : string) (v : num) :
  levels_get st k = Some v ->
  exists level ids i,
    In (level, ids) (groupByLevel (levels st)) /\ nth_error ids i = Some k /\
    level = v /\
    Map_get String.eqb (fold_left placeLevel (groupByLevel (levels st)) []) k =
    Some (rowPosition v (length ids) i).
Proof.
  intros Hv. destruct (groupByLevel_groups_of (levels st)) as [Hperm Hin].
  assert (Hk : In k (concat (map snd (groupByLevel (levels st))))).
  { eapply Permutation_in; [symmetry; exact Hperm|].
    apply (Map_get_Some_keys String.eqb_eq). now exists v. }
  apply in_concat in Hk. destruct Hk as [ids [Hids Hk]].
  apply in_map_iff in Hids. destruct Hids as [[level ids'] [E Hg]].
  simpl in E. subst ids'.
  apply In_nth_error in Hk. destruct Hk as [i Hi].
  assert (Hl : level = v).
  { assert (Hkl : In (k, level) (levels st)).
    { eapply Hin; [exact Hg|]. eapply nth_error_In, Hi. }
    apply (In_Map_get String.eqb_eq) in Hkl.
    - unfold levels_get in Hv. congruence.
    - apply (computeLevels_base _ _ Hrun). }
  exists level, ids, i. split; [exact Hg|]. split; [exact Hi|]. split; [exact Hl|].
  subst v. now apply positions_row.
Qed.
End Placement.

(* ================================================================== *)
(** ** Coverage *)

(** Whatever the dataset, the positions are those of the quests that
    have a level, one position each, and all of them are quests of the
    dataset. *)
Lemma positions_sound fuel data np0 np r :
  calculateLayout fuel data np0 = Some (np, r) ->
  NoDup (Map_keys np) /\
  (forall k, In k (Map_keys np) -> In k (map id data)) /\
  (length np <= length data)%nat /\
  (forall q, In q data -> prerequisites q = [] ->
             exists pos, Map_get String.eqb np (id q) = Some pos).
Proof.
  intros H. destruct (calculateLayout_inv _ _ _ H) as [st [Hrun [Hg [_ Hnp]]]].
  rewrite Hg in Hnp. subst np.
  pose proof (@positions_NoDup st) as Hnd.
  pose proof (@positions_keys st) as Hkeys.
  pose proof (@computeLevels_base data fuel st Hrun) as HB.
  assert (Hincl : forall k, In k (Map_keys (fold_left placeLevel (groupByLevel (levels st)) []))
                            -> In k (map id data)).
  { intros k Hk. apply HB. now apply Hkeys. }
  split; [exact Hnd|]. split; [exact Hincl|]. split.
  - rewrite <- (length_map fst), <- (length_map id). apply NoDup_incl_length; assumption.
  - intros q Hq Hnil. apply (Map_get_Some_keys String.eqb_eq), Hkeys.
    unfold computeLevels in Hrun.
    destruct (processRoots fuel data emptyState) as [s1|] eqn:E; [|discriminate].
    assert (HB1 : base_inv data s1).
    { revert E. apply processRoots_invariant
        with (seed := fun _ : Quest => True) (Inv := base_inv data).
      - intros f c l s s'. apply assignLevel_base.
      - trivial.
      - apply base_inv_empty. }
    apply (@fallbackSweep_no_prereq data fuel 9 s1 st q HB1 Hrun Hq Hnil).
Qed.

Lemma acyclic_bound (data : list Quest) (rk : string -> nat) :
  exists bound, forall q, In q data -> (rk (id q) < bound)%nat.
Proof.
  exists (S (list_max (map (fun q => rk (id q)) data))). intros q Hq.
  assert (H : (rk (id q) <= list_max (map (fun q => rk (id q)) data))%nat); [|lia].
  pose proof (proj1 (list_max_le (map (fun q => rk (id q)) data) _) (Nat.le_refl _)) as HF.
  rewrite Forall_forall in HF. apply HF. apply in_map_iff. now exists q.
Qed.

(** C1, as amended. When the ids are unique, every prerequisite names a
    quest of the dataset and the prerequisite graph is acyclic,
    [calculateLayout] completes once the stack is deep enough, and every
    quest id is a key of the position mapping, with one position:
    [|positions| = |quests|]. *)
Theorem coverage_on_closed_acyclic_data (data : list Quest)
  (np0 : JsMap string Position) :
  NoDup (map id data) ->
  (forall q p, In q data -> In p (prerequisites q) -> In p (map id data)) ->
  acyclic data ->
  exists depth, forall fuel, (depth <= fuel)%nat ->
    exists np r,
      calculateLayout fuel data np0 = Some (np, r) /\
      (forall q, In q data -> exists pos, Map_get String.eqb np (id q) = Some pos) /\
      NoDup (Map_keys np) /\
      length np = length data.
Proof.
  intros Hnd Hclosed [rk Hrk]. destruct (acyclic_bound data rk) as [bound Hbound].
  exists bound. intros fuel Hfuel.
  destruct (@computeLevels_terminates data rk bound Hrk Hbound fuel Hfuel) as [st Hrun].
  assert (Hlay : calculateLayout fuel data np0 =
                 Some (fold_left placeLevel (groupByLevel (levels st)) [],
                       {| maxLevel := Math_max (Map_keys (groupByLevel (levels st)));
                          levelGroups := groupByLevel (levels st) |})).
  { unfold calculateLayout. now rewrite Hrun. }
  eexists. eexists. split; [exact Hlay|].
  destruct (@positions_sound fuel data np0 _ _ Hlay) as [Hndk [Hincl _]].
  assert (Hcov : forall q, In q data ->
            In (id q) (Map_keys (fold_left placeLevel (groupByLevel (levels st)) []))).
  { intros q Hq. apply (@positions_keys st).
    eapply computeLevels_covers; eassumption. }
  split; [|split; [exact Hndk|]].
  - intros q Hq. apply (Map_get_Some_keys String.eqb_eq). now apply Hcov.
  - rewrite <- (length_map fst), <- (length_map id). apply Permutation_length.
    apply NoDup_Permutation; [exact Hndk | exact Hnd|].
    intros k. split; [apply Hincl|]. intros Hk. apply in_map_iff in Hk.
    destruct Hk as [q [<- Hq]]. now apply Hcov.
Qed.

Lemma diamond_acyclic : acyclic diamond.
Proof.
  exists (fun k => if String.eqb k "R" then 0%nat
                   else if String.eqb k "F" then 2%nat else 1%nat).
  intros q p Hq Hp _.
  simpl in Hq. destruct Hq as [<-|[<-|[<-|[<-|[]]]]]; simpl in Hp;
    repeat (destruct Hp as [<-|Hp]); try contradiction; simpl; lia.
Qed.

Lemma coverage_on_closed_acyclic_data_witness :
  exists depth, forall fuel, (depth <= fuel)%nat ->
    exists np r,
      calculateLayout fuel diamond [] = Some (np, r) /\
      (forall q, In q diamond -> exists pos, Map_get String.eqb np (id q) = Some pos) /\
      NoDup (Map_keys np) /\
      length np = length diamond.
Proof.
  apply (@coverage_on_closed_acyclic_data diamond []).
  - distinct_ids.
  - intros q p Hq Hp.
    simpl in Hq. destruct Hq as [<-|[<-|[<-|[<-|[]]]]]; simpl in Hp;
      repeat (destruct Hp as [<-|Hp]); try contradiction; simpl; tauto.
  - exact diamond_acyclic.
Defined.

Open Scope string_scope.

Example pure_cycle_layout (fuel : nat) (np0 : JsMap string Position) :
  calculateLayout fuel pure_cycle np0 =
  Some ([], {| maxLevel := NegInfinity; levelGroups := [] |}).
Proof. reflexivity. Qed.

(** C1 as stated fails on [pure_cycle]: the layout completes and neither
    quest has a position. *)
Lemma coverage_counterexample :
  ~ (forall fuel data np0 np r,
        calculateLayout fuel data np0 = Some (np, r) ->
        (forall q, In q data -> exists pos, Map_get String.eqb np (id q) = Some pos) /\
        length np = length data).
Proof.
  intros H.
  destruct (H 1%nat pure_cycle [] _ _ (pure_cycle_layout 1 [])) as [_ Hlen].
  discriminate Hlen.
Qed.

Close Scope string_scope.

(* ================================================================== *)
(** ** A quest whose prerequisites are all unknown *)

Open Scope string_scope.

Example unknown_only_layout (fuel : nat) (np0 : JsMap string Position) :
  calculateLayout fuel unknown_only np0 =
  Some ([], {| maxLevel := NegInfinity; levelGroups := [] |}).
Proof. reflexivity. Qed.

(** C3 as stated fails: on the dataset of the scenario no run gives [X]
    a position. *)
Lemma unknown_only_counterexample :
  ~ (exists fuel np0 np r pos,
        calculateLayout fuel unknown_only np0 = Some (np, r) /\
        Map_get String.eqb np "X" = Some pos /\ y pos = Num 0).
Proof.
  intros (fuel & np0 & np & r & pos & H & Hpos & _).
  rewrite unknown_only_layout in H. inversion H. subst. discriminate Hpos.
Qed.

Close Scope string_scope.

(** C3, as amended. With unique ids, a quest whose prerequisites list is
    not empty and names only ids absent from the dataset receives no
    level and no position: the sweep tests the length of the unfiltered
    list, so the quest is neither on the resolved-prerequisite branch
    nor on the no-prerequisites branch. *)
Theorem unknown_prerequisites_unplaced (fuel : nat) (data : list Quest)
  (np0 np : JsMap string Position) (r : LayoutResult) (q : Quest) :
  NoDup (map id data) ->
  calculateLayout fuel data np0 = Some (np, r) ->
  In q data -> prerequisites q <> [] ->
  (forall p, In p (prerequisites q) -> ~ In p (map id data)) ->
  Map_get String.eqb np (id q) = None /\
  exists st, computeLevels fuel data = Some st /\ levels_get st (id q) = None.
Proof.
  intros Hnd Hlay Hq Hne Hunk.
  destruct (calculateLayout_inv _ _ _ Hlay) as [st [Hrun [Hg [_ Hnp]]]].
  destruct (@computeLevels_class data fuel st Hnd Hrun) as [HB HC].
  assert (Hnone : levels_get st (id q) = None).
  { destruct (levels_get st (id q)) as [v|] eqn:Hv; [exfalso | reflexivity].
    destruct (HC q v Hq Hv) as [[Hnil _]|[Hpl _]]; [contradiction|].
    destruct (prereqLevels st q) as [|v' rest] eqn:E; [congruence|].
    assert (Hin : In v' (prereqLevels st q)) by (rewrite E; now left).
    apply prereqLevels_In in Hin. destruct Hin as [p [Hp Hlp]].
    apply (Hunk p Hp). apply HB. now exists v'. }
  split; [|exists st; now split].
  apply (Map_get_None_keys String.eqb_eq). rewrite Hnp, Hg.
  intros Hk. apply (@positions_keys st) in Hk. destruct Hk as [v Hv]. congruence.
Qed.

Lemma unknown_prerequisites_unplaced_witness :
  Map_get String.eqb ([] : JsMap string Position) "X"%string = None /\
  exists st, computeLevels 1 unknown_only = Some st /\
             levels_get st "X"%string = None.
Proof.
  apply (@unknown_prerequisites_unplaced 1 unknown_only [] []
           {| maxLevel := NegInfinity; levelGroups := [] |}
           (mkQuest "X"%string false ["unknown"%string])).
  - distinct_ids.
  - reflexivity.
  - simpl. tauto.
  - discriminate.
  - simpl. intros p [<-|[]]. intuition discriminate.
Defined.

(* ================================================================== *)
(** ** Rows *)

Lemma half_width (m : Z) : (- (m * 160)) / 2 = - (m * 80) /\ (m * 160) / 2 = m * 80.
Proof.
  split.
  - replace (- (m * 160)) with ((- (m * 80)) * 2) by lia. apply Z.div_mul. lia.
  - replace (m * 160) with ((m * 80) * 2) by lia. apply Z.div_mul. lia.
Qed.

(** C6. In every group of the result, with [n] ids, the quest at index
    [i] is placed at [x = -((n-1)·nodeSpacingX)/2 + i·nodeSpacingX]; the
    row lies within [-((n-1)·pitch)/2, +((n-1)·pitch)/2] and its last
    quest is [(n-1)·pitch] to the right of its first. *)
Theorem row_centering (fuel : nat) (data : list Quest)
  (np0 np : JsMap string Position) (r : LayoutResult)
  (level : num) (ids : list string) (i : nat) (k : string) :
  calculateLayout fuel data np0 = Some (np, r) ->
  In (level, ids) (levelGroups r) -> nth_error ids i = Some k ->
  let n := Z.of_nat (length ids) in
  let pitch := nodeSpacingX CONFIG in
  exists pos,
    Map_get String.eqb np k = Some pos /\
    x pos = (- ((n - 1) * pitch)) / 2 + Z.of_nat i * pitch /\
    - (((n - 1) * pitch) / 2) <= x pos <= ((n - 1) * pitch) / 2 /\
    (forall k0 kl p0 pl,
        nth_error ids 0 = Some k0 -> nth_error ids (length ids - 1) = Some kl ->
        Map_get String.eqb np k0 = Some p0 -> Map_get String.eqb np kl = Some pl ->
        x pl - x p0 = (n - 1) * pitch).
Proof.
  intros Hlay Hg Hi n pitch.
  destruct (calculateLayout_inv _ _ _ Hlay) as [st [Hrun [Hgr [_ Hnp]]]].
  rewrite Hgr in Hg, Hnp.
  assert (Hrow : forall j kj, nth_error ids j = Some kj ->
            Map_get String.eqb np kj = Some (rowPosition level (length ids) j)).
  { intros j kj Hj. rewrite Hnp. eapply positions_row; eassumption. }
  exists (rowPosition level (length ids) i). split; [now apply Hrow|].
  assert (Hlt : (i < length ids)%nat) by (apply nth_error_Some; congruence).
  destruct (half_width (n - 1)) as [Hneg Hpos].
  unfold rowPosition, pitch, n in *. simpl nodeSpacingX in *. simpl x.
  split; [reflexivity|]. split.
  - rewrite Hneg, Hpos. lia.
  - intros k0 kl p0 pl H0 Hl Hp0 Hpl.
    rewrite (Hrow _ _ H0) in Hp0. rewrite (Hrow _ _ Hl) in Hpl.
    inversion Hp0. inversion Hpl. simpl. lia.
Qed.

Lemma row_centering_witness :
  exists pos,
    Map_get String.eqb
      [("R", mkPos 0 (Num 0)); ("M1", mkPos (-80) (Num 80));
       ("M2", mkPos 80 (Num 80)); ("F", mkPos 0 (Num 160))]%string "M2"%string
    = Some pos /\
    x pos = (- ((2 - 1) * 160)) / 2 + 1 * 160 /\
    - (((2 - 1) * 160) / 2) <= x pos <= ((2 - 1) * 160) / 2 /\
    (forall k0 kl p0 pl,
        nth_error ["M1"; "M2"]%string 0 = Some k0 ->
        nth_error ["M1"; "M2"]%string 1 = Some kl ->
        Map_get String.eqb
          [("R", mkPos 0 (Num 0)); ("M1", mkPos (-80) (Num 80));
           ("M2", mkPos 80 (Num 80)); ("F", mkPos 0 (Num 160))]%string k0 = Some p0 ->
        Map_get String.eqb
          [("R", mkPos 0 (Num 0)); ("M1", mkPos (-80) (Num 80));
           ("M2", mkPos 80 (Num 80)); ("F", mkPos 0 (Num 160))]%string kl = Some pl ->
        x pl - x p0 = (2 - 1) * 160).
Proof.
  apply (@row_centering 5 diamond [] _ _ (Num 1) ["M1"; "M2"]%string 1
           "M2"%string diamond_layout).
  - simpl. tauto.
  - reflexivity.
Defined.

(* ================================================================== *)
(** ** Vertical placement *)

(** C7. Every position of the result belongs to a quest that has a
    level, and its [y] is that level times [nodeSpacingY]; two quests on
    different levels have different [y]. *)
Theorem vertical_placement (fuel : nat) (data : list Quest)
  (np0 np : JsMap string Position) (r : LayoutResult) :
  calculateLayout fuel data np0 = Some (np, r) ->
  exists st,
    computeLevels fuel data = Some st /\
    (forall k pos, Map_get String.eqb np k = Some pos ->
       exists v, levels_get st k = Some v /\
                 y pos = num_scale v (nodeSpacingY CONFIG)) /\
    (forall k1 k2 v1 v2 p1 p2,
       levels_get st k1 = Some v1 -> levels_get st k2 = Some v2 ->
       Map_get String.eqb np k1 = Some p1 -> Map_get String.eqb np k2 = Some p2 ->
       v1 <> v2 -> y p1 <> y p2).
Proof.
  intros Hlay.
  destruct (calculateLayout_inv _ _ _ Hlay) as [st [Hrun [Hgr [_ Hnp]]]].
  rewrite Hgr in Hnp. exists st. split; [exact Hrun|].
  assert (Hy : forall k v pos, levels_get st k = Some v ->
            Map_get String.eqb np k = Some pos ->
            y pos = num_scale v (nodeSpacingY CONFIG)).
  { intros k v pos Hv Hpos.
    destruct (@positions_level fuel data st Hrun k v Hv)
      as (level & ids & i & _ & _ & _ & Hget).
    rewrite <- Hnp in Hget. rewrite Hget in Hpos. inversion Hpos. reflexivity. }
  split.
  - intros k pos Hpos.
    assert (Hk : has_level st k).
    { apply (@positions_keys st). rewrite <- Hnp.
      apply (Map_get_Some_keys String.eqb_eq). now exists pos. }
    destruct Hk as [v Hv]. exists v. split; [exact Hv | eapply Hy; eassumption].
  - intros k1 k2 v1 v2 p1 p2 H1 H2 Hp1 Hp2 Hne Heq.
    rewrite (Hy _ _ _ H1 Hp1), (Hy _ _ _ H2 Hp2) in Heq.
    apply num_scale_inj in Heq; [contradiction | discriminate].
Qed.

Lemma vertical_placement_witness :
  exists st,
    computeLevels 5 diamond = Some st /\
    (forall k pos,
       Map_get String.eqb
         [("R", mkPos 0 (Num 0)); ("M1", mkPos (-80) (Num 80));
          ("M2", mkPos 80 (Num 80)); ("F", mkPos 0 (Num 160))]%string k = Some pos ->
       exists v, levels_get st k = Some v /\
                 y pos = num_scale v (nodeSpacingY CONFIG)) /\
    (forall k1 k2 v1 v2 p1 p2,
       levels_get st k1 = Some v1 -> levels_get st k2 = Some v2 ->
       Map_get String.eqb
         [("R", mkPos 0 (Num 0)); ("M1", mkPos (-80) (Num 80));
          ("M2", mkPos 80 (Num 80)); ("F", mkPos 0 (Num 160))]%string k1 = Some p1 ->
       Map_get String.eqb
         [("R", mkPos 0 (Num 0)); ("M1", mkPos (-80) (Num 80));
          ("M2", mkPos 80 (Num 80)); ("F", mkPos 0 (Num 160))]%string k2 = Some p2 ->
       v1 <> v2 -> y p1 <> y p2).
Proof.
  apply (@vertical_placement 5 diamond [] _ _ diamond_layout).
Defined.

(* ================================================================== *)
(** ** Determinism *)

(** C8. A second run of [calculateLayout] on the same quest set,
    started from the [nodePositions] left by the first, returns the same
    position mapping, [maxLevel] and groups; and any completed run on
    that quest set, from any [nodePositions] and with any stack bound,
    returns that same result. *)
Theorem layout_deterministic (fuel : nat) (data : list Quest)
  (np0 np1 : JsMap string Position) (r1 : LayoutResult) :
  calculateLayout fuel data np0 = Some (np1, r1) ->
  calculateLayout fuel data np1 = Some (np1, r1) /\
  forall fuel' np' res,
    calculateLayout fuel' data np' = Some res -> res = (np1, r1).
Proof.
  intros H. split; [exact H|].
  intros fuel' np' res H'. unfold calculateLayout in H, H'.
  destruct (computeLevels fuel data) as [st|] eqn:E; [|discriminate].
  destruct (computeLevels fuel' data) as [st'|] eqn:E'; [|discriminate].
  assert (st' = st) by (eapply computeLevels_deterministic; eassumption).
  subst st'. congruence.
Qed.

Lemma layout_deterministic_witness :
  calculateLayout 5 diamond
    [("R", mkPos 0 (Num 0)); ("M1", mkPos (-80) (Num 80));
     ("M2", mkPos 80 (Num 80)); ("F", mkPos 0 (Num 160))]%string =
  Some ([("R", mkPos 0 (Num 0)); ("M1", mkPos (-80) (Num 80));
         ("M2", mkPos 80 (Num 80)); ("F", mkPos 0 (Num 160))]%string,
        {| maxLevel := Num 2;
           levelGroups := [(Num 0, ["R"]); (Num 1, ["M1"; "M2"]);
                           (Num 2, ["F"])]%string |}) /\
  forall fuel' np' res,
    calculateLayout fuel' diamond np' = Some res ->
    res = ([("R", mkPos 0 (Num 0)); ("M1", mkPos (-80) (Num 80));
            ("M2", mkPos 80 (Num 80)); ("F", mkPos 0 (Num 160))]%string,
           {| maxLevel := Num 2;
              levelGroups := [(Num 0, ["R"]); (Num 1, ["M1"; "M2"]);
                              (Num 2, ["F"])]%string |}).
Proof.
  apply (@layout_deterministic 5 diamond [] _ _ diamond_layout).
Defined.

(* ================================================================== *)
(** ** No level at all *)

(** C10. When the computation of the levels completes and no quest has
    a level, [calculateLayout] returns the empty position mapping, no
    group, and [maxLevel = -Infinity]. *)
Theorem no_level_layout (fuel : nat) (data : list Quest)
  (np0 : JsMap string Position) (st : LState) :
  computeLevels fuel data = Some st -> levels st = [] ->
  calculateLayout fuel data np0 =
  Some ([], {| maxLevel := NegInfinity; levelGroups := [] |}).
Proof.
  intros Hrun Hnil. unfold calculateLayout. rewrite Hrun, Hnil. reflexivity.
Qed.

(** The empty quest set, with no stack at all. *)
Lemma no_level_layout_witness :
  calculateLayout 0 [] [] =
  Some ([], {| maxLevel := NegInfinity; levelGroups := [] |}).
Proof.
  apply (@no_level_layout 0 [] [] emptyState); reflexivity.
Defined.

(* ================================================================== *)
(** ** A quest without prerequisites behind a cycle *)

Open Scope string_scope.

Lemma orphan_behind_cycle_diverges (fuel : nat) :
  (forall a b, 0 <= a < b ->
     assignLevel fuel orphan_behind_cycle (mkQuest "A" false ["R"; "B"]) (Num (b + 1))
       (cycle_state a b) = None) /\
  (forall a b, 0 <= b < a ->
     assignLevel fuel orphan_behind_cycle (mkQuest "B" false ["A"]) (Num (a + 1))
       (cycle_state a b) = None).
Proof.
  induction fuel as [|fuel [IHA IHB]]; [split; reflexivity|].
  split; intros a b Hab; rewrite assignLevel_S.
  - assert (G : already_at_least (cycle_state a b) (mkQuest "A" false ["R"; "B"])
                  (Num (b + 1)) = false).
    { unfold already_at_least. cbn. apply Z.leb_gt. lia. }
    rewrite G.
    change (childrenOf orphan_behind_cycle (mkQuest "A" false ["R"; "B"]))
      with [mkQuest "B" false ["A"]].
    change (record_level (cycle_state a b) (mkQuest "A" false ["R"; "B"]) (Num (b + 1)))
      with (cycle_state (b + 1) b).
    rewrite forEachM_cons.
    change (prereqLevels (cycle_state (b + 1) b) (mkQuest "B" false ["A"]))
      with [Num (b + 1)].
    cbn [length Nat.eqb prerequisites Math_max fold_right num_max num_succ].
    rewrite IHB; [reflexivity | lia].
  - assert (G : already_at_least (cycle_state a b) (mkQuest "B" false ["A"])
                  (Num (a + 1)) = false).
    { unfold already_at_least. cbn. apply Z.leb_gt. lia. }
    rewrite G.
    change (childrenOf orphan_behind_cycle (mkQuest "B" false ["A"]))
      with [mkQuest "A" false ["R"; "B"]].
    change (record_level (cycle_state a b) (mkQuest "B" false ["A"]) (Num (a + 1)))
      with (cycle_state a (a + 1)).
    rewrite forEachM_cons.
    change (prereqLevels (cycle_state a (a + 1)) (mkQuest "A" false ["R"; "B"]))
      with [Num 0; Num (a + 1)].
    cbn [length Nat.eqb prerequisites Math_max fold_right num_max num_succ].
    replace (Z.max 0 (a + 1)) with (a + 1) by lia.
    rewrite IHA; [reflexivity | lia].
Qed.

Lemma orphan_behind_cycle_pass (fuel : nat) :
  sweepPass (S fuel) orphan_behind_cycle root_only = None.
Proof.
  assert (HA : assignLevel (S fuel) orphan_behind_cycle (mkQuest "A" false ["R"; "B"])
                 (Num 1) root_only = None).
  { rewrite assignLevel_S. cbn -[assignLevel].
    destruct fuel as [|fuel]; [reflexivity|].
    rewrite assignLevel_S. cbn -[assignLevel].
    change (record_level _ _ (Num 2)) with (cycle_state 1 2).
    change (Num 3) with (Num (2 + 1)).
    rewrite (proj1 (orphan_behind_cycle_diverges fuel) 1 2); [reflexivity | lia]. }
  unfold sweepPass. unfold orphan_behind_cycle at 1.
  rewrite forEachM_cons.
  change (sweepStep (S fuel) orphan_behind_cycle (mkQuest "R" true []) root_only)
    with (Some root_only).
  cbv beta iota. rewrite forEachM_cons.
  change (sweepStep (S fuel) orphan_behind_cycle (mkQuest "A" false ["R"; "B"]) root_only)
    with (assignLevel (S fuel) orphan_behind_cycle (mkQuest "A" false ["R"; "B"])
            (Num 1) root_only).
  now rewrite HA.
Qed.

(** C5 fails on [orphan_behind_cycle], by the unbounded recursion shown
    on [rooted_cycle].  The
    propagation from the roots seeds the milestone [R] alone, at level 0,
    and leaves [N], which has no prerequisites and is not a milestone,
    without a level, as the claim says.  But the fallback sweep reaches
    [A] before [N] and never returns from it, whatever the stack bound:
    [calculateLayout] returns nothing and [N] never reaches level 0. *)
Theorem orphan_behind_cycle_never_swept (fuel : nat) (np : JsMap string Position) :
  processRoots (S fuel) orphan_behind_cycle emptyState = Some root_only /\
  levels_get root_only "R" = Some (Num 0) /\
  levels_get root_only "N" = None /\
  fallbackSweep (S fuel) orphan_behind_cycle 10 root_only = None /\
  calculateLayout fuel orphan_behind_cycle np = None.
Proof.
  assert (Hsweep : forall f, fallbackSweep (S f) orphan_behind_cycle 10 root_only = None).
  { intros f.
    change (fallbackSweep (S f) orphan_behind_cycle 10 root_only)
      with (match sweepPass (S f) orphan_behind_cycle root_only with
            | Some st' => fallbackSweep (S f) orphan_behind_cycle 9 st'
            | None => None
            end).
    now rewrite orphan_behind_cycle_pass. }
  split; [reflexivity|]. split; [reflexivity|]. split; [reflexivity|].
  split; [apply Hsweep|].
  unfold calculateLayout.
  assert (E : computeLevels fuel orphan_behind_cycle = None); [|now rewrite E].
  destruct fuel as [|f]; [reflexivity|].
  unfold computeLevels.
  change (processRoots (S f) orphan_behind_cycle emptyState) with (Some root_only).
  cbv beta iota. apply Hsweep.
Qed.

Close Scope string_scope.

(** On acyclic data with unique ids the sweep completes too, and the
    quests without prerequisites that are not milestones all end at
    level 0. *)
Lemma root_seeding_acyclic (data : list Quest) :
  NoDup (map id data) -> acyclic data ->
  exists depth, forall fuel, (depth <= fuel)%nat ->
    exists s1 st,
      processRoots fuel data emptyState = Some s1 /\
      fallbackSweep fuel data 10 s1 = Some st /\
      (forall q, In q data ->
                 (levels_get s1 (id q) = Some (Num 0) <-> is_root q)) /\
      (forall q, In q data -> prerequisites q = [] -> unlockMilestone q = false ->
                 levels_get s1 (id q) = None /\ levels_get st (id q) = Some (Num 0)).
Proof.
  intros Hnd [rk Hrk]. destruct (acyclic_bound data rk) as [bound Hbound].
  exists bound. intros fuel Hfuel.
  destruct (@computeLevels_terminates data rk bound Hrk Hbound fuel Hfuel) as [st Hrun].
  unfold computeLevels in Hrun.
  destruct (processRoots fuel data emptyState) as [s1|] eqn:E; [|discriminate].
  exists s1, st. split; [reflexivity|]. split; [exact Hrun|].
  destruct (@root_seeding_levels fuel data s1 Hnd E) as [H1 H2].
  split; [exact H1|]. intros q Hq Hnil Hms.
  destruct (H2 q Hq Hnil Hms) as [Hnone Hst]. split; [exact Hnone | now apply Hst].
Qed.

(* ================================================================== *)
(** * Further properties of the code *)

(* ================================================================== *)
(** ** The quest index *)

Lemma questMap_fold_get (data : list Quest) :
  forall (m : JsMap string Quest) k q,
    Map_get String.eqb
      (fold_left (fun m q => Map_set String.eqb m (id q) q) data m) k = Some q ->
    (In q data /\ id q = k) \/ Map_get String.eqb m k = Some q.
Proof.
  induction data as [|a data IH]; simpl; intros m k q H; [now right|].
  destruct (IH _ _ _ H) as [[Hin E]|Hm]; [left; split; [now right | exact E]|].
  destruct (string_dec (id a) k) as [E|Hne].
  - subst k. rewrite (Map_get_set_same String.eqb_eq) in Hm. inversion Hm. subst.
    left. split; [now left | reflexivity].
  - rewrite (Map_get_set_other String.eqb_eq) in Hm by exact Hne. now right.
Qed.

Lemma questMap_fold_other (data : list Quest) :
  forall (m : JsMap string Quest) k,
    ~ In k (map id data) ->
    Map_get String.eqb
      (fold_left (fun m q => Map_set String.eqb m (id q) q) data m) k =
    Map_get String.eqb m k.
Proof.
  induction data as [|a data IH]; simpl; intros m k H; [reflexivity|].
  rewrite IH by tauto. apply Map_get_set_other; [apply String.eqb_eq | tauto].
Qed.

Lemma questMap_fold_keys (data : list Quest) :
  forall (m : JsMap string Quest) k,
    In k (Map_keys (fold_left (fun m q => Map_set String.eqb m (id q) q) data m)) <->
    In k (Map_keys m) \/ In k (map id data).
Proof.
  induction data as [|a data IH]; simpl; intros m k; [tauto|].
  rewrite IH, (Map_keys_set_In String.eqb_eq). intuition congruence.
Qed.

Lemma questMap_known (data : list Quest) (k : string) :
  known (buildQuestMap data) k <-> In k (map id data).
Proof.
  unfold known, buildQuestMap.
  rewrite (Map_get_Some_keys String.eqb_eq), questMap_fold_keys. simpl. tauto.
Qed.

(** X1. A lookup in the quest index returns a quest of the dataset that
    carries the id looked up, and it returns nothing exactly for the ids
    that no quest of the dataset carries. *)
Theorem questMap_lookup (data : list Quest) (k : string) :
  (forall q, Map_get String.eqb (buildQuestMap data) k = Some q ->
             In q data /\ id q = k) /\
  (Map_get String.eqb (buildQuestMap data) k = None <-> ~ In k (map id data)).
Proof.
  split.
  - intros q H. unfold buildQuestMap in H.
    destruct (questMap_fold_get _ _ _ H) as [Hq|Hm]; [exact Hq | discriminate].
  - rewrite <- questMap_known. unfold known.
    destruct (Map_get String.eqb (buildQuestMap data) k) as [q|].
    + split; [discriminate|]. intros H. exfalso. apply H. now exists q.
    + split; [intros _ [q H]; discriminate | reflexivity].
Qed.

Lemma questMap_get_last (l1 l2 : list Quest) (q : Quest) :
  ~ In (id q) (map id l2) ->
  Map_get String.eqb (buildQuestMap (l1 ++ q :: l2)) (id q) = Some q.
Proof.
  intros H. unfold buildQuestMap. rewrite fold_left_app. simpl.
  rewrite questMap_fold_other by exact H.
  apply Map_get_set_same, String.eqb_eq.
Qed.

(** X2. When several quests carry the same id, the index holds the last
    of them. *)
Theorem questMap_last_wins (l1 l2 : list Quest) (q : Quest) :
  ~ In (id q) (map id l2) ->
  Map_get String.eqb (buildQuestMap (l1 ++ q :: l2)) (id q) = Some q.
Proof. apply questMap_get_last. Qed.

Lemma questMap_unique_get (data : list Quest) (q : Quest) :
  NoDup (map id data) -> In q data ->
  Map_get String.eqb (buildQuestMap data) (id q) = Some q.
Proof.
  intros Hnd Hq. apply in_split in Hq. destruct Hq as [l1 [l2 ->]].
  apply questMap_get_last. rewrite map_app in Hnd. simpl in Hnd.
  apply NoDup_remove_2 in Hnd. intros H. apply Hnd. apply in_or_app. now right.
Qed.

Lemma questMap_last_wins_witness :
  Map_get String.eqb
    (buildQuestMap ([mkQuest "A"%string true []] ++ mkQuest "A"%string false ["B"%string] :: [mkQuest "B"%string false []]))
    "A"%string = Some (mkQuest "A"%string false ["B"%string]).
Proof.
  apply (@questMap_last_wins [mkQuest "A"%string true []] [mkQuest "B"%string false []]
           (mkQuest "A"%string false ["B"%string])).
  simpl. intuition discriminate.
Defined.

(** X3. With unique ids the index gives every quest of the dataset back
    under its own id. *)
Theorem questMap_unique (data : list Quest) (q : Quest) :
  NoDup (map id data) -> In q data ->
  Map_get String.eqb (buildQuestMap data) (id q) = Some q.
Proof. apply questMap_unique_get. Qed.

Lemma questMap_unique_witness :
  Map_get String.eqb (buildQuestMap diamond) "F"%string = Some (mkQuest "F"%string false ["M1"%string; "M2"%string]).
Proof.
  apply (@questMap_unique diamond (mkQuest "F"%string false ["M1"%string; "M2"%string])).
  - distinct_ids.
  - simpl. tauto.
Defined.

(* ================================================================== *)
(** ** The ancestors of a quest *)

Lemma ancestor_known_l (qm : JsMap string Quest) a k :
  ancestor qm a k -> known qm a.
Proof. induction 1; assumption. Qed.

Lemma ancestor_known_r (qm : JsMap string Quest) a k :
  ancestor qm a k -> known qm k.
Proof. induction 1; assumption. Qed.

Lemma ancestor_trans (qm : JsMap string Quest) a b c :
  ancestor qm a b -> ancestor qm b c -> ancestor qm a c.
Proof.
  intros Hab Hbc. induction Hbc as [k Hk | b k quest p Hbk IH Hget Hp Hkp].
  - exact Hab.
  - eapply anc_step; [apply IH; exact Hab | exact Hget | exact Hp | exact Hkp].
Qed.

Lemma walked_refl (qm : JsMap string Quest) (st : WalkState) :
  walked qm [] st st.
Proof.
  exists []. rewrite app_nil_r.
  split; [reflexivity|]. split; [apply incl_refl|]. split; [intros k []|].
  split; [constructor|]. split; [intros k []|].
  split; [intros k Hin Hnin; contradiction | intros k q p []].
Qed.

Lemma walked_seq (qm : JsMap string Quest) a ps st s1 s2 :
  walked qm [a] st s1 -> walked qm ps s1 s2 -> walked qm (a :: ps) st s2.
Proof.
  intros (f1 & Hp1 & Hv1 & Hs1 & Hn1 & Hc1 & Hd1 & Hf1)
         (f2 & Hp2 & Hv2 & Hs2 & Hn2 & Hc2 & Hd2 & Hf2).
  exists (f1 ++ f2). split; [rewrite Hp2, Hp1; now rewrite app_assoc|].
  split; [eapply incl_tran; eassumption|]. split.
  { intros k [<-|Hk]; [apply Hv2, Hs1; now left | now apply Hs2]. }
  split.
  { apply NoDup_app; [exact Hn1 | exact Hn2|].
    intros k Hk1 Hk2. destruct (Hc1 k Hk1) as [_ [Hin _]].
    destruct (Hc2 k Hk2) as [Hnin _]. contradiction. }
  split.
  { intros k Hk. apply in_app_or in Hk. destruct Hk as [Hk|Hk].
    - destruct (Hc1 k Hk) as [Hnin [Hin [s [Hs Ha]]]].
      split; [exact Hnin|]. split; [now apply Hv2|].
      exists s. split; [|exact Ha]. destruct Hs as [<-|[]]. now left.
    - destruct (Hc2 k Hk) as [Hnin [Hin [s [Hs Ha]]]].
      split; [intros H; apply Hnin; now apply Hv1|]. split; [exact Hin|].
      exists s. split; [now right | exact Ha]. }
  split.
  { intros k Hin Hnin Hk. apply in_or_app.
    destruct (in_dec string_dec k (visited s1)) as [H1|H1].
    - left. now apply Hd1.
    - right. now apply Hd2. }
  intros k quest p Hk Hget Hp. apply in_app_or in Hk. destruct Hk as [Hk|Hk].
  - apply Hv2. eapply Hf1; eassumption.
  - eapply Hf2; eassumption.
Qed.

Lemma walk_walked (qm : JsMap string Quest) :
  forall fuel qid st st',
    walk fuel qm qid st = Some st' -> walked qm [qid] st st'.
Proof.
  induction fuel as [|fuel IH]; simpl; intros qid st st' H; [discriminate|].
  destruct (Set_has (visited st) qid) eqn:Hvis.
  { inversion H. subst. apply Set_has_In in Hvis.
    exists []. rewrite app_nil_r.
    split; [reflexivity|]. split; [apply incl_refl|].
    split; [intros k [<-|[]]; exact Hvis|].
    split; [constructor|]. split; [intros k []|].
    split; [intros k Hin Hnin; contradiction | intros k q p []]. }
  assert (Hnvis : ~ In qid (visited st)).
  { intros Hin. apply Set_has_In in Hin. congruence. }
  destruct (Map_get String.eqb qm qid) as [quest|] eqn:Hget.
  2:{ inversion H. subst. exists []. simpl. rewrite app_nil_r.
      split; [reflexivity|].
      split; [intros k Hk; apply Set_add_In; now right|].
      split; [intros k [<-|[]]; apply Set_add_In; now left|].
      split; [constructor|]. split; [intros k []|]. split; [|intros k q p []].
      intros k Hk Hnk [q Hq]. apply Set_add_In in Hk. destruct Hk as [->|Hk];
        [congruence | contradiction]. }
  set (st1 := {| path := path st; visited := Set_add (visited st) qid |}) in *.
  destruct (forEachM (prerequisites quest) (walk fuel qm) st1) as [st2|] eqn:Hloop;
    [|discriminate].
  inversion H. subst st'. clear H.
  assert (Hw : forall ps s s', forEachM ps (walk fuel qm) s = Some s' ->
                               walked qm ps s s').
  { induction ps as [|p ps IHps]; simpl; intros s s' Hs.
    - inversion Hs. subst. apply walked_refl.
    - destruct (walk fuel qm p s) as [s1|] eqn:E; [|discriminate].
      eapply walked_seq; [apply IH; exact E | apply IHps; exact Hs]. }
  destruct (Hw _ _ _ Hloop) as (f2 & Hp2 & Hv2 & Hs2 & Hn2 & Hc2 & Hd2 & Hf2).
  assert (Hq1 : In qid (visited st1)) by (apply Set_add_In; now left).
  assert (Hinc1 : incl (visited st) (visited st1)).
  { intros k Hk. apply Set_add_In. now right. }
  assert (Hkq : known qm qid) by (now exists quest).
  exists (f2 ++ [qid]). simpl.
  split; [rewrite Hp2; simpl; now rewrite app_assoc|].
  split; [eapply incl_tran; eassumption|].
  split; [intros k [<-|[]]; now apply Hv2|].
  split.
  { apply NoDup_app; [exact Hn2 | repeat constructor; intros []|].
    intros k Hk [E|[]]. subst k. destruct (Hc2 qid Hk) as [Hnin _]. contradiction. }
  split.
  { intros k Hk. apply in_app_or in Hk. destruct Hk as [Hk|[<-|[]]].
    - destruct (Hc2 k Hk) as [Hnin [Hin [s [Hs Ha]]]].
      split; [intros Hk0; apply Hnin; now apply Hinc1|]. split; [exact Hin|].
      exists qid. split; [now left|].
      eapply ancestor_trans; [|exact Ha].
      eapply anc_step; [apply anc_self; exact Hkq | exact Hget | exact Hs|].
      eapply ancestor_known_l; exact Ha.
    - split; [exact Hnvis|]. split; [now apply Hv2|].
      exists qid. split; [now left | now apply anc_self]. }
  split.
  { intros k Hin Hnin Hk. apply in_or_app.
    destruct (string_dec k qid) as [->|Hne]; [right; now left | left].
    apply Hd2; [exact Hin | | exact Hk].
    intros Hk1. apply Set_add_In in Hk1. destruct Hk1 as [->|Hk1]; contradiction. }
  intros k q p Hk Hgk Hp. apply in_app_or in Hk. destruct Hk as [Hk|[<-|[]]].
  - eapply Hf2; eassumption.
  - rewrite Hget in Hgk. inversion Hgk. subst q. now apply Hs2.
Qed.

(** *** Termination *)

Lemma filter_count_le (A : Type) (f g : A -> bool) (l : list A) :
  (forall a, In a l -> g a = true -> f a = true) ->
  (length (filter g l) <= length (filter f l))%nat.
Proof.
  induction l as [|a l IH]; simpl; intros H; [lia|].
  assert (IH' : (length (filter g l) <= length (filter f l))%nat).
  { apply IH. intros b Hb. apply H. now right. }
  destruct (g a) eqn:G.
  - rewrite (H a (or_introl eq_refl) G). simpl. lia.
  - destruct (f a); simpl; lia.
Qed.

Lemma filter_count_lt (A : Type) (f g : A -> bool) (l : list A) (x : A) :
  (forall a, In a l -> g a = true -> f a = true) ->
  In x l -> f x = true -> g x = false ->
  (length (filter g l) < length (filter f l))%nat.
Proof.
  induction l as [|a l IH]; simpl; intros H Hx Hf Hg; [contradiction|].
  assert (Hle : (length (filter g l) <= length (filter f l))%nat).
  { apply filter_count_le. intros b Hb. apply H. now right. }
  destruct Hx as [->|Hx].
  - rewrite Hf, Hg. simpl. lia.
  - assert (IH' : (length (filter g l) < length (filter f l))%nat).
    { apply IH; try assumption. intros b Hb. apply H. now right. }
    destruct (g a) eqn:G.
    + rewrite (H a (or_introl eq_refl) G). simpl. lia.
    + destruct (f a); simpl; lia.
Qed.

Lemma unvisited_mono (qm : JsMap string Quest) (s s' : WalkState) :
  incl (visited s) (visited s') ->
  (length (unvisited qm s') <= length (unvisited qm s))%nat.
Proof.
  intros Hinc. unfold unvisited. apply filter_count_le.
  intros k _ Hk. apply negb_true_iff in Hk. apply negb_true_iff.
  destruct (Set_has (visited s) k) eqn:E; [|reflexivity].
  apply Set_has_In in E. apply Hinc in E. apply Set_has_In in E. congruence.
Qed.

Lemma unvisited_add (qm : JsMap string Quest) (s : WalkState) (k : string) :
  known qm k -> ~ In k (visited s) ->
  (length (unvisited qm {| path := path s; visited := Set_add (visited s) k |})
   < length (unvisited qm s))%nat.
Proof.
  intros Hk Hnin. unfold unvisited. simpl.
  apply filter_count_lt with (x := k).
  - intros a _ Ha. apply negb_true_iff in Ha. apply negb_true_iff.
    destruct (Set_has (visited s) a) eqn:E; [|reflexivity].
    apply Set_has_In in E.
    assert (Hin : In a (Set_add (visited s) k)) by (apply Set_add_In; now right).
    apply Set_has_In in Hin. congruence.
  - now apply (Map_get_Some_keys String.eqb_eq).
  - apply negb_true_iff. destruct (Set_has (visited s) k) eqn:E; [|reflexivity].
    apply Set_has_In in E. contradiction.
  - apply negb_false_iff. apply Set_has_In, Set_add_In. now left.
Qed.

Lemma walk_terminates (qm : JsMap string Quest) :
  forall fuel qid st,
    (length (unvisited qm st) < fuel)%nat ->
    exists st', walk fuel qm qid st = Some st' /\ incl (visited st) (visited st').
Proof.
  induction fuel as [|fuel IH]; intros qid st Hm; [lia|]. simpl.
  destruct (Set_has (visited st) qid) eqn:Hvis.
  { exists st. split; [reflexivity | apply incl_refl]. }
  assert (Hnvis : ~ In qid (visited st)).
  { intros Hin. apply Set_has_In in Hin. congruence. }
  set (st1 := {| path := path st; visited := Set_add (visited st) qid |}).
  assert (Hinc1 : incl (visited st) (visited st1)).
  { intros k Hk. apply Set_add_In. now right. }
  destruct (Map_get String.eqb qm qid) as [quest|] eqn:Hget.
  2:{ exists st1. split; [reflexivity | exact Hinc1]. }
  assert (Hm1 : (length (unvisited qm st1) < fuel)%nat).
  { assert (length (unvisited qm st1) < length (unvisited qm st))%nat; [|lia].
    apply unvisited_add; [now exists quest | exact Hnvis]. }
  assert (Hloop : forall ps s, incl (visited st1) (visited s) ->
            exists s', forEachM ps (walk fuel qm) s = Some s' /\
                       incl (visited s) (visited s')).
  { induction ps as [|p ps IHps]; simpl; intros s Hs.
    - exists s. split; [reflexivity | apply incl_refl].
    - destruct (IH p s) as [s1 [E Hinc]].
      + pose proof (@unvisited_mono qm st1 s Hs). lia.
      + rewrite E. destruct (IHps s1) as [s' [E' Hinc']].
        * eapply incl_tran; eassumption.
        * exists s'. split; [exact E' | eapply incl_tran; eassumption]. }
  destruct (Hloop (prerequisites quest) st1 (incl_refl _)) as [s2 [E Hinc2]].
  rewrite E. eexists. split; [reflexivity|]. simpl.
  eapply incl_tran; eassumption.
Qed.

Lemma unvisited_le (qm : JsMap string Quest) (st : WalkState) :
  (length (unvisited qm st) <= length qm)%nat.
Proof.
  unfold unvisited. rewrite <- (length_map fst qm). apply List.filter_length_le.
Qed.

Lemma getAncestorPath_sound (qm : JsMap string Quest) (qid : string) (fuel : nat) p :
  getAncestorPath fuel qm qid = Some p ->
  NoDup p /\ (forall k, In k p <-> ancestor qm qid k).
Proof.
  unfold getAncestorPath.
  destruct (walk fuel qm qid {| path := []; visited := [] |}) as [st'|] eqn:E;
    [|discriminate].
  intros H. inversion H. subst p. clear H.
  destruct (walk_walked _ _ _ _ E) as (fresh & Hp & Hv & Hs & Hn & Hc & Hd & Hf).
  simpl in Hp. rewrite Hp. split; [exact Hn|]. intros k. split.
  - intros Hk. destruct (Hc k Hk) as [_ [_ [s [[<-|[]] Ha]]]]. exact Ha.
  - intros Ha. induction Ha as [k Hk | a k quest p Hak IH Hget Hp' Hkp].
    + apply Hd; [apply Hs; now left | intros [] | exact Hk].
    + apply Hd; [|intros [] | exact Hkp].
      eapply Hf; [apply IH; assumption | exact Hget | exact Hp'].
Qed.

Lemma getAncestorPath_spec (qm : JsMap string Quest) (qid : string) (fuel : nat) :
  (length qm < fuel)%nat ->
  exists p, getAncestorPath fuel qm qid = Some p /\
            NoDup p /\ (forall k, In k p <-> ancestor qm qid k).
Proof.
  intros Hfuel.
  destruct (@walk_terminates qm fuel qid {| path := []; visited := [] |})
    as [st' [E _]].
  { pose proof (unvisited_le qm {| path := []; visited := [] |}). lia. }
  exists (path st'). split; [unfold getAncestorPath; now rewrite E|].
  apply (@getAncestorPath_sound qm qid fuel). unfold getAncestorPath. now rewrite E.
Qed.

(** X4. [getAncestorPath] returns on every quest index, cyclic
    prerequisites included: the [visited] set stops the walk, and the
    stack never gets deeper than the number of indexed quests plus
    one. *)
Theorem getAncestorPath_total (qm : JsMap string Quest) (qid : string) (fuel : nat) :
  (length qm < fuel)%nat -> exists p, getAncestorPath fuel qm qid = Some p.
Proof.
  intros Hfuel. destruct (getAncestorPath_spec qm qid Hfuel) as [p [E _]]. eauto.
Qed.

Lemma getAncestorPath_total_witness :
  exists p, getAncestorPath 3 (buildQuestMap pure_cycle) "A"%string = Some p.
Proof.
  apply (@getAncestorPath_total (buildQuestMap pure_cycle) "A"%string 3).
  simpl. lia.
Defined.

(** X5. The returned path holds exactly the selected quest and the
    quests it reaches along prerequisites through indexed quests; ids
    that the index does not know are left out, and so is everything when
    the selected id itself is unknown. *)
Theorem ancestor_path_exact (qm : JsMap string Quest) (qid : string) (fuel : nat) :
  (length qm < fuel)%nat ->
  exists p, getAncestorPath fuel qm qid = Some p /\
            forall k, In k p <-> ancestor qm qid k.
Proof.
  intros Hfuel. destruct (getAncestorPath_spec qm qid Hfuel) as [p [E [_ H]]]. eauto.
Qed.

Lemma ancestor_path_exact_witness :
  exists p, getAncestorPath 5 (buildQuestMap diamond) "F"%string = Some p /\
            forall k, In k p <-> ancestor (buildQuestMap diamond) "F"%string k.
Proof.
  apply (@ancestor_path_exact (buildQuestMap diamond) "F"%string 5).
  simpl. lia.
Defined.

(** X6. No id occurs twice in the returned path, also when a quest is
    reached along several prerequisite chains or lies on a cycle. *)
Theorem ancestor_path_distinct (qm : JsMap string Quest) (qid : string) (fuel : nat) :
  (length qm < fuel)%nat ->
  exists p, getAncestorPath fuel qm qid = Some p /\ NoDup p.
Proof.
  intros Hfuel. destruct (getAncestorPath_spec qm qid Hfuel) as [p [E [H _]]]. eauto.
Qed.

Lemma ancestor_path_distinct_witness :
  exists p, getAncestorPath 5 (buildQuestMap diamond) "F"%string = Some p /\ NoDup p.
Proof.
  apply (@ancestor_path_distinct (buildQuestMap diamond) "F"%string 5).
  simpl. lia.
Defined.

(** X7. The path of an indexed quest ends with that quest, after all
    its ancestors; the path of an id that is not indexed is empty. *)
Theorem ancestor_path_last (qm : JsMap string Quest) (qid : string) (fuel : nat) :
  (length qm < fuel)%nat ->
  exists p, getAncestorPath fuel qm qid = Some p /\
            (known qm qid -> exists rest, p = rest ++ [qid]) /\
            (~ known qm qid -> p = []).
Proof.
  intros Hfuel. destruct (getAncestorPath_spec qm qid Hfuel) as [p [E _]].
  exists p. split; [exact E|].
  unfold getAncestorPath in E. destruct fuel as [|fuel]; [discriminate|].
  simpl in E. destruct (Map_get String.eqb qm qid) as [quest|] eqn:Hget.
  - destruct (forEachM (prerequisites quest) (walk fuel qm) _) as [st2|];
      [|discriminate].
    inversion E. simpl. split; [eauto|]. intros H. exfalso. apply H. now exists quest.
  - inversion E. simpl. split; [|reflexivity]. intros [q Hq]. congruence.
Qed.

Lemma ancestor_path_last_witness :
  exists p, getAncestorPath 5 (buildQuestMap diamond) "F"%string = Some p /\
            (known (buildQuestMap diamond) "F"%string ->
             exists rest, p = rest ++ ["F"%string]) /\
            (~ known (buildQuestMap diamond) "F"%string -> p = []).
Proof.
  apply (@ancestor_path_last (buildQuestMap diamond) "F"%string 5).
  simpl. lia.
Defined.

Example diamond_ancestors :
  getAncestorPath 5 (buildQuestMap diamond) "F"%string =
  Some ["R"; "M1"; "M2"; "F"]%string /\
  getAncestorPath 3 (buildQuestMap pure_cycle) "A"%string = Some ["B"; "A"]%string /\
  getAncestorPath 1 (buildQuestMap diamond) "nowhere"%string = Some [].
Proof. repeat split; vm_compute; reflexivity. Qed.

(* ================================================================== *)
(** ** The rendered graph *)

Lemma renderNodes_In (data : list Quest) (np : JsMap string Position) (n : NodeEl) :
  In n (renderNodes data np) <->
  exists q pos, In q data /\ Map_get String.eqb np (id q) = Some pos /\
                n = mkNode (id q) pos (if unlockMilestone q then 10 else nodeRadius).
Proof.
  unfold renderNodes. rewrite in_flat_map. split.
  - intros [q [Hq Hn]]. destruct (Map_get String.eqb np (id q)) as [pos|] eqn:E;
      [|destruct Hn]. destruct Hn as [<-|[]]. exists q, pos. tauto.
  - intros [q [pos [Hq [E ->]]]]. exists q. split; [exact Hq|]. rewrite E. now left.
Qed.

Lemma renderLinks_In (data : list Quest) (np : JsMap string Position) (l : LinkEl) :
  In l (renderLinks data np) <->
  exists q p from to,
    In q data /\ In p (prerequisites q) /\
    Map_get String.eqb np p = Some from /\
    Map_get String.eqb np (id q) = Some to /\
    l = mkLink p (id q) (from, to).
Proof.
  unfold renderLinks. rewrite in_flat_map. split.
  - intros [q [Hq Hl]]. apply in_flat_map in Hl. destruct Hl as [p [Hp Hl]].
    destruct (Map_get String.eqb np p) as [from|] eqn:E1; [|destruct Hl].
    destruct (Map_get String.eqb np (id q)) as [to|] eqn:E2; [|destruct Hl].
    destruct Hl as [<-|[]]. exists q, p, from, to. tauto.
  - intros (q & p & from & to & Hq & Hp & E1 & E2 & ->).
    exists q. split; [exact Hq|]. apply in_flat_map. exists p. split; [exact Hp|].
    rewrite E1, E2. now left.
Qed.

Lemma setupGraph_inv fuel data np0 np links nodes :
  setupGraph fuel data np0 = Some (np, links, nodes) ->
  exists r, calculateLayout fuel data np0 = Some (np, r) /\
            links = renderLinks data np /\ nodes = renderNodes data np.
Proof.
  unfold setupGraph. destruct (calculateLayout fuel data np0) as [[np' r]|];
    [|discriminate].
  intros H. inversion H. subst. exists r. tauto.
Qed.

Lemma flat_map_length_le (A B : Type) (f : A -> list B) (l : list A) (c : A -> nat) :
  (forall a, In a l -> (length (f a) <= c a)%nat) ->
  (length (flat_map f l) <= fold_left (fun n a => (n + c a)%nat) l 0%nat)%nat.
Proof.
  assert (H : forall l n, fold_left (fun n a => (n + c a)%nat) l n =
                          (n + fold_left (fun n a => (n + c a)%nat) l 0)%nat).
  { clear l. induction l as [|a l IH]; simpl; intros n; [lia|].
    rewrite IH, (IH (c a)). lia. }
  induction l as [|a l IH]; simpl; intros Hc; [lia|].
  rewrite length_app, H.
  pose proof (Hc a (or_introl eq_refl)).
  assert ((length (flat_map f l) <= fold_left (fun n a => (n + c a)%nat) l 0%nat)%nat).
  { apply IH. intros b Hb. apply Hc. now right. }
  lia.
Qed.

Lemma flat_map_length_eq (A B : Type) (f : A -> list B) (l : list A) (c : A -> nat) :
  (forall a, In a l -> length (f a) = c a) ->
  length (flat_map f l) = fold_left (fun n a => (n + c a)%nat) l 0%nat.
Proof.
  assert (H : forall l n, fold_left (fun n a => (n + c a)%nat) l n =
                          (n + fold_left (fun n a => (n + c a)%nat) l 0)%nat).
  { clear l. induction l as [|a l IH]; simpl; intros n; [lia|].
    rewrite IH, (IH (c a)). lia. }
  induction l as [|a l IH]; simpl; intros Hc; [lia|].
  rewrite length_app, H, (Hc a (or_introl eq_refl)).
  rewrite IH; [lia|]. intros b Hb. apply Hc. now right.
Qed.

Lemma fold_count_one (A : Type) (l : list A) :
  fold_left (fun n (_ : A) => (n + 1)%nat) l 0%nat = length l.
Proof.
  assert (H : forall l n, fold_left (fun n (_ : A) => (n + 1)%nat) l n = (n + length l)%nat).
  { clear l. induction l as [|a l IH]; simpl; intros n; [lia|]. rewrite IH. lia. }
  now rewrite H.
Qed.

(** X8. The graph never shows more than the statistics count: the nodes
    drawn are at most [questCount] and the links drawn at most
    [linkCount], whatever the position mapping. *)
Theorem stats_bound_rendering (data : list Quest) (np : JsMap string Position) :
  (length (renderNodes data np) <= fst (updateStats data))%nat /\
  (length (renderLinks data np) <= snd (updateStats data))%nat.
Proof.
  unfold updateStats, renderNodes, renderLinks. simpl. split.
  - rewrite <- (fold_count_one data). apply flat_map_length_le.
    intros q _. destruct (Map_get String.eqb np (id q)); simpl; lia.
  - apply flat_map_length_le. intros q _.
    rewrite <- (fold_count_one (prerequisites q)). apply flat_map_length_le.
    intros p _. destruct (Map_get String.eqb np p); [|simpl; lia].
    destruct (Map_get String.eqb np (id q)); simpl; lia.
Qed.

(** X9. Every link drawn joins two nodes that are drawn, at the
    positions of those nodes: there is no link to a missing node, also
    when prerequisites name unknown quests or quests that were not
    placed. *)
Theorem links_join_nodes fuel data np0 np links nodes (l : LinkEl) :
  setupGraph fuel data np0 = Some (np, links, nodes) ->
  In l links ->
  exists n1 n2,
    In n1 nodes /\ In n2 nodes /\
    node_id n1 = link_from l /\ node_id n2 = link_to l /\
    link_ends l = (node_pos n1, node_pos n2).
Proof.
  intros Hset Hl.
  destruct (@setupGraph_inv fuel data np0 np links nodes Hset) as [r [Hlay [-> ->]]].
  apply renderLinks_In in Hl.
  destruct Hl as (q & p & from & to & Hq & Hp & E1 & E2 & ->).
  destruct (@positions_sound fuel data np0 np r Hlay) as [_ [Hincl _]].
  assert (Hpin : In p (map id data)).
  { apply Hincl. apply (Map_get_Some_keys String.eqb_eq). now exists from. }
  apply in_map_iff in Hpin. destruct Hpin as [q' [E Hq']]. subst p.
  exists (mkNode (id q') from (if unlockMilestone q' then 10 else nodeRadius)),
         (mkNode (id q) to (if unlockMilestone q then 10 else nodeRadius)).
  split; [apply renderNodes_In; exists q', from; tauto|].
  split; [apply renderNodes_In; exists q, to; tauto|].
  simpl. tauto.
Qed.

Lemma links_join_nodes_witness :
  exists n1 n2,
    In n1 (renderNodes diamond diamond_positions) /\
    In n2 (renderNodes diamond diamond_positions) /\
    node_id n1 = "M1"%string /\ node_id n2 = "F"%string /\
    (mkPos (-80) (Num 80), mkPos 0 (Num 160)) = (node_pos n1, node_pos n2).
Proof.
  apply (@links_join_nodes 5 diamond [] diamond_positions
           (renderLinks diamond diamond_positions)
           (renderNodes diamond diamond_positions)
           (mkLink "M1"%string "F"%string (mkPos (-80) (Num 80), mkPos 0 (Num 160)))).
  - vm_compute. reflexivity.
  - vm_compute. tauto.
Defined.

Lemma renderNodes_ids (data : list Quest) (np : JsMap string Position) :
  map node_id (renderNodes data np) =
  filter (fun k => Map_has String.eqb np k) (map id data).
Proof.
  unfold renderNodes, Map_has. induction data as [|q data IH]; simpl; [reflexivity|].
  rewrite map_app, IH. destruct (Map_get String.eqb np (id q)); reflexivity.
Qed.

(** X10. The nodes drawn are the entries of the position mapping: an id
    has a node exactly when it has a position, and with unique ids there
    is one node per position. *)
Theorem nodes_are_positions fuel data np0 np links nodes :
  setupGraph fuel data np0 = Some (np, links, nodes) ->
  (forall k, In k (map node_id nodes) <-> In k (Map_keys np)) /\
  (NoDup (map id data) ->
   NoDup (map node_id nodes) /\ length nodes = length np).
Proof.
  intros Hset.
  destruct (@setupGraph_inv fuel data np0 np links nodes Hset) as [r [Hlay [_ ->]]].
  destruct (@positions_sound fuel data np0 np r Hlay) as [Hndk [Hincl _]].
  assert (Hiff : forall k, In k (map node_id (renderNodes data np)) <->
                           In k (Map_keys np)).
  { intros k. rewrite renderNodes_ids, filter_In, (Map_has_keys String.eqb_eq).
    split; [tauto|]. intros Hk. split; [now apply Hincl | exact Hk]. }
  split; [exact Hiff|]. intros Hnd.
  assert (Hndn : NoDup (map node_id (renderNodes data np))).
  { rewrite renderNodes_ids. now apply NoDup_filter. }
  split; [exact Hndn|].
  rewrite <- (length_map node_id), <- (length_map fst np).
  apply Permutation_length. apply NoDup_Permutation; assumption.
Qed.

Lemma nodes_are_positions_witness :
  (forall k, In k (map node_id (renderNodes diamond diamond_positions)) <->
             In k (Map_keys diamond_positions)) /\
  (NoDup (map id diamond) ->
   NoDup (map node_id (renderNodes diamond diamond_positions)) /\
   length (renderNodes diamond diamond_positions) = length diamond_positions).
Proof.
  apply (@nodes_are_positions 5 diamond [] diamond_positions
           (renderLinks diamond diamond_positions)
           (renderNodes diamond diamond_positions)).
  vm_compute. reflexivity.
Defined.

(** X11. On a dataset with unique ids, known prerequisites and no
    cycle, the graph shows what the statistics count: [setupGraph]
    completes, draws one node per quest and one link per prerequisite. *)
Theorem stats_match_rendering (data : list Quest) (np0 : JsMap string Position) :
  NoDup (map id data) ->
  (forall q p, In q data -> In p (prerequisites q) -> In p (map id data)) ->
  acyclic data ->
  exists depth, forall fuel, (depth <= fuel)%nat ->
    exists np links nodes,
      setupGraph fuel data np0 = Some (np, links, nodes) /\
      length nodes = fst (updateStats data) /\
      length links = snd (updateStats data).
Proof.
  intros Hnd Hclosed [rk Hrk]. destruct (acyclic_bound data rk) as [bound Hbound].
  exists bound. intros fuel Hfuel.
  destruct (@computeLevels_terminates data rk bound Hrk Hbound fuel Hfuel) as [st Hrun].
  pose proof (@computeLevels_covers data rk Hrk fuel st Hclosed Hrun) as Hcov.
  set (np := fold_left placeLevel (groupByLevel (levels st)) ([] : JsMap string Position)).
  assert (Hpos : forall k, In k (map id data) ->
                           exists pos, Map_get String.eqb np k = Some pos).
  { intros k Hk. apply in_map_iff in Hk. destruct Hk as [q [<- Hq]].
    apply (Map_get_Some_keys String.eqb_eq). apply (@positions_keys st).
    now apply Hcov. }
  exists np, (renderLinks data np), (renderNodes data np). split.
  { unfold setupGraph, calculateLayout. rewrite Hrun. reflexivity. }
  unfold updateStats, renderNodes, renderLinks. simpl. split.
  - rewrite <- (fold_count_one data). apply flat_map_length_eq.
    intros q Hq. destruct (Hpos (id q) (in_map id _ _ Hq)) as [pos E].
    now rewrite E.
  - apply flat_map_length_eq. intros q Hq.
    rewrite <- (fold_count_one (prerequisites q)). apply flat_map_length_eq.
    intros p Hp. destruct (Hpos p (Hclosed q p Hq Hp)) as [from E1].
    destruct (Hpos (id q) (in_map id _ _ Hq)) as [to E2].
    now rewrite E1, E2.
Qed.

Lemma diamond_closed :
  forall q p, In q diamond -> In p (prerequisites q) -> In p (map id diamond).
Proof.
  intros q p Hq Hp.
  simpl in Hq. destruct Hq as [<-|[<-|[<-|[<-|[]]]]]; simpl in Hp;
    repeat (destruct Hp as [<-|Hp]); try contradiction; simpl; tauto.
Qed.

Lemma stats_match_rendering_witness :
  exists depth, forall fuel, (depth <= fuel)%nat ->
    exists np links nodes,
      setupGraph fuel diamond [] = Some (np, links, nodes) /\
      length nodes = fst (updateStats diamond) /\
      length links = snd (updateStats diamond).
Proof.
  apply (@stats_match_rendering diamond []).
  - distinct_ids.
  - exact diamond_closed.
  - exact diamond_acyclic.
Defined.

(** A quest whose prerequisites all have a level lies strictly below
    each of them. *)
Lemma level_below_all (fuel : nat) (data : list Quest) (st : LState) (q : Quest) :
  NoDup (map id data) -> computeLevels fuel data = Some st ->
  In q data -> prerequisites q <> [] -> all_known st q ->
  exists v, levels_get st (id q) = Some v /\
            forall p lp, In p (prerequisites q) -> levels_get st p = Some lp ->
                         num_lt lp v.
Proof.
  intros Hnd Hrun Hq Hne Hall.
  destruct (@computeLevels_all_resolved data fuel st Hrun q Hq Hne Hall)
    as [v [Hv Hge]].
  destruct (@computeLevels_class data fuel st Hnd Hrun) as [HB HC].
  exists v. split; [exact Hv|]. intros p lp Hp Hlp.
  assert (Hlev : is_level lp) by (destruct HB as [_ [Hlev _]]; eapply Hlev, Hlp).
  assert (Hle : num_le lp (Math_max (prereqLevels st q))).
  { apply Math_max_ge. apply prereqLevels_In. eauto. }
  destruct Hlev as [z [-> Hz]].
  destruct (Math_max (prereqLevels st q)) as [|m]; simpl in Hle; [contradiction|].
  destruct v as [|w]; simpl in *; [contradiction | lia].
Qed.

Lemma position_level fuel data st k pos :
  computeLevels fuel data = Some st ->
  Map_get String.eqb (fold_left placeLevel (groupByLevel (levels st)) []) k = Some pos ->
  exists v, levels_get st k = Some v /\ is_level v /\
            y pos = num_scale v (nodeSpacingY CONFIG).
Proof.
  intros Hrun Hpos.
  assert (Hk : has_level st k).
  { apply (@positions_keys st). apply (Map_get_Some_keys String.eqb_eq). now exists pos. }
  destruct Hk as [v Hv]. exists v. split; [exact Hv|]. split.
  - pose proof (@computeLevels_base data fuel st Hrun) as [_ [Hlev _]]. eapply Hlev, Hv.
  - destruct (@positions_level fuel data st Hrun k v Hv)
      as (level & ids & i & _ & _ & _ & Hget).
    rewrite Hget in Hpos. inversion Hpos. reflexivity.
Qed.

(** X12. With unique ids, a link into a quest whose prerequisites are
    all placed runs strictly downward: the prerequisite end has the
    smaller [y]. *)
Theorem links_run_downward fuel data np0 np links nodes (q : Quest) (l : LinkEl) :
  NoDup (map id data) ->
  setupGraph fuel data np0 = Some (np, links, nodes) ->
  In q data ->
  (forall p, In p (prerequisites q) -> exists pos, Map_get String.eqb np p = Some pos) ->
  In l links -> link_to l = id q ->
  num_lt (y (fst (link_ends l))) (y (snd (link_ends l))).
Proof.
  intros Hnd Hset Hq Hplaced Hl Hto.
  destruct (@setupGraph_inv fuel data np0 np links nodes Hset) as [r [Hlay [-> _]]].
  destruct (calculateLayout_inv _ _ _ Hlay) as [st [Hrun [Hg [_ Hnp]]]].
  rewrite Hg in Hnp.
  apply renderLinks_In in Hl.
  destruct Hl as (q' & p & from & to & Hq' & Hp & E1 & E2 & ->).
  simpl in *. assert (q' = q) by now apply (id_inj data). subst q'.
  assert (Hall : all_known st q).
  { apply all_known_iff. intros p' Hp'. apply (@positions_keys st).
    rewrite <- Hnp. apply (Map_get_Some_keys String.eqb_eq). now apply Hplaced. }
  assert (Hne : prerequisites q <> []).
  { intros Hnil. rewrite Hnil in Hp. exact Hp. }
  destruct (@level_below_all fuel data st q Hnd Hrun Hq Hne Hall) as [v [Hv Hlt]].
  rewrite Hnp in E1, E2.
  destruct (@position_level fuel data st p from Hrun E1) as [lp [Hlp [Hlev1 Hy1]]].
  destruct (@position_level fuel data st (id q) to Hrun E2) as [v' [Hv' [Hlev2 Hy2]]].
  rewrite Hv in Hv'. inversion Hv'. subst v'.
  specialize (Hlt p lp Hp Hlp). rewrite Hy1, Hy2.
  destruct Hlev1 as [a [-> _]], Hlev2 as [b [-> _]]. simpl in *. lia.
Qed.

Lemma links_run_downward_witness :
  num_lt (Num 80) (Num 160).
Proof.
  apply (@links_run_downward 5 diamond [] diamond_positions
           (renderLinks diamond diamond_positions)
           (renderNodes diamond diamond_positions)
           (mkQuest "F"%string false ["M1"; "M2"]%string)
           (mkLink "M1"%string "F"%string (mkPos (-80) (Num 80), mkPos 0 (Num 160)))).
  - distinct_ids.
  - vm_compute. reflexivity.
  - simpl. tauto.
  - intros p Hp. simpl in Hp. destruct Hp as [<-|[<-|[]]]; eexists; reflexivity.
  - vm_compute. tauto.
  - reflexivity.
Defined.

(** X13. With unique ids, selecting a quest highlights every link drawn
    into a highlighted quest: the highlighted part of the graph is
    closed towards the prerequisites. *)
Theorem highlight_closed fuel data np0 np links nodes fuel' sel p (l : LinkEl) :
  NoDup (map id data) ->
  setupGraph fuel data np0 = Some (np, links, nodes) ->
  getAncestorPath fuel' (buildQuestMap data) sel = Some p ->
  In l links -> includes p (link_to l) = true ->
  linkHighlighted p l = true.
Proof.
  intros Hnd Hset Hpath Hl Hto. unfold linkHighlighted. rewrite Hto, andb_true_r.
  destruct (@setupGraph_inv fuel data np0 np links nodes Hset) as [r [Hlay [-> _]]].
  apply renderLinks_In in Hl.
  destruct Hl as (q & pr & from & to & Hq & Hp & E1 & E2 & ->). simpl in *.
  destruct (@positions_sound fuel data np0 np r Hlay) as [_ [Hincl _]].
  assert (Hknown : known (buildQuestMap data) pr).
  { apply questMap_known, Hincl. apply (Map_get_Some_keys String.eqb_eq). now exists from. }
  destruct (@getAncestorPath_sound (buildQuestMap data) sel fuel' p Hpath) as [_ Hanc].
  apply includes_In. apply includes_In in Hto. apply Hanc. apply Hanc in Hto.
  eapply anc_step; [exact Hto | apply questMap_unique_get; eassumption | exact Hp
                   | exact Hknown].
Qed.

Lemma highlight_closed_witness :
  linkHighlighted ["R"; "M1"; "M2"; "F"]%string
    (mkLink "M1"%string "F"%string (mkPos (-80) (Num 80), mkPos 0 (Num 160))) = true.
Proof.
  apply (@highlight_closed 5 diamond [] diamond_positions
           (renderLinks diamond diamond_positions)
           (renderNodes diamond diamond_positions)
           5 "F"%string).
  - distinct_ids.
  - vm_compute. reflexivity.
  - vm_compute. reflexivity.
  - vm_compute. tauto.
  - reflexivity.
Defined.

(* ================================================================== *)
(** ** More on the layout *)

Lemma Map_set_In_NoDup (K V : Type) (eqb : K -> K -> bool) :
  (forall a b, eqb a b = true <-> a = b) ->
  forall (m : JsMap K V) k v k' v',
    NoDup (Map_keys m) -> In (k', v') (Map_set eqb m k v) ->
    (k' = k /\ v' = v) \/ (k' <> k /\ In (k', v') m).
Proof.
  intros Heq. induction m as [|[k0 v0] m IH]; simpl; intros k v k' v' Hnd H.
  - destruct H as [H|[]]. inversion H. now left.
  - inversion Hnd as [|? ? Hnin Hnd']. subst.
    destruct (eqb k0 k) eqn:E.
    + apply Heq in E. subst k0. destruct H as [H|H].
      * inversion H. now left.
      * right. split; [|now right]. intros ->. apply Hnin.
        apply (in_map fst) in H. exact H.
    + destruct H as [H|H].
      * inversion H. subst. right. split; [|now left].
        intros ->. rewrite (proj2 (Heq k k) eq_refl) in E. discriminate.
      * destruct (IH k v k' v' Hnd' H) as [Hl|[Hne Hin]]; [now left|].
        right. split; [exact Hne | now right].
Qed.

Lemma NoDup_keys_unique (K V : Type) (m : JsMap K V) k v1 v2 :
  NoDup (Map_keys m) -> In (k, v1) m -> In (k, v2) m -> v1 = v2.
Proof.
  induction m as [|[k0 v0] m IH]; simpl; intros Hnd H1 H2; [contradiction|].
  inversion Hnd as [|? ? Hnin Hnd']. subst.
  destruct H1 as [H1|H1], H2 as [H2|H2].
  - congruence.
  - inversion H1. subst. exfalso. apply Hnin. apply (in_map fst) in H2. exact H2.
  - inversion H2. subst. exfalso. apply Hnin. apply (in_map fst) in H1. exact H1.
  - now apply IH.
Qed.

Lemma idsAt_app (lv : JsMap string num) (k : string) (l l' : num) :
  idsAt (lv ++ [(k, l)]) l' = idsAt lv l' ++ (if num_eqb l l' then [k] else []).
Proof.
  unfold idsAt. rewrite filter_app, map_app. simpl.
  destruct (num_eqb l l'); reflexivity.
Qed.

Lemma num_eqb_refl (a : num) : num_eqb a a = true.
Proof. now apply num_eqb_eq. Qed.

Lemma num_eqb_neq (a b : num) : a <> b -> num_eqb a b = false.
Proof.
  intros H. destruct (num_eqb a b) eqn:E; [|reflexivity].
  apply num_eqb_eq in E. contradiction.
Qed.

Lemma idsAt_absent (lv : JsMap string num) (g : JsMap num (list string)) (l : num) :
  (forall k l', In (k, l') lv -> In l' (Map_keys g)) ->
  ~ In l (Map_keys g) -> idsAt lv l = [].
Proof.
  intros Hcov Hnin. unfold idsAt.
  induction lv as [|[k l'] lv IH]; simpl; [reflexivity|].
  destruct (num_eqb l' l) eqn:E.
  - apply num_eqb_eq in E. subst l'. exfalso. apply Hnin.
    apply (Hcov k l). now left.
  - apply IH. intros k0 l0 H. apply (Hcov k0 l0). now right.
Qed.

Lemma pushGroup_groups_exact lv g qid level :
  groups_exact lv g -> groups_exact (lv ++ [(qid, level)]) (pushGroup g (qid, level)).
Proof.
  intros [Hnd [Hex Hcov]]. unfold pushGroup, Map_has.
  destruct (Map_get num_eqb g level) as [ids|] eqn:E.
  - rewrite E. split; [now apply Map_keys_set_NoDup; [apply num_eqb_eq|]|]. split.
    + intros l ids' Hin.
      apply (@Map_set_In_NoDup _ _ num_eqb num_eqb_eq) in Hin; [|exact Hnd].
      rewrite idsAt_app. destruct Hin as [[-> ->]|[Hne Hin]].
      * rewrite num_eqb_refl.
        destruct (Hex level ids (Map_get_Some_In num_eqb_eq _ _ E)) as [-> _].
        split; [reflexivity|]. intros H. apply app_eq_nil in H. destruct H; discriminate.
      * rewrite num_eqb_neq by congruence. rewrite app_nil_r. now apply Hex.
    + intros k l Hin. apply (Map_keys_set_In num_eqb_eq).
      apply in_app_or in Hin. destruct Hin as [Hin|[Hin|[]]].
      * right. eapply Hcov, Hin.
      * inversion Hin. now left.
  - assert (Hnin : ~ In level (Map_keys g)).
    { now apply (Map_get_None_keys num_eqb_eq). }
    rewrite (@Map_set_absent _ _ num_eqb g level [] E).
    assert (E1 : Map_get num_eqb (g ++ [(level, [])]) level = Some []).
    { rewrite <- (@Map_set_absent _ _ num_eqb g level [] E).
      apply Map_get_set_same, num_eqb_eq. }
    rewrite E1.
    assert (Hnd1 : NoDup (Map_keys (g ++ [(level, [])]))).
    { rewrite <- (@Map_set_absent _ _ num_eqb g level [] E).
      apply Map_keys_set_NoDup; [apply num_eqb_eq | exact Hnd]. }
    split; [apply Map_keys_set_NoDup; [apply num_eqb_eq | exact Hnd1]|]. split.
    + intros l ids' Hin.
      apply (@Map_set_In_NoDup _ _ num_eqb num_eqb_eq) in Hin; [|exact Hnd1].
      rewrite idsAt_app. destruct Hin as [[-> ->]|[Hne Hin]].
      * rewrite num_eqb_refl, (@idsAt_absent lv g level Hcov Hnin).
        split; [reflexivity | discriminate].
      * rewrite num_eqb_neq by congruence. rewrite app_nil_r.
        apply in_app_or in Hin. destruct Hin as [Hin|[Hin|[]]]; [now apply Hex|].
        inversion Hin. congruence.
    + intros k l Hin. apply (Map_keys_set_In num_eqb_eq).
      apply in_app_or in Hin. destruct Hin as [Hin|[Hin|[]]].
      * right. unfold Map_keys. rewrite map_app. apply in_or_app. left.
        eapply Hcov, Hin.
      * inversion Hin. now left.
Qed.

Lemma groupByLevel_groups_exact (lv : JsMap string num) :
  groups_exact lv (groupByLevel lv).
Proof.
  unfold groupByLevel.
  assert (H : forall rest done g, groups_exact done g ->
            groups_exact (done ++ rest) (fold_left pushGroup rest g)).
  { induction rest as [|[qid level] rest IH]; simpl; intros done g Hg.
    - now rewrite app_nil_r.
    - replace (done ++ (qid, level) :: rest) with ((done ++ [(qid, level)]) ++ rest)
        by (rewrite <- app_assoc; reflexivity).
      apply IH. now apply pushGroup_groups_exact. }
  apply (H lv [] []). split; [constructor|]. split; [intros l ids [] | intros k l []].
Qed.

(** X14. Each group of the result holds the quests of its level in the
    order in which they first received a level, no group is empty, no
    level has two groups, and every level that a quest has has its
    group. *)
Theorem group_content (fuel : nat) (data : list Quest)
  (np0 np : JsMap string Position) (r : LayoutResult) :
  calculateLayout fuel data np0 = Some (np, r) ->
  exists st,
    computeLevels fuel data = Some st /\
    NoDup (Map_keys (levelGroups r)) /\
    (forall l ids, In (l, ids) (levelGroups r) ->
                   ids = idsAt (levels st) l /\ ids <> []) /\
    (forall k l, levels_get st k = Some l ->
                 exists ids, In (l, ids) (levelGroups r) /\ In k ids).
Proof.
  intros Hlay.
  destruct (calculateLayout_inv _ _ _ Hlay) as [st [Hrun [Hg _]]].
  exists st. split; [exact Hrun|]. rewrite Hg.
  destruct (groupByLevel_groups_exact (levels st)) as [Hnd [Hex Hcov]].
  split; [exact Hnd|]. split; [exact Hex|].
  intros k l Hk.
  destruct (@positions_level fuel data st Hrun k l Hk)
    as (level & ids & i & Hin & Hnth & -> & _).
  exists ids. split; [exact Hin | eapply nth_error_In, Hnth].
Qed.

Lemma group_content_witness :
  exists st,
    computeLevels 5 diamond = Some st /\
    NoDup (Map_keys [(Num 0, ["R"]); (Num 1, ["M1"; "M2"]); (Num 2, ["F"])]%string) /\
    (forall l ids,
        In (l, ids) [(Num 0, ["R"]); (Num 1, ["M1"; "M2"]); (Num 2, ["F"])]%string ->
        ids = idsAt (levels st) l /\ ids <> []) /\
    (forall k l, levels_get st k = Some l ->
       exists ids,
         In (l, ids) [(Num 0, ["R"]); (Num 1, ["M1"; "M2"]); (Num 2, ["F"])]%string /\
         In k ids).
Proof.
  apply (@group_content 5 diamond [] diamond_positions diamond_result diamond_layout).
Defined.

(** X15. No two quests are placed on the same point: two different ids
    of the position mapping have different positions. *)
Theorem no_overlap (fuel : nat) (data : list Quest)
  (np0 np : JsMap string Position) (r : LayoutResult) (k1 k2 : string)
  (p1 p2 : Position) :
  calculateLayout fuel data np0 = Some (np, r) ->
  Map_get String.eqb np k1 = Some p1 -> Map_get String.eqb np k2 = Some p2 ->
  k1 <> k2 -> p1 <> p2.
Proof.
  intros Hlay H1 H2 Hne Heq. subst p2.
  destruct (calculateLayout_inv _ _ _ Hlay) as [st [Hrun [Hg [_ Hnp]]]].
  rewrite Hg in Hnp. rewrite Hnp in H1, H2.
  destruct (@position_level fuel data st k1 p1 Hrun H1) as [v1 [Hv1 [_ Hy1]]].
  destruct (@position_level fuel data st k2 p1 Hrun H2) as [v2 [Hv2 [_ Hy2]]].
  assert (v2 = v1).
  { apply (@num_scale_inj v2 v1 (nodeSpacingY CONFIG)); [discriminate | congruence]. }
  subst v2.
  destruct (@positions_level fuel data st Hrun k1 v1 Hv1)
    as (l1 & ids1 & i1 & Hin1 & Hn1 & -> & Hg1).
  destruct (@positions_level fuel data st Hrun k2 v1 Hv2)
    as (l2 & ids2 & i2 & Hin2 & Hn2 & -> & Hg2).
  destruct (groupByLevel_groups_exact (levels st)) as [Hnd _].
  assert (ids2 = ids1) by (eapply NoDup_keys_unique; eassumption). subst ids2.
  rewrite H1 in Hg1. rewrite H2 in Hg2. rewrite Hg1 in Hg2. inversion Hg2 as [Hx].
  assert (i1 = i2) by lia. subst i2. rewrite Hn1 in Hn2. congruence.
Qed.

Lemma no_overlap_witness : mkPos (-80) (Num 80) <> mkPos 80 (Num 80).
Proof.
  apply (@no_overlap 5 diamond [] diamond_positions diamond_result
           "M1"%string "M2"%string _ _ diamond_layout).
  - reflexivity.
  - reflexivity.
  - discriminate.
Defined.

Lemma Math_max_In (l : list num) : l <> [] -> In (Math_max l) l.
Proof.
  induction l as [|a l IH]; [congruence|]. intros _. simpl.
  destruct l as [|b l].
  - left. simpl. destruct a; reflexivity.
  - assert (Hin : In (Math_max (b :: l)) (b :: l)) by (apply IH; discriminate).
    destruct a as [|x], (Math_max (b :: l)) as [|m] eqn:E; simpl.
    + now left.
    + right. exact Hin.
    + now left.
    + destruct (Z.max_spec x m) as [[_ ->]|[_ ->]]; [right; exact Hin | now left].
Qed.

(** X16. When at least one quest has a level, [maxLevel] is a
    non-negative integer, no quest has a higher level, and some quest
    has exactly that level. *)
Theorem maxLevel_is_greatest (fuel : nat) (data : list Quest)
  (np0 np : JsMap string Position) (r : LayoutResult) :
  calculateLayout fuel data np0 = Some (np, r) -> np <> [] ->
  exists st m,
    computeLevels fuel data = Some st /\
    maxLevel r = Num m /\ 0 <= m /\
    (forall k v, levels_get st k = Some v -> num_le v (Num m)) /\
    (exists k, levels_get st k = Some (Num m)).
Proof.
  intros Hlay Hne.
  destruct (calculateLayout_inv _ _ _ Hlay) as [st [Hrun [Hg [Hmax Hnp]]]].
  rewrite Hg in Hnp, Hmax.
  destruct (groupByLevel_groups_exact (levels st)) as [Hnd [Hex Hcov]].
  pose proof (@computeLevels_base data fuel st Hrun) as [_ [Hlev [_ Hndl]]].
  assert (Hkeys : Map_keys (groupByLevel (levels st)) <> []).
  { intros Hnil. apply Hne. rewrite Hnp.
    destruct (groupByLevel (levels st)); [reflexivity | discriminate]. }
  pose proof (Math_max_In Hkeys) as Hin. rewrite <- Hmax in Hin.
  apply in_map_iff in Hin. destruct Hin as [[l ids] [El Hin]]. simpl in El. subst l.
  destruct (Hex _ _ Hin) as [Hids Hnonempty].
  destruct ids as [|k ids]; [congruence|].
  assert (Hk : In k (idsAt (levels st) (maxLevel r))) by (rewrite <- Hids; now left).
  unfold idsAt in Hk. apply in_map_iff in Hk. destruct Hk as [[k' l'] [Ek Hk]].
  simpl in Ek. subst k'. apply filter_In in Hk. destruct Hk as [Hk El]. simpl in El.
  apply num_eqb_eq in El. subst l'.
  apply (In_Map_get String.eqb_eq) in Hk; [|exact Hndl].
  destruct (Hlev _ _ Hk) as [m [Em Hm]].
  exists st, m. split; [exact Hrun|]. split; [exact Em|]. split; [exact Hm|]. split.
  - intros k0 v Hv. rewrite <- Em, Hmax. apply Math_max_ge.
    apply (Hcov k0). eapply Map_get_Some_In; [apply String.eqb_eq | exact Hv].
  - exists k. rewrite <- Em. exact Hk.
Qed.

Lemma maxLevel_is_greatest_witness :
  exists st m,
    computeLevels 5 diamond = Some st /\
    Num 2 = Num m /\ 0 <= m /\
    (forall k v, levels_get st k = Some v -> num_le v (Num m)) /\
    (exists k, levels_get st k = Some (Num m)).
Proof.
  apply (@maxLevel_is_greatest 5 diamond [] diamond_positions diamond_result
           diamond_layout).
  discriminate.
Defined.

(** X17. On a dataset whose prerequisite graph has no cycle,
    [calculateLayout] returns for every stack that is deep enough, also
    when ids repeat or prerequisites name unknown quests. *)
Theorem acyclic_layout_completes (data : list Quest) (np0 : JsMap string Position) :
  acyclic data ->
  exists depth, forall fuel, (depth <= fuel)%nat ->
    exists np r, calculateLayout fuel data np0 = Some (np, r).
Proof.
  intros [rk Hrk]. destruct (acyclic_bound data rk) as [bound Hbound].
  exists bound. intros fuel Hfuel.
  destruct (@computeLevels_terminates data rk bound Hrk Hbound fuel Hfuel) as [st Hrun].
  unfold calculateLayout. rewrite Hrun. eauto.
Qed.

Lemma acyclic_layout_completes_witness :
  exists depth, forall fuel, (depth <= fuel)%nat ->
    exists np r, calculateLayout fuel unknown_gap [] = Some (np, r).
Proof.
  apply (@acyclic_layout_completes unknown_gap []). exact unknown_gap_acyclic.
Defined.

(** X18. Whatever the dataset, a completed layout places only quests of
    the dataset, each id once, so never more positions than quests, and
    it places every quest that has no prerequisites. *)
Theorem placed_are_quests (fuel : nat) (data : list Quest)
  (np0 np : JsMap string Position) (r : LayoutResult) :
  calculateLayout fuel data np0 = Some (np, r) ->
  NoDup (Map_keys np) /\
  (forall k, In k (Map_keys np) -> In k (map id data)) /\
  (length np <= length data)%nat /\
  (forall q, In q data -> prerequisites q = [] ->
             exists pos, Map_get String.eqb np (id q) = Some pos).
Proof. apply positions_sound. Qed.

Lemma placed_are_quests_witness :
  NoDup (Map_keys diamond_positions) /\
  (forall k, In k (Map_keys diamond_positions) -> In k (map id diamond)) /\
  (length diamond_positions <= length diamond)%nat /\
  (forall q, In q diamond -> prerequisites q = [] ->
             exists pos, Map_get String.eqb diamond_positions (id q) = Some pos).
Proof.
  apply (@placed_are_quests 5 diamond [] diamond_positions diamond_result
           diamond_layout).
Defined.

(** X19. Every [y] of the position mapping is a non-negative multiple of
    [nodeSpacingY]; it is never [-Infinity]. *)
Theorem positions_finite (fuel : nat) (data : list Quest)
  (np0 np : JsMap string Position) (r : LayoutResult) (k : string) (pos : Position) :
  calculateLayout fuel data np0 = Some (np, r) ->
  Map_get String.eqb np k = Some pos ->
  exists z, 0 <= z /\ y pos = Num (z * nodeSpacingY CONFIG).
Proof.
  intros Hlay Hpos.
  destruct (calculateLayout_inv _ _ _ Hlay) as [st [Hrun [Hg [_ Hnp]]]].
  rewrite Hg in Hnp. rewrite Hnp in Hpos.
  destruct (@position_level fuel data st k pos Hrun Hpos) as [v [_ [[z [-> Hz]] Hy]]].
  exists z. split; [exact Hz | exact Hy].
Qed.

Lemma positions_finite_witness :
  exists z, 0 <= z /\ Num 160 = Num (z * nodeSpacingY CONFIG).
Proof.
  apply (@positions_finite 5 diamond [] diamond_positions diamond_result
           "F"%string (mkPos 0 (Num 160)) diamond_layout).
  reflexivity.
Defined.

(** X20. With unique ids, the top row ([y = 0]) holds exactly the placed
    quests that have no prerequisites. *)
Theorem top_row (fuel : nat) (data : list Quest)
  (np0 np : JsMap string Position) (r : LayoutResult) (q : Quest) (pos : Position) :
  NoDup (map id data) ->
  calculateLayout fuel data np0 = Some (np, r) ->
  In q data -> Map_get String.eqb np (id q) = Some pos ->
  (y pos = Num 0 <-> prerequisites q = []).
Proof.
  intros Hnd Hlay Hq Hpos.
  destruct (calculateLayout_inv _ _ _ Hlay) as [st [Hrun [Hg [_ Hnp]]]].
  rewrite Hg in Hnp. rewrite Hnp in Hpos.
  destruct (@position_level fuel data st (id q) pos Hrun Hpos) as [v [Hv [_ Hy]]].
  destruct (@computeLevels_class data fuel st Hnd Hrun) as [_ HC].
  rewrite Hy.
  destruct (HC q v Hq Hv) as [[Hnil [_ ->]]|[Hpl [Hone _]]].
  - simpl. tauto.
  - split.
    + intros H0. destruct v as [|z]; simpl in *; [discriminate|].
      inversion H0. lia.
    + intros Hnil. rewrite prereqLevels_nil in Hpl by exact Hnil. congruence.
Qed.

Lemma top_row_witness :
  (Num 0 = Num 0 <-> prerequisites (mkQuest "R"%string true []) = []).
Proof.
  apply (@top_row 5 diamond [] diamond_positions diamond_result
           (mkQuest "R"%string true []) (mkPos 0 (Num 0))).
  - distinct_ids.
  - exact diamond_layout.
  - simpl. tauto.
  - reflexivity.
Defined.

(** X21. With unique ids, a quest with prerequisites is drawn only
    together with a link into it: no node that has prerequisites stands
    without an incoming link. *)
Theorem node_has_incoming_link fuel data np0 np links nodes (q : Quest) (n : NodeEl) :
  NoDup (map id data) ->
  setupGraph fuel data np0 = Some (np, links, nodes) ->
  In q data -> prerequisites q <> [] ->
  In n nodes -> node_id n = id q ->
  exists l, In l links /\ link_to l = id q /\ In (link_from l) (prerequisites q).
Proof.
  intros Hnd Hset Hq Hne Hn Hid.
  destruct (@setupGraph_inv fuel data np0 np links nodes Hset) as [r [Hlay [-> ->]]].
  destruct (calculateLayout_inv _ _ _ Hlay) as [st [Hrun [Hg [_ Hnp]]]].
  rewrite Hg in Hnp.
  apply renderNodes_In in Hn. destruct Hn as [q' [to [Hq' [Eto ->]]]]. simpl in Hid.
  assert (q' = q) by now apply (id_inj data). subst q'.
  assert (Hlevel : has_level st (id q)).
  { apply (@positions_keys st). rewrite <- Hnp.
    apply (Map_get_Some_keys String.eqb_eq). now exists to. }
  destruct Hlevel as [v Hv].
  destruct (@computeLevels_class data fuel st Hnd Hrun) as [_ HC].
  destruct (HC q v Hq Hv) as [[Hnil _]|[Hpl _]]; [contradiction|].
  destruct (prereqLevels st q) as [|lp rest] eqn:E; [congruence|].
  assert (Hin : In lp (prereqLevels st q)) by (rewrite E; now left).
  apply prereqLevels_In in Hin. destruct Hin as [p [Hp Hlp]].
  assert (Hfrom : exists from, Map_get String.eqb np p = Some from).
  { apply (Map_get_Some_keys String.eqb_eq). rewrite Hnp.
    apply (@positions_keys st). now exists lp. }
  destruct Hfrom as [from Efrom].
  exists (mkLink p (id q) (from, to)). simpl. split; [|tauto].
  apply renderLinks_In. exists q, p, from, to. tauto.
Qed.

Lemma node_has_incoming_link_witness :
  exists l, In l (renderLinks diamond diamond_positions) /\
            link_to l = "F"%string /\ In (link_from l) ["M1"; "M2"]%string.
Proof.
  apply (@node_has_incoming_link 5 diamond [] diamond_positions
           (renderLinks diamond diamond_positions)
           (renderNodes diamond diamond_positions)
           (mkQuest "F"%string false ["M1"; "M2"]%string)
           (mkNode "F"%string (mkPos 0 (Num 160)) 8)).
  - distinct_ids.
  - vm_compute. reflexivity.
  - simpl. tauto.
  - discriminate.
  - vm_compute. tauto.
  - reflexivity.
Defined.

(* ================================================================== *)
(** ** Label truncation *)

Lemma slice0_length (str : jsString) (e : Z) :
  Z.of_nat (length (slice0 str e)) =
  if e <? 0 then Z.max (Z.of_nat (length str) + e) 0
  else Z.min e (Z.of_nat (length str)).
Proof.
  unfold slice0. rewrite length_firstn.
  destruct (Z.ltb_spec e 0); lia.
Qed.

Lemma truncate_length_min (str : jsString) (len : Z) :
  1 <= len ->
  Z.of_nat (length (truncate str len)) = Z.min (Z.of_nat (length str)) len.
Proof.
  intros Hlen. unfold truncate.
  destruct (Z.gtb_spec (Z.of_nat (length str)) len) as [Hgt|Hle]; [|lia].
  rewrite length_app, Nat2Z.inj_add, slice0_length. simpl.
  destruct (Z.ltb_spec (len - 1) 0); lia.
Qed.

(** X22. For a limit of at least 1 the label returned has
    [min(length, len)] code units: it never exceeds the limit, and a
    label within the limit keeps its length. *)
Theorem truncate_length (str : jsString) (len : Z) :
  1 <= len ->
  Z.of_nat (length (truncate str len)) = Z.min (Z.of_nat (length str)) len.
Proof. apply truncate_length_min. Qed.

Lemma truncate_length_witness :
  Z.of_nat (length (truncate [65; 66; 67; 68; 69]%N 3)) = Z.min 5 3.
Proof.
  apply (@truncate_length [65; 66; 67; 68; 69]%N 3). lia.
Defined.

(** X23. For a limit of at least 1, truncating twice is truncating
    once. *)
Theorem truncate_idempotent (str : jsString) (len : Z) :
  1 <= len -> truncate (truncate str len) len = truncate str len.
Proof.
  intros Hlen. pose proof (truncate_length_min str Hlen) as H.
  unfold truncate at 1.
  destruct (Z.gtb_spec (Z.of_nat (length (truncate str len))) len); [lia | reflexivity].
Qed.

Lemma truncate_idempotent_witness :
  truncate (truncate [65; 66; 67; 68; 69]%N 3) 3 = truncate [65; 66; 67; 68; 69]%N 3.
Proof.
  apply (@truncate_idempotent [65; 66; 67; 68; 69]%N 3). lia.
Defined.

(** X24. A limit of 0 or less does not shorten the label to the limit:
    [slice(0, len - 1)] then counts from the end, and a label longer than
    the limit comes back with [max(length + len - 1, 0) + 1] code units;
    with the limit 0 it keeps its length, the last unit replaced by the
    ellipsis. *)
Theorem truncate_nonpositive_limit (str : jsString) (len : Z) :
  len <= 0 -> len < Z.of_nat (length str) ->
  Z.of_nat (length (truncate str len)) = Z.max (Z.of_nat (length str) + len - 1) 0 + 1 /\
  (len = 0 -> truncate str len = removelast str ++ [ellipsis]).
Proof.
  intros Hlen Hlt. unfold truncate.
  destruct (Z.gtb_spec (Z.of_nat (length str)) len) as [Hgt|Hle]; [|lia].
  split.
  - rewrite length_app, Nat2Z.inj_add, slice0_length. simpl.
    destruct (Z.ltb_spec (len - 1) 0); lia.
  - intros ->. f_equal. unfold slice0. simpl.
    rewrite removelast_firstn_len. f_equal. lia.
Qed.

Lemma truncate_nonpositive_limit_witness :
  Z.of_nat (length (truncate [65; 66; 67]%N 0)) = Z.max (3 + 0 - 1) 0 + 1 /\
  (0 = 0 -> truncate [65; 66; 67]%N 0 = removelast [65; 66; 67]%N ++ [ellipsis]).
Proof.
  apply (@truncate_nonpositive_limit [65; 66; 67]%N 0).
  - lia.
  - simpl. lia.
Defined.
